(** * coverage-estimator: the probability model, likelihood and search
      of [coverage_estimator3.py], embedded in Rocq.

    Conventions of the embedding.

    - Python [int]s are [Z]; [range a b] is Python's [range(a, b)]; a list
      index is [py_index], which raises [IndexError] out of range.
    - Python [float]s that the model computes with are real numbers [R]:
      [+], [-], [*] and [**] with an integer exponent are exact, [/] raises
      [ZeroDivisionError] on a zero divisor.  Values that may be infinite
      (log-likelihoods, objective values) are [pyfloat].
    - The module runs on [math.exp], [math.log], [math.pow] and
      [BigFloat = float] (the fallback of its import of [bigfloat]).  These,
      the real power [**] and [round] are the fields of a record [libm]:
      each may return a value or raise.  The record also says when the
      product of two floats is [inf] ([m_mul_inf]): Python raises nothing
      there, and the denominator of [tr_poisson] is such a product.  The
      development is parametric in the record; [exact_libm] computes the
      mathematical functions and [double_libm] adds the facts of binary64
      the source reacts to (a result that rounds to [1.0], a range error,
      a product that overflows to [inf]).
    - A Python exception is a value [Raise e] of the error monad [res];
      [try ... except] is [catch].
    - [functools.lru_cache] only memoises pure functions and is left out.
    - The two search loops are run one transition at a time ([run], [runM]);
      a [KeyboardInterrupt] is the number of transitions made before it
      arrives. *)

From Stdlib Require Import ZArith List Reals Lra Lia Bool.
Import ListNotations.

Local Open Scope Z_scope.
Local Open Scope R_scope.

(** ** Exceptions and the error monad *)

Inductive exn : Type :=
| OverflowError
| FloatingPointError
| ZeroDivisionError
| IndexError
| TypeError
| ValueError.

Inductive res (A : Type) : Type :=
| Ok (a : A)
| Raise (e : exn).

Arguments Ok {A} a.
Arguments Raise {A} e.

Definition bind {A B : Type} (m : res A) (f : A -> res B) : res B :=
  match m with
  | Ok a => f a
  | Raise e => Raise e
  end.

Notation "x <- m ;; k" := (bind m (fun x => k))
  (at level 61, m at next level, right associativity).

Definition catch {A : Type} (m : res A) (h : exn -> res A) : res A :=
  match m with
  | Ok a => Ok a
  | Raise e => h e
  end.

Fixpoint mapM {A B : Type} (f : A -> res B) (l : list A) : res (list B) :=
  match l with
  | [] => Ok []
  | a :: t => b <- f a ;; bs <- mapM f t ;; Ok (b :: bs)
  end.

(** ** Python integers, ranges and lists *)

Definition range (a b : Z) : list Z :=
  map (fun i => (a + Z.of_nat i)%Z) (seq 0 (Z.to_nat (b - a))).

Definition len {A : Type} (l : list A) : Z := Z.of_nat (length l).

(** [l[i]]: a negative index counts from the end. *)
Definition py_index {A : Type} (l : list A) (i : Z) : res A :=
  let i' := if (i <? 0)%Z then (len l + i)%Z else i in
  if (i' <? 0)%Z then Raise IndexError
  else match nth_error l (Z.to_nat i') with
       | Some a => Ok a
       | None => Raise IndexError
       end.

(** [sum(...)] of floats: a left fold from [0]. *)
Definition py_sum (l : list R) : R := fold_left Rplus l 0.

(** [x / y] on floats. *)
Definition fdiv (x y : R) : res R :=
  if Req_dec_T y 0 then Raise ZeroDivisionError else Ok (x / y).

(** [x ** n] for a float [x] and an int [n]; every call site has [0 <= n]
    or [x <> 0].  The power is the real one: the [OverflowError] of a
    result beyond the float range is not modelled here. *)
Definition py_pow (x : R) (n : Z) : R := powerRZ x n.

(** [scipy.misc.factorial(j, exact=True)]: [0] for a negative argument. *)
Definition factorial (j : Z) : Z :=
  if (j <? 0)%Z then 0%Z else Z.of_nat (fact (Z.to_nat j)).

(** The factorial computed in [Z], to evaluate [factorial] on large
    arguments. *)
Fixpoint Zfact (n : nat) : Z :=
  match n with
  | O => 1%Z
  | S m => (Z.of_nat n * Zfact m)%Z
  end.

(** [scipy.misc.comb(n, k)]: the binomial coefficient, [0] outside
    [0 <= k <= n]. *)
Fixpoint binom (n k : nat) : nat :=
  match n, k with
  | _, O => 1
  | O, S _ => 0
  | S n', S k' => binom n' k' + binom n' k
  end.

Definition comb (n k : Z) : R :=
  if ((k <? 0) || (n <? k))%Z then 0
  else INR (binom (Z.to_nat n) (Z.to_nat k)).

(** ** The numeric library *)

Record libm : Type := {
  m_exp : R -> res R;            (* math.exp *)
  m_log : R -> res R;            (* math.log *)
  m_pow : R -> Z -> res R;       (* math.pow *)
  m_float : Z -> res R;          (* BigFloat = float, on an int *)
  m_fpow : R -> R -> res R;      (* float ** float *)
  m_round : R -> Z -> R;         (* round(x, ndigits) *)
  m_mul_inf : R -> R -> bool     (* the float product x * y is inf *)
}.

(** What the development assumes of a numeric library: [exp(0)] is [1],
    [exp] returns on a non-positive argument, the conversion of a positive
    integer is positive, and the only exception [exp], [pow] on a
    non-negative base and exponent, and the conversion raise is
    [OverflowError]. *)
Record libm_sane (M : libm) : Prop := {
  exp_zero : m_exp M 0 = Ok 1;
  exp_nonpos : forall x, x <= 0 -> exists v, m_exp M x = Ok v;
  exp_raises : forall x e, m_exp M x = Raise e -> e = OverflowError;
  pow_raises : forall x j e,
      0 <= x -> (0 <= j)%Z -> m_pow M x j = Raise e -> e = OverflowError;
  float_raises : forall n e, m_float M n = Raise e -> e = OverflowError;
  float_pos : forall n v, (0 < n)%Z -> m_float M n = Ok v -> 0 < v
}.

(** The real power [x ** y] of Python for [0 <= x]. *)
Definition real_fpow (x y : R) : res R :=
  if Req_dec_T x 0 then
    (if Rlt_dec 0 y then Ok 0
     else if Req_dec_T y 0 then Ok 1 else Raise ZeroDivisionError)
  else if Rlt_dec 0 x then Ok (Rpower x y)
  else Raise TypeError.

Definition real_log (x : R) : res R :=
  if Rlt_dec 0 x then Ok (ln x) else Raise ValueError.

(** Rounding to [n] decimal digits, to the nearest multiple of [10^-n]. *)
Definition real_round (x : R) (n : Z) : R :=
  IZR (up (x * powerRZ 10 n - / 2)) / powerRZ 10 n.

Definition exact_libm : libm := {|
  m_exp := fun x => Ok (exp x);
  m_log := real_log;
  m_pow := fun x j => Ok (powerRZ x j);
  m_float := fun n => Ok (IZR n);
  m_fpow := real_fpow;
  m_round := real_round;
  m_mul_inf := fun _ _ => false
|}.

(** binary64 with correctly rounded functions, as far as the source reacts
    to it: a result of [math.exp], [math.pow] or [float(n)] of size
    [2^1024] or more raises a range error, a product of that size is [inf]
    without an exception, and [exp x] is [1.0] when [e^x] lies between
    [1 - 2^-54] and [1 + 2^-53], the reals that round to [1.0].  Elsewhere
    the values are the exact ones. *)
Definition double_libm : libm := {|
  m_exp := fun x =>
    if Rle_dec (powerRZ 2 1024) (exp x) then Raise OverflowError
    else if Rle_dec (1 - powerRZ 2 (-54)) (exp x)
         then if Rle_dec (exp x) (1 + powerRZ 2 (-53)) then Ok 1
              else Ok (exp x)
         else Ok (exp x);
  m_log := real_log;
  m_pow := fun x j =>
    if Rle_dec (powerRZ 2 1024) (Rabs (powerRZ x j))
    then Raise OverflowError else Ok (powerRZ x j);
  m_float := fun n =>
    if (2 ^ 1024 <=? Z.abs n)%Z then Raise OverflowError else Ok (IZR n);
  m_fpow := real_fpow;
  m_round := real_round;
  m_mul_inf := fun x y =>
    if Rle_dec (powerRZ 2 1024) (Rabs (x * y)) then true else false
|}.

(** ** ProbabilityModel *)

Section Model.

Variable M : libm.

Definition tr_poisson (l : R) (j : Z) : res R :=
  catch
    (e <- m_exp M l ;;
     if Req_dec_T e 1 then Ok 0          (* precision fix *)
     else
       p1 <- m_pow M l j ;;
       p2 <- m_float M (factorial j) ;;
       p3 <- (if Rlt_dec 1e-8 l
              then e' <- m_exp M l ;; Ok (e' - 1)
              else Ok l) ;;
       (* a product of floats that overflows is inf and raises nothing;
          p1 is finite, and p1 / inf is 0.0 *)
       if m_mul_inf M p2 p3 then Ok 0
       else fdiv p1 (p2 * p3))
    (fun ex =>
       match ex with
       | OverflowError | FloatingPointError => Ok 0
       | _ => Raise ex
       end).

(** A vector entry: index 0 holds a placeholder, [None] in the base
    vector and the list [[None]] in a convolved row. *)
Inductive cell : Type :=
| PyNone
| PyNoneList
| PyFloat (x : R).

Definition as_float (x : cell) : res R :=
  match x with
  | PyFloat v => Ok v
  | _ => Raise TypeError
  end.

Definition compute_probabilities (r k : Z) (c err : R) (max_hist : Z)
  : res (list cell) :=
  (* read to kmer coverage *)
  c <- fdiv (c * IZR (r - k + 1)) (IZR r) ;;
  (* lambda for kmers with s errors *)
  let l_s :=
    map (fun s => c * py_pow 3 (- s) * py_pow (1 - err) (k - s) * py_pow err s)
        (range 0 (k + 1)) in
  (* expected probability of kmers with s errors and coverage >= 1 *)
  n_s <- mapM (fun s =>
                 l <- py_index l_s s ;;
                 e <- m_exp M (- l) ;;
                 Ok (comb k s * IZR (3 ^ s) * (1 - e)))
              (range 0 (k + 1)) ;;
  ns <- mapM (fun t => py_index n_s t) (range 0 (k + 1)) ;;
  let sum_n_s := py_sum ns in
  let sum_n_s := if Req_dec_T sum_n_s 0 then 1 else sum_n_s in
  (* portion of kmers with s errors *)
  a_s <- mapM (fun s => n <- py_index n_s s ;; fdiv n sum_n_s)
              (range 0 (k + 1)) ;;
  (* probability that unique kmer has coverage j (j > 0) *)
  p <- mapM (fun j =>
               ts <- mapM (fun s =>
                             a <- py_index a_s s ;;
                             l <- py_index l_s s ;;
                             t <- tr_poisson l j ;;
                             Ok (a * t))
                          (range 0 (k + 1)) ;;
               Ok (PyFloat (py_sum ts)))
            (range 1 max_hist) ;;
  Ok (PyNone :: p).

(** ** RepeatModel *)

Fixpoint foldM {A S : Type} (f : S -> A -> res S) (l : list A) (s : S)
  : res S :=
  match l with
  | [] => Ok s
  | a :: t => s' <- f s a ;; foldM f t s'
  end.

(** [p_oj[o][j]] as a float. *)
Definition table_get (p_oj : list (list cell)) (o j : Z) : res R :=
  row <- py_index p_oj o ;;
  x <- py_index row j ;;
  as_float x.

(** One pass of the loop over [o]: the row of [o], appended to the table. *)
Definition repeat_row (hist_size : Z) (p_oj : list (list cell)) (o : Z)
  : res (list (list cell)) :=
  p <- mapM (fun j =>
               ts <- mapM (fun i =>
                             a <- table_get p_oj 1 i ;;
                             b <- table_get p_oj (o - 1) (j - i) ;;
                             Ok (a * b))
                          (range 1 j) ;;
               Ok (PyFloat (py_sum ts)))
            (range 1 hist_size) ;;
  Ok (p_oj ++ [PyNoneList :: p]).

Definition compute_repeat_table (r k : Z) (c err : R) (hist_size : Z)
    (treshold_o : option Z) : res (list (list cell)) :=
  p_j <- compute_probabilities r k c err hist_size ;;
  row1 <- mapM (fun j => py_index p_j j) (range 1 hist_size) ;;
  let p_oj := [[PyNone]; PyNone :: row1] in
  let treshold_o :=
    match treshold_o with
    | None => hist_size
    | Some t => t
    end in
  foldM (repeat_row hist_size) (range 2 treshold_o) p_oj.

Definition b_o (q1 q2 q : R) (o : Z) : R :=
  if (o =? 1)%Z then q1
  else if (o =? 2)%Z then (1 - q1) * q2
  else (1 - q1) * (1 - q2) * q * py_pow (1 - q) (o - 3).

Definition Rltb (x y : R) : bool := if Rlt_dec x y then true else false.

(** The search for the truncation bound: the first [o] of
    [range(1, hist_size)] whose prior is below the tolerance. *)
Definition find_treshold_o (q1 q2 q : R) (hist_size : Z)
    (treshold : option R) : option Z :=
  match treshold with
  | None => None
  | Some t => find (fun o => Rltb (b_o q1 q2 q o) t) (range 1 hist_size)
  end.

Definition default_treshold : option R := Some 1e-8.

(** The closure [p_j] of [compute_probabilities_with_repeats]. *)
Definition marginal (q1 q2 q : R) (p_oj : list (list cell))
    (treshold_o : option Z) (j : Z) : res R :=
  ts <- mapM (fun o => v <- table_get p_oj o j ;; Ok (b_o q1 q2 q o * v))
             (range 1 (match treshold_o with
                       | Some t => Z.min (j + 1) t
                       | None => j + 1
                       end)) ;;
  Ok (py_sum ts).

Definition compute_probabilities_with_repeats (r k : Z) (c err q1 q2 q : R)
    (hist_size : Z) (treshold : option R) : res (Z -> res R) :=
  let treshold_o := find_treshold_o q1 q2 q hist_size treshold in
  p_oj <- compute_repeat_table r k c err hist_size treshold_o ;;
  Ok (marginal q1 q2 q p_oj treshold_o).

(** ** LikelihoodEvaluator *)

(** A float that may be infinite or not a number. *)
Inductive pyfloat : Type :=
| Fin (x : R)
| PInf
| NInf
| NaN.

Definition INF : pyfloat := PInf.

Definition pf_neg (x : pyfloat) : pyfloat :=
  match x with
  | Fin v => Fin (- v)
  | PInf => NInf
  | NInf => PInf
  | NaN => NaN
  end.

Definition pf_add (x y : pyfloat) : pyfloat :=
  match x, y with
  | Fin a, Fin b => Fin (a + b)
  | NaN, _ | _, NaN => NaN
  | PInf, NInf | NInf, PInf => NaN
  | PInf, _ | _, PInf => PInf
  | NInf, _ | _, NInf => NInf
  end.

Definition pf_sub (x y : pyfloat) : pyfloat := pf_add x (pf_neg y).

(** [n * x] for an int [n]. *)
Definition pf_scale (n : Z) (x : pyfloat) : pyfloat :=
  match x with
  | Fin v => Fin (IZR n * v)
  | NaN => NaN
  | PInf => if (0 <? n)%Z then PInf else if (n <? 0)%Z then NInf else NaN
  | NInf => if (0 <? n)%Z then NInf else if (n <? 0)%Z then PInf else NaN
  end.

(** [x < y]; every comparison with [NaN] is false. *)
Definition pf_lt (x y : pyfloat) : bool :=
  match x, y with
  | Fin a, Fin b => Rltb a b
  | NaN, _ | _, NaN => false
  | _, NInf => false
  | PInf, _ => false
  | NInf, _ => true
  | _, PInf => true
  end.

Definition pf_gt (x y : pyfloat) : bool := pf_lt y x.

Definition safe_log (x : R) : res pyfloat :=
  if Rle_dec x 0 then Ok (pf_neg INF)
  else v <- m_log M x ;; Ok (Fin v).

(** The guard [err < 0 or err >= 1 or c <= 0]. *)
Definition out_of_domain (c err : R) : bool :=
  Rltb err 0 || (if Rge_dec err 1 then true else false)
  || (if Rle_dec c 0 then true else false).

Definition compute_loglikelihood (hist : list Z) (r k : Z) (c err : R)
  : res pyfloat :=
  if out_of_domain c err then Ok (pf_neg INF)
  else
    p_j <- compute_probabilities r k c err (len hist) ;;
    foldM (fun acc j =>
             h <- py_index hist j ;;
             if (h =? 0)%Z then Ok acc
             else
               x <- py_index p_j j ;;
               p <- as_float x ;;
               lg <- safe_log p ;;
               Ok (pf_add acc (pf_scale h lg)))
          (range 1 (len hist)) (Fin 0).

Definition compute_loglikelihood_with_repeats (hist : list Z) (r k : Z)
    (c err q1 q2 q : R) : res pyfloat :=
  if out_of_domain c err then Ok (pf_neg INF)
  else
    p_j <- compute_probabilities_with_repeats r k c err q1 q2 q (len hist)
             default_treshold ;;
    foldM (fun acc j =>
             h <- py_index hist j ;;
             if (h =? 0)%Z then Ok acc
             else
               p <- p_j j ;;
               lg <- safe_log p ;;
               Ok (pf_add acc (pf_scale h lg)))
          (range 1 (len hist)) (Fin 0).

(** ** HistogramStore *)

(** [hist[:trim]]. *)
Definition slice_to {A : Type} (l : list A) (trim : option Z) : list A :=
  match trim with
  | None => l
  | Some t =>
      if (t <? 0)%Z then firstn (Z.to_nat (len l + t)) l
      else firstn (Z.to_nat t) l
  end.

Definition sum_Z (l : list Z) : Z := fold_left Z.add l 0%Z.

(** [enumerate(l)]. *)
Definition enumerate {A : Type} (l : list A) : list (Z * A) :=
  combine (range 0 (len l)) l.

Definition get_trim (hist : list Z) (precision : option Z) : res (option Z) :=
  let ss := IZR (sum_Z hist) in
  st <- foldM (fun (st : R * option Z) (ih : Z * Z) =>
                 let '(s, trim) := st in
                 let '(i, h) := ih in
                 let s := s + IZR h in
                 r <- fdiv s ss ;;
                 let r := match precision with
                          | Some p => if (p =? 0)%Z then r else m_round M r p
                          | None => r
                          end in
                 if Req_dec_T r 1
                 then match trim with
                      | None => Ok (s, Some i)
                      | Some _ => Ok (s, trim)
                      end
                 else Ok (s, trim))
              (enumerate hist) (0, None) ;;
  Ok (snd st).

(** The accumulators of the reading loop of [load_dist]; the
    [defaultdict(int)] is a total map with default [0]. *)
Record dist_acc : Type := {
  unique_kmers : Z;
  all_kmers : R;
  observed_ones : Z;
  hist : Z -> Z;
  max_hist : Z
}.

Definition load_line (a : dist_acc) (line : Z * Z) : dist_acc :=
  let '(i, cnt) := line in
  {| hist := fun b => if (b =? i)%Z then cnt else hist a b;
     max_hist := Z.max (max_hist a) i;
     observed_ones := if (i =? 1)%Z then cnt else observed_ones a;
     unique_kmers :=
       if (2 <=? i)%Z then (unique_kmers a + cnt)%Z else unique_kmers a;
     all_kmers :=
       if (2 <=? i)%Z then all_kmers a + IZR (i * cnt) else all_kmers a |}.

(** The reading loop, from the initial values of the accumulators. *)
Definition read_lines (lines : list (Z * Z)) : dist_acc :=
  fold_left load_line lines
    {| unique_kmers := 0; all_kmers := 0; observed_ones := 0;
       hist := fun _ => 0%Z; max_hist := 0 |}.

(** [truthy a]: the test [if autotrim]. *)
Definition truthy (a : option Z) : bool :=
  match a with
  | Some n => negb (n =? 0)%Z
  | None => false
  end.

(** [load_dist] on the lines of the file, each already split into its two
    integers. *)
Definition load_dist (lines : list (Z * Z)) (autotrim trim : option Z)
  : res (R * Z * Z * list Z) :=
  let a := read_lines lines in
  let hist_l := map (hist a) (range 0 (max_hist a)) in
  hist_l <- (if truthy autotrim
             then trim <- get_trim hist_l autotrim ;; Ok (slice_to hist_l trim)
             else match trim with
                  | Some _ => Ok (slice_to hist_l trim)
                  | None => Ok hist_l
                  end) ;;
  Ok (all_kmers a, unique_kmers a, observed_ones a, hist_l).

Definition estimate_p (cc alpha : R) : res R :=
  fdiv (cc * (alpha - 1)) (alpha * cc - alpha - cc).

Section Guess.

(** [inverse.inverse] is not part of the repository: [inverse fn y] stands
    for the call [inverse(fn)(y)]. *)
Variable inverse : (R -> res R) -> R -> res R.

Definition compute_coverage_apx (all_kmers : R) (unique_kmers observed_ones : Z)
    (k r : Z) : res (R * R) :=
  if (unique_kmers =? 0)%Z then Ok (0, 1)
  else
    let total_unique_kmers := (unique_kmers + observed_ones)%Z in
    (* compute coverage from hist >=2 *)
    cov <- fdiv all_kmers (IZR unique_kmers) ;;
    (* fix coverage *)
    let fn := fun cov =>
      e1 <- m_exp M (- cov) ;;
      e2 <- m_exp M (- cov) ;;
      e3 <- m_exp M (- cov) ;;
      fdiv (cov - cov * e1) (1 - e2 - cov * e3) in
    cov <- inverse fn cov ;;
    (* fix unique kmers *)
    e1 <- m_exp M (- cov) ;;
    e2 <- m_exp M (- cov) ;;
    unique_kmers <- fdiv (IZR unique_kmers) (1 - e1 - cov * e2) ;;
    (* compute alpha (error read ratio) *)
    e3 <- m_exp M (- cov) ;;
    let estimated_ones := unique_kmers * cov * e3 in
    e4 <- m_exp M (- cov) ;;
    let estimated_zeros := unique_kmers * e4 in
    let error_ones := Rmax 0 (IZR observed_ones - estimated_ones) in
    alpha <- fdiv error_ones (IZR total_unique_kmers + estimated_zeros) ;;
    (* estimate probability of correct kmer and error rate *)
    p <- estimate_p cov alpha ;;
    let estimated_p := Rmax 0 p in
    y <- fdiv 1 (IZR k) ;;
    w <- m_fpow M estimated_p y ;;
    let e := 1 - w in
    (* return corrected coverage and error estimate *)
    if Rlt_dec 0 estimated_p
    then
      c <- fdiv cov estimated_p ;;
      c <- fdiv (c * IZR r) (IZR (r - k + 1)) ;;
      Ok (c, e)
    else Ok (0, e).

(** The command-line arguments [main] reads. *)
Record arguments : Type := {
  input_histogram : list (Z * Z);
  kmer_size : Z;
  read_length : Z;
  error_rate : option R;
  coverage : option R;
  ll_only : bool;
  arg_trim : option Z;
  arg_autotrim : option Z
}.

(** What [main] ends with: the printed log-likelihood, or the call of the
    estimator [cov_est] on the starting point. *)
Inductive outcome (A : Type) : Type :=
| Loglikelihood (ll : pyfloat)
| Estimate (a : A).

Arguments Loglikelihood {A} ll.
Arguments Estimate {A} a.

Definition main {A : Type} (cov_est : list Z -> Z -> Z -> R -> R -> res A)
    (args : arguments) : res (outcome A) :=
  d <- load_dist (input_histogram args) (arg_autotrim args) (arg_trim args) ;;
  let '(all_kmers, unique_kmers, observed_ones, hist) := d in
  if ll_only args then
    (* a missing -c or -e is None; the guard compares err first and
       short-circuits, so None only raises where it is compared *)
    match error_rate args with
    | None => Raise TypeError
    | Some e =>
        match coverage args with
        | Some c =>
            ll <- compute_loglikelihood hist (read_length args)
                    (kmer_size args) c e ;;
            Ok (Loglikelihood ll)
        | None =>
            if Rltb e 0 || (if Rge_dec e 1 then true else false)
            then Ok (Loglikelihood (pf_neg INF))
            else Raise TypeError
        end
    end
  else
    g <- compute_coverage_apx all_kmers unique_kmers observed_ones
           (kmer_size args) (read_length args) ;;
    let '(cov, e) := g in
    (* the log-likelihood of the initial guess, for the diagnostic *)
    _ <- compute_loglikelihood hist (read_length args) (kmer_size args)
           cov e ;;
    (* We were unable to guess cov and e, try to estimate from some fixed
       valid data instead *)
    let '(cov, e) :=
      if Req_dec_T cov 0 then (if Req_dec_T e 1 then (1, 0.5) else (cov, e))
      else (cov, e) in
    a <- cov_est hist (read_length args) (kmer_size args) cov e ;;
    Ok (Estimate a).

End Guess.

End Model.

Arguments Loglikelihood {A} ll.
Arguments Estimate {A} a.

(** ** Optimizer *)

(** [itertools.product] of the lists [ls]: the last coordinate varies
    fastest. *)
Fixpoint product {A : Type} (ls : list (list A)) : list (list A) :=
  match ls with
  | [] => [[]]
  | l :: rest => flat_map (fun x => map (cons x) (product rest)) l
  end.

(** A loop run one transition at a time: [run next n st] makes at most [n]
    transitions from [st]; the flag tells whether the loop has exited. *)
Fixpoint run {S : Type} (next : S -> option S) (n : nat) (st : S)
  : S * bool :=
  match n with
  | O => (st, false)
  | S n' =>
      match next st with
      | None => (st, true)
      | Some st' => run next n' st'
      end
  end.

Fixpoint runM {S : Type} (next : S -> res (option S)) (n : nat) (st : S)
  : res (S * bool) :=
  match n with
  | O => Ok (st, false)
  | S n' =>
      o <- next st ;;
      match o with
      | None => Ok (st, true)
      | Some st' => runM next n' st'
      end
  end.

Section Optimizer.

(** The objective, and the box [bounds]: [None], or a list of tuples. *)
Variable fn : list R -> pyfloat.
Variable bounds : option (list (list (option R))).

Definition generate_grid_single (step : R) (max_depth : Z) (var : R)
  : list R :=
  map (fun d => var * py_pow step d)
      (filter (fun d => negb (d =? 0)%Z)
              (range (- max_depth) (max_depth + 1))).

Definition in_bounds (low high : option R) (var : R) : bool :=
  match low with
  | None => true
  | Some lo => if Rge_dec var lo then true else false
  end
  && match high with
     | None => true
     | Some hi => if Rle_dec var hi then true else false
     end.

Definition filter_bounds (var_grid : list R) (i : Z) : list R :=
  match bounds with
  | None => var_grid
  | Some bs =>
      if (len bs <=? i)%Z then var_grid
      else match nth_error bs (Z.to_nat i) with
           | Some [low; high] => filter (in_bounds low high) var_grid
           | _ => var_grid
           end
  end.

Definition generate_grid (args : list R) (step : R) (max_depth : Z)
  : list (list R) :=
  product (map (fun iv => filter_bounds
                            (generate_grid_single step max_depth (snd iv))
                            (fst iv))
               (enumerate args)).

(** *** Grid search *)

(** The variables of [minimize_grid]; [g_todo] is [None] at the head of the
    [while] loop and otherwise holds the candidates the [for] loop of the
    current round has not evaluated yet. *)
Record grid_state : Type := {
  g_min_val : pyfloat;
  g_min_args : list R;
  g_step : R;
  g_diff : pyfloat;
  g_n_iter : Z;
  g_todo : option (list (list R))
}.

Definition grid_depth : Z := 3.

Definition grid_init (initial_guess : list R) : grid_state :=
  {| g_min_val := fn initial_guess;
     g_min_args := initial_guess;
     g_step := 1.1;
     g_diff := Fin 1;
     g_n_iter := 0;
     g_todo := None |}.

(** The test of the [while] loop. *)
Definition grid_continue (st : grid_state) : bool :=
  pf_gt (g_diff st) (Fin 0.1) || Rltb 1.001 (g_step st).

(** One transition of the loop: entering a round, evaluating one candidate,
    or closing the round; [None] when the [while] test fails. *)
Definition grid_next (st : grid_state) : option grid_state :=
  match g_todo st with
  | None =>
      if grid_continue st
      then Some {| g_min_val := g_min_val st;
                   g_min_args := g_min_args st;
                   g_step := g_step st;
                   g_diff := Fin 0;
                   g_n_iter := g_n_iter st + 1;
                   g_todo := Some (generate_grid (g_min_args st) (g_step st)
                                                 grid_depth) |}
      else None
  | Some (args :: rest) =>
      let val := fn args in
      if pf_lt val (g_min_val st)
      then Some {| g_min_val := val;
                   g_min_args := args;
                   g_step := g_step st;
                   g_diff := pf_add (g_diff st) (pf_sub (g_min_val st) val);
                   g_n_iter := g_n_iter st;
                   g_todo := Some rest |}
      else Some {| g_min_val := g_min_val st;
                   g_min_args := g_min_args st;
                   g_step := g_step st;
                   g_diff := g_diff st;
                   g_n_iter := g_n_iter st;
                   g_todo := Some rest |}
  | Some [] =>
      Some {| g_min_val := g_min_val st;
              g_min_args := g_min_args st;
              g_step := if pf_lt (g_diff st) (Fin 1)
                        then 1 + (g_step st - 1) * 0.75
                        else g_step st;
              g_diff := g_diff st;
              g_n_iter := g_n_iter st;
              g_todo := None |}
  end.

(** [minimize_grid] when a [KeyboardInterrupt] arrives after [interrupt]
    transitions of the loop (or the loop has exited before): the handler
    falls through to [return min_args]. *)
Definition minimize_grid (initial_guess : list R) (interrupt : nat)
  : list R :=
  g_min_args (fst (run grid_next interrupt (grid_init initial_guess))).

(** *** Hill climbing *)

Variable iterations : Z.

(** [rnd i] is what the [i]-th call of [random.randrange] draws. *)
Variable rnd : nat -> Z.

Definition randrange (i : nat) (n : Z) : res Z :=
  if (n <=? 0)%Z then Raise ValueError else Ok (rnd i mod n)%Z.

Definition generate_grid_hc (draw : nat) (args : list R) (step : R)
    (max_depth : Z) : res (list (list R)) :=
  r <- randrange draw (len args) ;;
  Ok (product (map (fun iv =>
                      if (fst iv =? r)%Z
                      then filter_bounds
                             (generate_grid_single step max_depth (snd iv))
                             (fst iv)
                      else [snd iv])
                   (enumerate args))).

Record hc_state : Type := {
  h_min_val : pyfloat;
  h_min_args : list R;
  h_n_iter : Z;
  h_modified : bool;
  h_draws : nat;
  h_todo : option (list (list R))
}.

Definition hc_step : R := 1.1.

Definition hc_next (st : hc_state) : res (option hc_state) :=
  match h_todo st with
  | None =>
      if (h_n_iter st <? iterations)%Z
      then
        g <- generate_grid_hc (h_draws st) (h_min_args st) hc_step
               grid_depth ;;
        Ok (Some {| h_min_val := h_min_val st;
                    h_min_args := h_min_args st;
                    h_n_iter := h_n_iter st + 1;
                    h_modified := false;
                    h_draws := S (h_draws st);
                    h_todo := Some g |})
      else Ok None
  | Some (args :: rest) =>
      let val := fn args in
      if pf_lt val (h_min_val st)
      then Ok (Some {| h_min_val := val;
                       h_min_args := args;
                       h_n_iter := h_n_iter st;
                       h_modified := true;
                       h_draws := h_draws st;
                       h_todo := Some rest |})
      else Ok (Some {| h_min_val := h_min_val st;
                       h_min_args := h_min_args st;
                       h_n_iter := h_n_iter st;
                       h_modified := h_modified st;
                       h_draws := h_draws st;
                       h_todo := Some rest |})
  | Some [] =>
      Ok (Some {| h_min_val := h_min_val st;
                  h_min_args := h_min_args st;
                  h_n_iter := h_n_iter st;
                  h_modified := h_modified st;
                  h_draws := h_draws st;
                  h_todo := None |})
  end.

Definition hc_init (initial_guess : list R) : hc_state :=
  {| h_min_val := fn initial_guess;
     h_min_args := initial_guess;
     h_n_iter := 0;
     h_modified := false;
     h_draws := 1;
     h_todo := None |}.

(** [minimize_hillclimbing] with a [KeyboardInterrupt] after [interrupt]
    transitions of the loop.  The grid built for the diagnostic before the
    loop takes the first draw. *)
Definition minimize_hillclimbing (initial_guess : list R) (interrupt : nat)
  : res (list R) :=
  _ <- generate_grid_hc 0 initial_guess hc_step grid_depth ;;
  s <- runM hc_next interrupt (hc_init initial_guess) ;;
  Ok (h_min_args (fst s)).

End Optimizer.

(** ** Definitions for the statements and closed forms

    What the specification writes ([tr_poisson_formula],
    [claimed_marginal], [is_ostar]), the closed forms the lemmas below show
    the code to compute ([table_of], [p_j_exact]), and the invariants of
    the search loops. *)

(** The exceptions the handler of [tr_poisson] catches. *)
Definition caught (e : exn) : Prop :=
  e = OverflowError \/ e = FloatingPointError.

(** One of the three library calls of [tr_poisson] raises [ex]. *)
Definition raises_in_tr_poisson (M : libm) (l : R) (j : Z) (ex : exn) : Prop :=
  m_exp M l = Raise ex
  \/ (exists e, m_exp M l = Ok e /\ e <> 1 /\ m_pow M l j = Raise ex)
  \/ (exists e p1, m_exp M l = Ok e /\ e <> 1 /\ m_pow M l j = Ok p1
                   /\ m_float M (factorial j) = Raise ex).

(** The truncated Poisson term as the specification writes it. *)
Definition tr_poisson_formula (l : R) (j : Z) : R :=
  if Rlt_dec 1e-8 l
  then powerRZ l j / (IZR (factorial j) * (exp l - 1))
  else powerRZ l j / (IZR (factorial j) * l).

(** [p_oj[o][j]], read as a number ([0] where the lookup fails). *)
Definition table_val (p_oj : list (list cell)) (o j : Z) : R :=
  match table_get p_oj o j with
  | Ok x => x
  | Raise _ => 0
  end.

(** The rows of the repeat table over a base vector [v], in closed form:
    row [n + 1] is [conv_row v n]. *)
Fixpoint conv_row (v : Z -> R) (n : nat) : Z -> R :=
  match n with
  | O => v
  | S n' =>
      fun j => py_sum (map (fun i => v i * conv_row v n' (j - i)) (range 1 j))
  end.

Definition row_head (o : Z) : cell :=
  if (o =? 1)%Z then PyNone else PyNoneList.

(** The table with rows [1 .. n] over the base vector [v]; it is what
    [compute_repeat_table] returns ([compute_repeat_table_closed]). *)
Definition table_of (hist_size : Z) (v : Z -> R) (n : Z) : list (list cell) :=
  [PyNone]
  :: map (fun o =>
            row_head o
            :: map (fun j => PyFloat (conv_row v (Z.to_nat (o - 1)) j))
                   (range 1 hist_size))
         (range 1 (n + 1)).

(** [ostar] is the smallest [o >= 1] whose prior is below [tol]. *)
Definition is_ostar (q1 q2 q tol : R) (ostar : Z) : Prop :=
  (1 <= ostar)%Z
  /\ b_o q1 q2 q ostar < tol
  /\ forall o, (1 <= o < ostar)%Z -> ~ b_o q1 q2 q o < tol.

(** The marginal as the specification writes it: the sum over
    [o = 1 .. min(j, ostar)] of [b_o(o) * p_oj[o][j]]. *)
Definition claimed_marginal (q1 q2 q : R) (p_oj : list (list cell))
    (ostar j : Z) : res R :=
  ts <- mapM (fun o => v <- table_get p_oj o j ;; Ok (b_o q1 q2 q o * v))
             (range 1 (Z.min j ostar + 1)) ;;
  Ok (py_sum ts).

(** *** The probability vector with the exact library

    The values [compute_probabilities] computes with [exact_libm]
    ([compute_probabilities_exact]). *)

(** [tr_poisson] with exact functions: the guard, then the formula. *)
Definition tp_exact (l : R) (j : Z) : R :=
  if Req_dec_T (exp l) 1 then 0 else tr_poisson_formula l j.

(** [tr_poisson] in binary64, for [l > 0]: [0.0] when [exp] raises, when
    [exp(l)] rounds to [1.0], when [pow] or the conversion of [j!] raises
    and when the denominator overflows to [inf]; the formula otherwise. *)
Definition tr_poisson_double (l : R) (j : Z) : R :=
  if Rle_dec (powerRZ 2 1024) (exp l) then 0
  else if Rle_dec (exp l) (1 + powerRZ 2 (-53)) then 0
  else if Rle_dec (powerRZ 2 1024) (powerRZ l j) then 0
  else if (2 ^ 1024 <=? factorial j)%Z then 0
  else if Rle_dec (powerRZ 2 1024)
                  (IZR (factorial j) * (if Rlt_dec 1e-8 l then exp l - 1 else l))
       then 0
       else tr_poisson_formula l j.

Section Exact.

Variables (r k : Z) (c err : R).

Definition lambda_s (s : Z) : R :=
  c * IZR (r - k + 1) / IZR r
  * py_pow 3 (- s) * py_pow (1 - err) (k - s) * py_pow err s.

Definition n_s_exact (s : Z) : R :=
  comb k s * IZR (3 ^ s) * (1 - exp (- lambda_s s)).

Definition sum_n_s_exact : R :=
  let t := py_sum (map n_s_exact (range 0 (k + 1))) in
  if Req_dec_T t 0 then 1 else t.

Definition a_s_exact (s : Z) : R := n_s_exact s / sum_n_s_exact.

Definition p_j_exact (j : Z) : R :=
  py_sum (map (fun s => a_s_exact s * tp_exact (lambda_s s) j)
              (range 0 (k + 1))).

End Exact.

(** The k-mer coverage of a read coverage [c]. *)
Definition kmer_coverage (r k : Z) (c : R) : R :=
  c * IZR (r - k + 1) / IZR r.

(** [p[j]] of a probability vector, read as a number. *)
Definition entry (p : list cell) (j : Z) : R :=
  match py_index p j with
  | Ok (PyFloat x) => x
  | _ => 0
  end.

(** The arguments of a run on a histogram with singletons only. *)
Definition singletons_only : arguments :=
  {| input_histogram := [(1, 5)]%Z;
     kmer_size := 20;
     read_length := 100;
     error_rate := None;
     coverage := None;
     ll_only := false;
     arg_trim := None;
     arg_autotrim := None |}.

(** *** Statements about the search loops *)

(** [x <= y] on floats. *)
Definition pf_le (x y : pyfloat) : bool :=
  match x, y with
  | Fin a, Fin b => if Rle_dec a b then true else false
  | NaN, _ | _, NaN => false
  | NInf, _ => true
  | _, PInf => true
  | _, _ => false
  end.

(** The states a loop reaches from [s0]. *)
Inductive reachable {S : Type} (next : S -> option S) (s0 : S) : S -> Prop :=
| reach_start : reachable next s0 s0
| reach_next (st st' : S) :
    reachable next s0 st -> next st = Some st' -> reachable next s0 st'.

(** A non-negative float, possibly infinite. *)
Definition nonneg_float (d : pyfloat) : Prop :=
  d = PInf \/ exists x, d = Fin x /\ 0 <= x.

(** The point [x] is the start [x0] or strictly better than it. *)
Definition no_worse (fn : list R -> pyfloat) (x0 x : list R) : Prop :=
  x = x0 \/ pf_lt (fn x) (fn x0) = true.

(** What the grid search keeps true of its variables. *)
Definition grid_inv (fn : list R -> pyfloat) (x0 : list R) (st : grid_state)
  : Prop :=
  1 < g_step st <= 1.1
  /\ nonneg_float (g_diff st)
  /\ g_min_val st = fn (g_min_args st)
  /\ no_worse fn x0 (g_min_args st).

(** What the hill climbing keeps true of its variables. *)
Definition hc_inv (fn : list R -> pyfloat) (x0 : list R) (st : hc_state)
  : Prop :=
  h_min_val st = fn (h_min_args st)
  /\ no_worse fn x0 (h_min_args st)
  /\ length (h_min_args st) = length x0
  /\ forall g a, h_todo st = Some g -> In a g -> length a = length x0.

(** The candidates the grid search evaluates in its first [n] transitions
    from [st]. *)
Fixpoint grid_evaluated (fn : list R -> pyfloat)
    (bounds : option (list (list (option R)))) (n : nat) (st : grid_state)
  : list (list R) :=
  match n with
  | O => []
  | S n' =>
      match grid_next fn bounds st with
      | None => []
      | Some st' =>
          match g_todo st with
          | Some (a :: _) => a :: grid_evaluated fn bounds n' st'
          | _ => grid_evaluated fn bounds n' st'
          end
      end
  end.

(** The same for the hill climbing. *)
Fixpoint hc_evaluated (fn : list R -> pyfloat)
    (bounds : option (list (list (option R)))) (iterations : Z)
    (rnd : nat -> Z) (n : nat) (st : hc_state) : list (list R) :=
  match n with
  | O => []
  | S n' =>
      match hc_next fn bounds iterations rnd st with
      | Ok (Some st') =>
          match h_todo st with
          | Some (a :: _) =>
              a :: hc_evaluated fn bounds iterations rnd n' st'
          | _ => hc_evaluated fn bounds iterations rnd n' st'
          end
      | _ => []
      end
  end.

(** An objective and the box of the two-parameter model, to run the
    searches on. *)
Definition sample_objective (x : list R) : pyfloat :=
  match x with
  | [c; e] => if out_of_domain c e then PInf else Fin ((c - 8) * (c - 8) + e)
  | _ => NaN
  end.

Definition sample_bounds : option (list (list (option R))) :=
  Some [[Some 0; None]; [Some 0; Some 1]].

(** *** Definitions for the further properties *)

(** The count of the last line of [lines] for the level [b], [0] when there
    is none. *)
Definition last_count (lines : list (Z * Z)) (b : Z) : Z :=
  match find (fun l => (fst l =? b)%Z) (rev lines) with
  | Some l => snd l
  | None => 0%Z
  end.

(** The test of [get_trim] at index [i]:
    [round(sum(hist[:i+1]) / sum(hist), precision) == 1], without the
    rounding when [precision] is [None] or [0]. *)
Definition full_at (M : libm) (hist : list Z) (precision : option Z) (i : Z)
  : bool :=
  let r := IZR (sum_Z (firstn (Z.to_nat (i + 1)) hist)) / IZR (sum_Z hist) in
  let r := match precision with
           | Some p => if (p =? 0)%Z then r else m_round M r p
           | None => r
           end in
  if Req_dec_T r 1 then true else false.

(** A float that is [-inf] or a non-positive number. *)
Definition nonpos_float (d : pyfloat) : Prop :=
  d = NInf \/ exists x, d = Fin x /\ x <= 0.

(** A float that is [-inf] or a number: neither [nan] nor [+inf]. *)
Definition below_inf (d : pyfloat) : Prop :=
  d = NInf \/ exists x, d = Fin x.

(** The point [a] lies in the box: every coordinate for which [bounds]
    holds a pair [(low, high)] passes the test of [filter_bounds]. *)
Definition within_bounds (bounds : option (list (list (option R))))
    (a : list R) : Prop :=
  forall bs i low high y,
    bounds = Some bs -> nth_error bs i = Some [low; high] ->
    nth_error a i = Some y -> in_bounds low high y = true.

(** Every coordinate of [a] that has a pair in [bounds] is the one of [x0]
    or passes the test of [filter_bounds]. *)
Definition kept_or_within (bounds : option (list (list (option R))))
    (x0 a : list R) : Prop :=
  forall bs i low high x y,
    bounds = Some bs -> nth_error bs i = Some [low; high] ->
    nth_error x0 i = Some x -> nth_error a i = Some y ->
    y = x \/ in_bounds low high y = true.

(** [a] has the length of [x0] and each of its coordinates is the one of
    [x0] times a positive factor. *)
Definition scaled (x0 a : list R) : Prop :=
  length a = length x0
  /\ forall i x y,
       nth_error x0 i = Some x -> nth_error a i = Some y ->
       exists t, 0 < t /\ y = x * t.

(** What the grid search keeps true of its current point and of the
    candidates still to be evaluated. *)
Definition grid_box (fn : list R -> pyfloat)
    (bounds : option (list (list (option R)))) (x0 : list R)
    (st : grid_state) : Prop :=
  grid_inv fn x0 st
  /\ scaled x0 (g_min_args st)
  /\ (g_min_args st = x0 \/ within_bounds bounds (g_min_args st))
  /\ forall g a, g_todo st = Some g -> In a g ->
                 scaled x0 a /\ within_bounds bounds a.

(** The same for the hill climbing. *)
Definition hc_box (fn : list R -> pyfloat)
    (bounds : option (list (list (option R)))) (x0 : list R)
    (st : hc_state) : Prop :=
  hc_inv fn x0 st
  /\ scaled x0 (h_min_args st)
  /\ kept_or_within bounds x0 (h_min_args st)
  /\ forall g a, h_todo st = Some g -> In a g ->
                 scaled x0 a /\ kept_or_within bounds x0 a.

(** The state of the grid search at the head of its loop after [k] rounds
    in which no candidate improved on the initial guess. *)
Definition grid_fixed_state (fn : list R -> pyfloat) (x0 : list R) (k : nat)
  : grid_state :=
  {| g_min_val := fn x0;
     g_min_args := x0;
     g_step := 1 + 0.1 * 0.75 ^ k;
     g_diff := match k with O => Fin 1 | S _ => Fin 0 end;
     g_n_iter := Z.of_nat k;
     g_todo := None |}.

(** The decrease of the best value from [m] to [m']: [m - m'] when [m']
    is below [m], [0.0] when nothing improved. *)
Definition decrease (m m' : pyfloat) : pyfloat :=
  if pf_lt m' m then pf_sub m m' else Fin 0.

(** The dense sequence [load_dist] builds before any trimming. *)
Definition dense_hist (lines : list (Z * Z)) : list Z :=
  map (hist (read_lines lines)) (range 0 (max_hist (read_lines lines))).

(** The run on the histogram with singletons only, with [--autotrim 2]. *)
Definition singletons_autotrim : arguments :=
  {| input_histogram := [(1, 5)]%Z;
     kmer_size := 20;
     read_length := 100;
     error_rate := None;
     coverage := None;
     ll_only := false;
     arg_trim := None;
     arg_autotrim := Some 2%Z |}.

(** * Lemmas *)

(** ** The error monad and Python lists *)

Lemma bind_Ok_inv {A B : Type} (m : res A) (f : A -> res B) (b : B) :
  bind m f = Ok b -> exists a, m = Ok a /\ f a = Ok b.
Proof.
  destruct m as [a | e]; simpl; intros H; [eauto | discriminate].
Qed.

(** [H : (x <- m ;; k) = Ok b] is split into [m = Ok x] and [k x = Ok b]. *)
Ltac bind_inv H :=
  let x := fresh "x" in
  let Hx := fresh "Hx" in
  apply bind_Ok_inv in H; destruct H as [x [Hx H]].

Example range_example : range 1 4 = [1; 2; 3]%Z.
Proof. reflexivity. Qed.

Example py_index_last : py_index [1; 2; 3]%Z (-1) = Ok 3%Z.
Proof. reflexivity. Qed.

Example py_index_out_of_range : py_index [1; 2; 3]%Z 3 = Raise IndexError.
Proof. reflexivity. Qed.

Example product_example :
  product [[1; 2]; [3; 4]]%Z = [[1; 3]; [1; 4]; [2; 3]; [2; 4]]%Z.
Proof. reflexivity. Qed.

Example factorial_example : factorial 5 = 120%Z /\ factorial (-1) = 0%Z.
Proof. split; reflexivity. Qed.

(** The histogram [{10: 1000}]: ten entries, all zero. *)
Example load_dist_single_level (M : libm) :
  exists all_kmers,
    load_dist M [(10, 1000)]%Z None None
    = Ok (all_kmers, 1000%Z, 0%Z, [0; 0; 0; 0; 0; 0; 0; 0; 0; 0]%Z).
Proof. eexists. reflexivity. Qed.

Lemma mapM_map {A B : Type} (f : A -> res B) (g : A -> B) (l : list A) :
  (forall a, In a l -> f a = Ok (g a)) -> mapM f l = Ok (map g l).
Proof.
  induction l as [| a t IH]; intros H; simpl; [reflexivity |].
  rewrite (H a (or_introl eq_refl)); simpl.
  rewrite IH by (intros x Hx; apply H; right; exact Hx).
  reflexivity.
Qed.

Lemma range_length (a b : Z) : length (range a b) = Z.to_nat (b - a).
Proof. unfold range. rewrite length_map, length_seq. reflexivity. Qed.

Lemma in_range (a b x : Z) : In x (range a b) <-> (a <= x < b)%Z.
Proof.
  unfold range. rewrite in_map_iff. split.
  - intros [i [Hi Hin]]. apply in_seq in Hin. lia.
  - intros H. exists (Z.to_nat (x - a)). split; [lia |].
    apply in_seq. lia.
Qed.

Lemma nth_error_range (a b : Z) (n : nat) :
  (n < Z.to_nat (b - a))%nat ->
  nth_error (range a b) n = Some (a + Z.of_nat n)%Z.
Proof.
  intros H. unfold range.
  rewrite nth_error_map, nth_error_seq.
  destruct (Nat.ltb_spec n (Z.to_nat (b - a))); [reflexivity | lia].
Qed.

Lemma range_empty (a b : Z) : (b <= a)%Z -> range a b = [].
Proof.
  intros H. unfold range. replace (Z.to_nat (b - a)) with 0%nat by lia.
  reflexivity.
Qed.

Lemma range_cons (a b : Z) :
  (a < b)%Z -> range a b = a :: range (a + 1) b.
Proof.
  intros H. unfold range.
  replace (Z.to_nat (b - a)) with (S (Z.to_nat (b - (a + 1)))) by lia.
  simpl. rewrite Z.add_0_r. f_equal.
  rewrite <- seq_shift, map_map.
  apply map_ext. intros i. lia.
Qed.

Lemma range_snoc (a b : Z) :
  (a <= b)%Z -> range a (b + 1) = range a b ++ [b].
Proof.
  intros H. unfold range.
  replace (Z.to_nat (b + 1 - a)) with (Z.to_nat (b - a) + 1)%nat by lia.
  rewrite seq_app, map_app. simpl. do 2 f_equal. lia.
Qed.

Lemma py_index_nth {A : Type} (l : list A) (i : Z) (x : A) :
  (0 <= i)%Z -> nth_error l (Z.to_nat i) = Some x -> py_index l i = Ok x.
Proof.
  intros Hi Hn. unfold py_index.
  destruct (Z.ltb_spec i 0); [lia |].
  destruct (Z.ltb_spec i 0); [lia |].
  rewrite Hn. reflexivity.
Qed.

(** [[f(s) for s in range(a, b)][i - a]]. *)
Lemma py_index_map_range {A : Type} (f : Z -> A) (a b i : Z) :
  (a <= i < b)%Z -> py_index (map f (range a b)) (i - a) = Ok (f i).
Proof.
  intros H. apply py_index_nth; [lia |].
  rewrite nth_error_map, nth_error_range by lia.
  unfold option_map. do 2 f_equal. lia.
Qed.

Lemma py_index_map_range0 {A : Type} (f : Z -> A) (b i : Z) :
  (0 <= i < b)%Z -> py_index (map f (range 0 b)) i = Ok (f i).
Proof.
  intros H. replace i with (i - 0)%Z at 1 by lia.
  apply py_index_map_range. exact H.
Qed.

(** [([x] + [f(j) for j in range(1, b)])[j]]. *)
Lemma py_index_cons_map_range {A : Type} (f : Z -> A) (x : A) (b j : Z) :
  (1 <= j < b)%Z -> py_index (x :: map f (range 1 b)) j = Ok (f j).
Proof.
  intros H. apply py_index_nth; [lia |].
  replace (Z.to_nat j) with (S (Z.to_nat (j - 1))) by lia.
  cbn [nth_error]. rewrite nth_error_map, nth_error_range by lia.
  unfold option_map. do 2 f_equal. lia.
Qed.

Lemma Rltb_true (x y : R) : x < y -> Rltb x y = true.
Proof. intros H. unfold Rltb. destruct (Rlt_dec x y); [reflexivity | lra]. Qed.

Lemma Rltb_false (x y : R) : y <= x -> Rltb x y = false.
Proof. intros H. unfold Rltb. destruct (Rlt_dec x y); [lra | reflexivity]. Qed.

Lemma Rltb_iff (x y : R) : Rltb x y = true <-> x < y.
Proof.
  unfold Rltb. destruct (Rlt_dec x y); split; intros; try discriminate;
    try reflexivity; try assumption; contradiction.
Qed.

(** ** tr_poisson *)

Lemma factorial_pos (j : Z) : (0 <= j)%Z -> (0 < factorial j)%Z.
Proof.
  intros H. unfold factorial. destruct (Z.ltb_spec j 0); [lia |].
  pose proof (lt_O_fact (Z.to_nat j)). lia.
Qed.

Lemma exact_libm_sane : libm_sane exact_libm.
Proof.
  constructor; simpl.
  - rewrite exp_0. reflexivity.
  - intros x _. eauto.
  - intros x e H. discriminate.
  - intros x j e _ _ H. discriminate.
  - intros n e H. discriminate.
  - intros n v Hn H. injection H as <-. apply IZR_lt. exact Hn.
Qed.

Lemma powerRZ_2_1024_gt_2 : 2 < powerRZ 2 1024.
Proof.
  change 1024%Z with (Z.of_nat 1024). rewrite <- pow_powerRZ.
  replace 2 with (2 ^ 1) at 1 by (cbn [pow]; lra).
  apply Rlt_pow; [lra | lia].
Qed.

Lemma powerRZ_2_1024_gt_1 : 1 < powerRZ 2 1024.
Proof. pose proof powerRZ_2_1024_gt_2. lra. Qed.

Lemma powerRZ_2_neg_pos (n : Z) : 0 < powerRZ 2 n.
Proof. apply powerRZ_lt. lra. Qed.

Lemma double_exp_returns (x : R) :
  x <= 0 -> exists v, m_exp double_libm x = Ok v.
Proof.
  intros Hx. cbn [m_exp double_libm].
  assert (He : exp x <= 1).
  { destruct (Req_dec_T x 0) as [-> | Hne]; [rewrite exp_0; lra |].
    pose proof (exp_increasing x 0 ltac:(lra)) as Hi.
    rewrite exp_0 in Hi. lra. }
  pose proof powerRZ_2_1024_gt_1.
  destruct (Rle_dec (powerRZ 2 1024) (exp x)); [lra |].
  destruct (Rle_dec (1 - powerRZ 2 (-54)) (exp x));
    [destruct (Rle_dec (exp x) (1 + powerRZ 2 (-53))) |]; eauto.
Qed.

Lemma double_libm_sane : libm_sane double_libm.
Proof.
  constructor.
  - cbn [m_exp double_libm]. rewrite exp_0.
    pose proof powerRZ_2_1024_gt_1.
    pose proof (powerRZ_2_neg_pos (-54)). pose proof (powerRZ_2_neg_pos (-53)).
    destruct (Rle_dec (powerRZ 2 1024) 1); [lra |].
    destruct (Rle_dec (1 - powerRZ 2 (-54)) 1); [| lra].
    destruct (Rle_dec 1 (1 + powerRZ 2 (-53))); [reflexivity | lra].
  - exact double_exp_returns.
  - intros x e. cbn [m_exp double_libm].
    destruct (Rle_dec (powerRZ 2 1024) (exp x)).
    + intros H. injection H as <-. reflexivity.
    + destruct (Rle_dec (1 - powerRZ 2 (-54)) (exp x));
        [destruct (Rle_dec (exp x) (1 + powerRZ 2 (-53))) |]; discriminate.
  - intros x j e _ _. cbn [m_pow double_libm].
    destruct (Rle_dec (powerRZ 2 1024) (Rabs (powerRZ x j)));
      [| discriminate].
    intros H. injection H as <-. reflexivity.
  - intros n e. cbn [m_float double_libm].
    destruct (2 ^ 1024 <=? Z.abs n)%Z.
    + intros H. injection H as <-. reflexivity.
    + discriminate.
  - intros n v Hn. cbn [m_float double_libm].
    destruct (2 ^ 1024 <=? Z.abs n)%Z; [discriminate |].
    intros H. injection H as <-. apply IZR_lt. exact Hn.
Qed.

Section TrPoisson.

Variable M : libm.

(** The precision fix: a computed [exp(l)] equal to [1.0] gives [0.0]. *)
Lemma tr_poisson_guard (l : R) (j : Z) :
  m_exp M l = Ok 1 -> tr_poisson M l j = Ok 0.
Proof.
  intros H. unfold tr_poisson. rewrite H. simpl.
  destruct (Req_dec_T 1 1); [reflexivity | contradiction].
Qed.

(** Past the guard, with the three values computed, the quotient. *)
Lemma tr_poisson_value (l : R) (j : Z) (e p1 p2 : R) :
  m_exp M l = Ok e -> e <> 1 ->
  m_pow M l j = Ok p1 -> m_float M (factorial j) = Ok p2 ->
  p2 <> 0 -> l <> 0 ->
  tr_poisson M l j =
  Ok (if Rlt_dec 1e-8 l
      then if m_mul_inf M p2 (e - 1) then 0 else p1 / (p2 * (e - 1))
      else if m_mul_inf M p2 l then 0 else p1 / (p2 * l)).
Proof.
  intros He Hne Hp1 Hp2 Hp2nz Hl. unfold tr_poisson.
  rewrite He. simpl. destruct (Req_dec_T e 1); [contradiction |].
  rewrite Hp1, Hp2. simpl.
  destruct (Rlt_dec 1e-8 l); simpl.
  - destruct (m_mul_inf M p2 (e - 1)); [reflexivity |]. unfold fdiv.
    destruct (Req_dec_T (p2 * (e - 1)) 0) as [Hz | Hz]; [| reflexivity].
    exfalso. apply Rmult_integral in Hz. destruct Hz; [contradiction | lra].
  - destruct (m_mul_inf M p2 l); [reflexivity |]. unfold fdiv.
    destruct (Req_dec_T (p2 * l) 0) as [Hz | Hz]; [| reflexivity].
    exfalso. apply Rmult_integral in Hz. destruct Hz; contradiction.
Qed.

(** A denominator that overflows to [inf] gives [0.0]: nothing is raised
    and nothing is caught. *)
Lemma tr_poisson_inf (l : R) (j : Z) (e p1 p2 : R) :
  m_exp M l = Ok e -> e <> 1 ->
  m_pow M l j = Ok p1 -> m_float M (factorial j) = Ok p2 ->
  m_mul_inf M p2 (if Rlt_dec 1e-8 l then e - 1 else l) = true ->
  tr_poisson M l j = Ok 0.
Proof.
  intros He Hne Hp1 Hp2 Hinf. unfold tr_poisson.
  rewrite He. simpl. destruct (Req_dec_T e 1); [contradiction |].
  rewrite Hp1, Hp2. simpl.
  destruct (Rlt_dec 1e-8 l); simpl; rewrite Hinf; reflexivity.
Qed.

(** An overflow or floating-point error of any of the three calls is
    turned into [0.0]. *)
Lemma tr_poisson_caught (l : R) (j : Z) (ex : exn) :
  caught ex -> raises_in_tr_poisson M l j ex -> tr_poisson M l j = Ok 0.
Proof.
  intros Hc H. unfold tr_poisson.
  destruct H as [H | [[e [He [Hne H]]] | [e [p1 [He [Hne [Hp1 H]]]]]]].
  - rewrite H. simpl. destruct Hc; subst; reflexivity.
  - rewrite He. simpl. destruct (Req_dec_T e 1); [contradiction |].
    rewrite H. simpl. destruct Hc; subst; reflexivity.
  - rewrite He. simpl. destruct (Req_dec_T e 1); [contradiction |].
    rewrite Hp1, H. simpl. destruct Hc; subst; reflexivity.
Qed.

Hypothesis sane : libm_sane M.

Lemma guard_passed_nonzero (l e : R) :
  m_exp M l = Ok e -> e <> 1 -> l <> 0.
Proof.
  intros He Hne Hl. subst l. rewrite (exp_zero M sane) in He.
  injection He as <-. contradiction.
Qed.

Lemma tr_poisson_returns (l : R) (j : Z) :
  0 <= l -> (0 <= j)%Z -> exists v, tr_poisson M l j = Ok v.
Proof.
  intros Hl Hj.
  destruct (m_exp M l) as [e | ex] eqn:He.
  2:{ exists 0. apply (tr_poisson_caught l j ex); [| left; exact He].
      left. exact (exp_raises M sane _ _ He). }
  destruct (Req_dec_T e 1) as [-> | Hne].
  { exists 0. apply tr_poisson_guard. exact He. }
  destruct (m_pow M l j) as [p1 | ex] eqn:Hp1.
  2:{ exists 0. apply (tr_poisson_caught l j ex).
      - left. exact (pow_raises M sane _ _ _ Hl Hj Hp1).
      - right. left. exists e. auto. }
  destruct (m_float M (factorial j)) as [p2 | ex] eqn:Hp2.
  2:{ exists 0. apply (tr_poisson_caught l j ex).
      - left. exact (float_raises M sane _ _ Hp2).
      - right. right. exists e, p1. auto. }
  pose proof (float_pos M sane _ _ (factorial_pos j Hj) Hp2) as Hpos.
  eexists. apply (tr_poisson_value l j e p1 p2); auto.
  - lra.
  - exact (guard_passed_nonzero l e He Hne).
Qed.

End TrPoisson.

Lemma exp_not_1 (l : R) : 0 < l -> exp l <> 1.
Proof.
  intros H. pose proof (exp_increasing 0 l H) as Hi.
  rewrite exp_0 in Hi. lra.
Qed.

(** With the exact library the guard only fires at [l = 0], and the value
    is the formula of the specification. *)
Lemma tr_poisson_exact (l : R) (j : Z) :
  0 < l -> (0 <= j)%Z ->
  tr_poisson exact_libm l j = Ok (tr_poisson_formula l j).
Proof.
  intros Hl Hj.
  rewrite (tr_poisson_value exact_libm l j (exp l) (powerRZ l j)
             (IZR (factorial j))); try reflexivity.
  - apply exp_not_1. exact Hl.
  - apply not_0_IZR. pose proof (factorial_pos j Hj). lia.
  - lra.
Qed.

(** [e^l - 1 <= l * (1 + l)] for a small rate, from [e^(-l/2) >= 1 - l/2]. *)
Lemma exp_small_upper (l : R) : 0 < l <= 1e-8 -> exp l - 1 <= l * (1 + l).
Proof.
  intros Hl.
  pose proof (exp_ineq1_le (- (l / 2))) as H.
  assert (Hd : 0 < 1 - l / 2) by lra.
  assert (Hh : exp (l / 2) <= / (1 - l / 2)).
  { replace (exp (l / 2)) with (/ exp (- (l / 2))).
    - apply Rinv_le_contravar; [exact Hd | lra].
    - rewrite exp_Ropp. apply Rinv_inv. }
  assert (He : exp l = exp (l / 2) * exp (l / 2)).
  { rewrite <- exp_plus. f_equal. lra. }
  pose proof (exp_pos (l / 2)) as Hp.
  assert (Hsq : exp l <= / (1 - l / 2) * / (1 - l / 2)).
  { rewrite He. apply Rmult_le_compat; lra. }
  assert (Hu : / (1 - l / 2) * / (1 - l / 2) <= 1 + l + l * l).
  { rewrite <- Rinv_mult.
    assert (HD : 0 < (1 - l / 2) * (1 - l / 2))
      by (apply Rmult_lt_0_compat; exact Hd).
    apply (Rmult_le_reg_r ((1 - l / 2) * (1 - l / 2))); [exact HD |].
    rewrite Rinv_l by lra.
    replace ((1 + l + l * l) * ((1 - l / 2) * (1 - l / 2)))
      with (1 + l * l * (1 / 4 - 3 * l / 4 + l * l / 4)) by field.
    assert (0 <= l * l * (1 / 4 - 3 * l / 4 + l * l / 4)).
    { apply Rmult_le_pos; [apply Rmult_le_pos; lra |].
      assert (0 <= l * l) by (apply Rmult_le_pos; lra). lra. }
    lra. }
  lra.
Qed.

Lemma exp_tiny_rounds_to_1 : exp 1e-20 <= 1 + powerRZ 2 (-53).
Proof.
  pose proof (exp_small_upper 1e-20 ltac:(lra)) as H.
  assert (Hp : 2e-16 / 2 <= powerRZ 2 (-53)).
  { unfold powerRZ. replace (Pos.to_nat 53) with 53%nat by reflexivity.
    assert (E : 2 ^ 53 = 9007199254740992) by (simpl; lra).
    rewrite E. lra. }
  assert (1e-20 * (1 + 1e-20) <= 2e-16 / 2) by lra.
  lra.
Qed.

Lemma powerRZ_2_m53_le_1 : powerRZ 2 (-53) <= 1.
Proof.
  unfold powerRZ. replace (Pos.to_nat 53) with 53%nat by reflexivity.
  assert (E : 2 ^ 53 = 9007199254740992) by (simpl; lra).
  rewrite E. lra.
Qed.

Lemma double_exp_tiny : m_exp double_libm 1e-20 = Ok 1.
Proof.
  cbn [m_exp double_libm].
  assert (Hi : 1 < exp 1e-20).
  { pose proof (exp_increasing 0 1e-20 ltac:(lra)) as Hi.
    rewrite exp_0 in Hi. exact Hi. }
  pose proof powerRZ_2_1024_gt_2 as H1.
  pose proof (powerRZ_2_neg_pos (-54)) as H2.
  pose proof exp_tiny_rounds_to_1 as H3.
  pose proof powerRZ_2_m53_le_1 as H4.
  set (P := powerRZ 2 1024) in *. set (a := powerRZ 2 (-54)) in *.
  set (b := powerRZ 2 (-53)) in *. set (e := exp 1e-20) in *.
  destruct (Rle_dec P e); [lra |].
  destruct (Rle_dec (1 - a) e); [| lra].
  destruct (Rle_dec e (1 + b)); [reflexivity | lra].
Qed.

(** ** [tr_poisson] in binary64 *)

Lemma tr_poisson_double_closed (l : R) (j : Z) :
  0 < l -> (0 <= j)%Z ->
  tr_poisson double_libm l j = Ok (tr_poisson_double l j).
Proof.
  intros Hl Hj. unfold tr_poisson, tr_poisson_double.
  cbn [m_exp m_pow m_float m_mul_inf double_libm].
  destruct (Rle_dec (powerRZ 2 1024) (exp l)); [reflexivity |].
  pose proof (exp_increasing 0 l Hl) as Hi. rewrite exp_0 in Hi.
  pose proof (powerRZ_2_neg_pos (-54)) as H54.
  destruct (Rle_dec (1 - powerRZ 2 (-54)) (exp l)); [| lra].
  destruct (Rle_dec (exp l) (1 + powerRZ 2 (-53))).
  { cbn [bind catch]. destruct (Req_dec_T 1 1); [reflexivity | contradiction]. }
  cbn [bind]. destruct (Req_dec_T (exp l) 1) as [E | _]; [lra |].
  rewrite (Rabs_pos_eq (powerRZ l j)) by (apply powerRZ_le; exact Hl).
  destruct (Rle_dec (powerRZ 2 1024) (powerRZ l j)); [reflexivity |].
  cbn [bind]. pose proof (factorial_pos j Hj) as Hf.
  rewrite (Z.abs_eq (factorial j)) by lia.
  destruct (2 ^ 1024 <=? factorial j)%Z; [reflexivity |].
  cbn [bind]. apply IZR_lt in Hf.
  assert (Hp3 : 0 < (if Rlt_dec 1e-8 l then exp l - 1 else l)).
  { destruct (Rlt_dec 1e-8 l); lra. }
  assert (Hpos : 0 < IZR (factorial j)
                     * (if Rlt_dec 1e-8 l then exp l - 1 else l))
    by (apply Rmult_lt_0_compat; assumption).
  unfold tr_poisson_formula.
  destruct (Rlt_dec 1e-8 l); cbn [bind].
  - rewrite Rabs_pos_eq by lra.
    destruct (Rle_dec (powerRZ 2 1024) (IZR (factorial j) * (exp l - 1)));
      [reflexivity |].
    unfold fdiv.
    destruct (Req_dec_T (IZR (factorial j) * (exp l - 1)) 0); [lra |].
    reflexivity.
  - rewrite Rabs_pos_eq by lra.
    destruct (Rle_dec (powerRZ 2 1024) (IZR (factorial j) * l));
      [reflexivity |].
    unfold fdiv.
    destruct (Req_dec_T (IZR (factorial j) * l) 0); [lra |].
    reflexivity.
Qed.

Lemma Zfact_fact (n : nat) : Zfact n = Z.of_nat (fact n).
Proof.
  induction n as [| n IH]; [reflexivity |].
  change (Zfact (S n)) with (Z.of_nat (S n) * Zfact n)%Z.
  change (fact (S n)) with (S n * fact n)%nat.
  rewrite IH, Nat2Z.inj_mul. reflexivity.
Qed.

Lemma factorial_Zfact (n : nat) : factorial (Z.of_nat n) = Zfact n.
Proof.
  unfold factorial. destruct (Z.ltb_spec (Z.of_nat n) 0); [lia |].
  rewrite Nat2Z.id. symmetry. apply Zfact_fact.
Qed.

Lemma powerRZ_IZR_nat (a : Z) (n : nat) :
  powerRZ (IZR a) (Z.of_nat n) = IZR (a ^ Z.of_nat n).
Proof. rewrite <- pow_powerRZ. apply pow_IZR. Qed.

Lemma exp_INR_mult (n : nat) (x : R) : exp (INR n * x) = exp x ^ n.
Proof.
  induction n as [| n IH].
  - cbn [INR pow]. rewrite Rmult_0_l. apply exp_0.
  - rewrite S_INR, Rmult_plus_distr_r, Rmult_1_l, exp_plus, IH.
    cbn [pow]. ring.
Qed.

(** [e^100 >= (33/32)^3200], from [e^x >= 1 + x] at [x = 1/32]. *)
Lemma exp_100_lower : IZR (33 ^ 3200) <= IZR (32 ^ 3200) * exp 100.
Proof.
  assert (E : exp 100 = exp (/ 32) ^ 3200).
  { rewrite <- exp_INR_mult. f_equal.
    rewrite INR_IZR_INZ. change (Z.of_nat 3200) with 3200%Z. lra. }
  rewrite E.
  change (33 ^ 3200)%Z with (33 ^ Z.of_nat 3200)%Z.
  change (32 ^ 3200)%Z with (32 ^ Z.of_nat 3200)%Z.
  rewrite <- !pow_IZR, <- Rpow_mult_distr.
  apply pow_incr. pose proof (exp_ineq1_le (/ 32)). lra.
Qed.

Lemma overflow_arith (F A B P E : R) :
  0 <= F -> 0 < B -> A <= B * E -> P * B <= F * (A - B) ->
  P <= F * (E - 1).
Proof.
  intros HF HB HA HP. apply Rmult_le_reg_r with B; [exact HB |].
  apply Rle_trans with (F * (A - B)); [exact HP |].
  replace (F * (E - 1) * B) with (F * (B * E - B)) by ring.
  apply Rmult_le_compat_l; [exact HF | lra].
Qed.

(** The denominator [152! * (e^100 - 1)] is beyond the range of binary64
    although both factors are within it. *)
Lemma product_overflows_100_152 :
  powerRZ 2 1024 <= IZR (factorial 152) * (exp 100 - 1).
Proof.
  change 152%Z with (Z.of_nat 152). rewrite factorial_Zfact.
  change 1024%Z with (Z.of_nat 1024).
  change 2 with (IZR 2). rewrite powerRZ_IZR_nat.
  apply (overflow_arith _ (IZR (33 ^ 3200)) (IZR (32 ^ 3200))).
  - apply IZR_le. rewrite Zfact_fact. lia.
  - apply IZR_lt. apply Z.pow_pos_nonneg; lia.
  - exact exp_100_lower.
  - rewrite <- minus_IZR, <- !mult_IZR. apply IZR_le.
    apply Z.leb_le. vm_compute. reflexivity.
Qed.

Lemma tr_poisson_double_100_152 : tr_poisson_double 100 152 = 0.
Proof.
  unfold tr_poisson_double.
  destruct (Rle_dec (powerRZ 2 1024) (exp 100)); [reflexivity |].
  destruct (Rle_dec (exp 100) (1 + powerRZ 2 (-53))); [reflexivity |].
  destruct (Rle_dec (powerRZ 2 1024) (powerRZ 100 152)); [reflexivity |].
  destruct (2 ^ 1024 <=? factorial 152)%Z; [reflexivity |].
  destruct (Rlt_dec 1e-8 100); [| lra].
  destruct (Rle_dec (powerRZ 2 1024) (IZR (factorial 152) * (exp 100 - 1)))
    as [_ | H]; [reflexivity |].
  exfalso. apply H. exact product_overflows_100_152.
Qed.

(** * The claims *)

(** C3 as stated fails: for [lambda = 1e-20] and [j = 1] the computed
    [exp(lambda)] is [1.0] in binary64, the precision fix returns [0.0],
    and the formula [lambda^j / (j! * lambda)] is [1]. *)
Lemma C3_tr_poisson_formula_fails :
  0 < 1e-20 /\ (1 <= 1)%Z /\
  tr_poisson double_libm 1e-20 1 <> Ok (tr_poisson_formula 1e-20 1).
Proof.
  split; [lra |]. split; [lia |].
  rewrite (tr_poisson_guard double_libm 1e-20 1 double_exp_tiny).
  unfold tr_poisson_formula.
  destruct (Rlt_dec 1e-8 1e-20); [lra |].
  assert (Hv : powerRZ 1e-20 1 / (IZR (factorial 1) * 1e-20) = 1).
  { unfold factorial. simpl. field. }
  rewrite Hv. intros H. injection H as H. lra.
Qed.

(** C3, amended: for [lambda > 0] and [j >= 1], [tr_poisson] returns [0.0]
    when the computed [exp(lambda)] equals [1.0]; otherwise, with [p3] the
    computed [exp(lambda) - 1] when [lambda > 1e-8] and [lambda] when
    [lambda <= 1e-8], it returns [0.0] when the float product [float(j!) *
    p3] is [inf] and [pow(lambda, j) / (float(j!) * p3)] when it is not; an
    [OverflowError] or [FloatingPointError] of one of the three library
    calls gives exactly [0.0]; with the exact mathematical functions the
    value is the formula of the specification, and in binary64 it is
    [tr_poisson_double]: the formula unless [exp(lambda)] rounds to [1.0]
    or something overflows, where it is [0.0]. *)
Theorem C3_tr_poisson_spec (M : libm) (l : R) (j : Z) :
  libm_sane M -> 0 < l -> (1 <= j)%Z ->
  (m_exp M l = Ok 1 -> tr_poisson M l j = Ok 0)
  /\ (forall e p1 p2,
         m_exp M l = Ok e -> e <> 1 ->
         m_pow M l j = Ok p1 -> m_float M (factorial j) = Ok p2 ->
         tr_poisson M l j =
         Ok (if Rlt_dec 1e-8 l
             then if m_mul_inf M p2 (e - 1) then 0 else p1 / (p2 * (e - 1))
             else if m_mul_inf M p2 l then 0 else p1 / (p2 * l)))
  /\ (forall ex, caught ex -> raises_in_tr_poisson M l j ex ->
                 tr_poisson M l j = Ok 0)
  /\ tr_poisson exact_libm l j = Ok (tr_poisson_formula l j)
  /\ tr_poisson double_libm l j = Ok (tr_poisson_double l j).
Proof.
  intros HM Hl Hj. split; [| split; [| split; [| split]]].
  - apply tr_poisson_guard.
  - intros e p1 p2 He Hne Hp1 Hp2.
    apply tr_poisson_value; auto.
    + assert (Hf : (0 < factorial j)%Z) by (apply factorial_pos; lia).
      pose proof (float_pos M HM _ _ Hf Hp2). lra.
    + lra.
  - intros ex. apply tr_poisson_caught.
  - apply tr_poisson_exact; [exact Hl | lia].
  - apply tr_poisson_double_closed; [exact Hl | lia].
Qed.

Lemma C3_tr_poisson_spec_witness :
  tr_poisson exact_libm 1 1 = Ok (tr_poisson_formula 1 1)
  /\ tr_poisson double_libm 100 152 = Ok 0.
Proof.
  split.
  - apply (C3_tr_poisson_spec exact_libm 1 1 exact_libm_sane); [lra | lia].
  - destruct (C3_tr_poisson_spec exact_libm 100 152 exact_libm_sane)
      as [_ [_ [_ [_ H]]]]; [lra | lia |].
    rewrite H, tr_poisson_double_100_152. reflexivity.
Defined.

(** C10: for [lambda >= 0] and an integer [j >= 0], [tr_poisson] returns a
    value and never raises; a computed [exp(lambda)] equal to [1]
    (in particular [lambda = 0]) gives [0.0] before any division; past that
    guard neither denominator [j! * (exp(lambda) - 1)] nor [j! * lambda] is
    zero; and an overflow or floating-point error of a library call gives
    [0.0]. *)
Theorem C10_tr_poisson_total (M : libm) (l : R) (j : Z) :
  libm_sane M -> 0 <= l -> (0 <= j)%Z ->
  (exists v, tr_poisson M l j = Ok v)
  /\ (m_exp M l = Ok 1 -> tr_poisson M l j = Ok 0)
  /\ tr_poisson M 0 j = Ok 0
  /\ (forall e p2,
         m_exp M l = Ok e -> e <> 1 -> m_float M (factorial j) = Ok p2 ->
         p2 * (e - 1) <> 0 /\ p2 * l <> 0)
  /\ (forall ex, caught ex -> raises_in_tr_poisson M l j ex ->
                 tr_poisson M l j = Ok 0).
Proof.
  intros HM Hl Hj. split; [| split; [| split; [| split]]].
  - apply tr_poisson_returns; assumption.
  - apply tr_poisson_guard.
  - apply tr_poisson_guard. exact (exp_zero M HM).
  - intros e p2 He Hne Hp2.
    pose proof (float_pos M HM _ _ (factorial_pos j Hj) Hp2) as Hp.
    pose proof (guard_passed_nonzero M HM l e He Hne) as Hnz.
    split; intros Hz; apply Rmult_integral in Hz; destruct Hz; lra.
  - intros ex. apply tr_poisson_caught.
Qed.

Lemma C10_tr_poisson_total_witness :
  (exists v, tr_poisson exact_libm 0 0 = Ok v)
  /\ tr_poisson exact_libm 0 0 = Ok 0.
Proof.
  pose proof (C10_tr_poisson_total exact_libm 0 0 exact_libm_sane
                (Rle_refl 0) (Z.le_refl 0)) as [H1 [_ [H3 _]]].
  split; assumption.
Defined.

(** ** The domain guard of the likelihoods *)

Lemma out_of_domain_true (c err : R) :
  err < 0 \/ err >= 1 \/ c <= 0 -> out_of_domain c err = true.
Proof.
  intros H. unfold out_of_domain, Rltb.
  destruct (Rlt_dec err 0); [reflexivity |].
  destruct (Rge_dec err 1); [reflexivity |].
  destruct (Rle_dec c 0); [reflexivity |].
  exfalso. destruct H as [H | [H | H]]; contradiction.
Qed.

Lemma loglikelihood_guard (M : libm) (hist : list Z) (r k : Z) (c err : R) :
  err < 0 \/ err >= 1 \/ c <= 0 ->
  compute_loglikelihood M hist r k c err = Ok NInf.
Proof.
  intros H. unfold compute_loglikelihood.
  rewrite (out_of_domain_true c err H). reflexivity.
Qed.

Lemma loglikelihood_with_repeats_guard (M : libm) (hist : list Z) (r k : Z)
    (c err q1 q2 q : R) :
  err < 0 \/ err >= 1 \/ c <= 0 ->
  compute_loglikelihood_with_repeats M hist r k c err q1 q2 q = Ok NInf.
Proof.
  intros H. unfold compute_loglikelihood_with_repeats.
  rewrite (out_of_domain_true c err H). reflexivity.
Qed.

(** C6: for every histogram and every [r], [k], both log-likelihoods
    return exactly minus infinity, and raise nothing, whenever [err < 0],
    [err >= 1] or [c <= 0]. *)
Theorem C6_loglikelihood_domain_guard (M : libm) (hist : list Z) (r k : Z)
    (c err q1 q2 q : R) :
  err < 0 \/ err >= 1 \/ c <= 0 ->
  compute_loglikelihood M hist r k c err = Ok NInf
  /\ compute_loglikelihood_with_repeats M hist r k c err q1 q2 q = Ok NInf.
Proof.
  intros H. split.
  - apply loglikelihood_guard. exact H.
  - apply loglikelihood_with_repeats_guard. exact H.
Qed.

Lemma C6_loglikelihood_domain_guard_witness :
  compute_loglikelihood exact_libm [0; 3; 4]%Z 100 20 10 1 = Ok NInf
  /\ compute_loglikelihood_with_repeats exact_libm [0; 3; 4]%Z 100 20 10 1
       0.5 0.5 0.5 = Ok NInf.
Proof.
  apply (C6_loglikelihood_domain_guard exact_libm [0; 3; 4]%Z 100 20 10 1).
  right. left. lra.
Defined.

(** ** The degenerate guess *)

Lemma coverage_apx_degenerate (M : libm)
    (inverse : (R -> res R) -> R -> res R) (all_kmers : R)
    (observed_ones k r : Z) :
  compute_coverage_apx M inverse all_kmers 0 observed_ones k r = Ok (0, 1).
Proof. reflexivity. Qed.

Lemma load_dist_untrimmed (M : libm) (lines : list (Z * Z))
    (autotrim trim : option Z) :
  truthy autotrim = false ->
  load_dist M lines autotrim trim
  = Ok (all_kmers (read_lines lines), unique_kmers (read_lines lines),
        observed_ones (read_lines lines),
        match trim with
        | Some _ =>
            slice_to (map (hist (read_lines lines))
                          (range 0 (max_hist (read_lines lines)))) trim
        | None =>
            map (hist (read_lines lines))
                (range 0 (max_hist (read_lines lines)))
        end).
Proof.
  intros H. unfold load_dist. rewrite H. destruct trim; reflexivity.
Qed.

Lemma load_dist_unique (M : libm) (lines : list (Z * Z))
    (autotrim trim : option Z) (all_kmers : R) (unique observed_ones : Z)
    (hist_l : list Z) :
  load_dist M lines autotrim trim
  = Ok (all_kmers, unique, observed_ones, hist_l) ->
  unique = unique_kmers (read_lines lines).
Proof.
  unfold load_dist. intros H.
  apply bind_Ok_inv in H. destruct H as [h [_ H]].
  injection H as _ <- _ _. reflexivity.
Qed.

Lemma main_fallback (M : libm) (inverse : (R -> res R) -> R -> res R)
    (A : Type) (cov_est : list Z -> Z -> Z -> R -> R -> res A)
    (args : arguments) (all_kmers : R) (observed_ones : Z) (hist : list Z) :
  ll_only args = false ->
  load_dist M (input_histogram args) (arg_autotrim args) (arg_trim args)
  = Ok (all_kmers, 0%Z, observed_ones, hist) ->
  main M inverse cov_est args
  = (a <- cov_est hist (read_length args) (kmer_size args) 1 0.5 ;;
     Ok (Estimate a)).
Proof.
  intros Hll Hload. unfold main. rewrite Hload. cbn [bind].
  rewrite Hll. rewrite coverage_apx_degenerate. cbn [bind].
  rewrite loglikelihood_guard by (right; right; lra). cbn [bind].
  destruct (Req_dec_T 0 0) as [_ | H]; [| contradiction H; reflexivity].
  destruct (Req_dec_T 1 1) as [_ | H]; [| contradiction H; reflexivity].
  reflexivity.
Qed.

(** ** load_dist *)

Lemma py_index_at_len {A : Type} (l : list A) :
  py_index l (len l) = Raise IndexError.
Proof.
  unfold py_index, len.
  destruct (Z.ltb_spec (Z.of_nat (length l)) 0); [lia |].
  destruct (Z.ltb_spec (Z.of_nat (length l)) 0); [lia |].
  rewrite Nat2Z.id.
  destruct (nth_error l (length l)) eqn:E; [| reflexivity].
  assert (H1 : (length l < length l)%nat)
    by (apply nth_error_Some; rewrite E; discriminate).
  lia.
Qed.

Lemma read_lines_max_hist_nonneg (lines : list (Z * Z)) :
  (0 <= max_hist (read_lines lines))%Z.
Proof.
  unfold read_lines.
  assert (H : forall a, (0 <= max_hist a)%Z ->
                        (0 <= max_hist (fold_left load_line lines a))%Z).
  { induction lines as [| [i cnt] t IH]; intros a Ha; simpl; [exact Ha |].
    apply IH. simpl. lia. }
  apply H. simpl. lia.
Qed.

(** C5 against the code: the dense untrimmed sequence [load_dist] returns
    has [max_j] entries, for the levels [0 .. max_j - 1]; it has no entry
    for the largest level [max_j].  For the histogram [{1: 5, 2: 7}] it is
    [[0, 5]]: the count [7] of level [2] only survives in the aggregates. *)
Theorem C5_load_dist_drops_last_level (M : libm) (lines : list (Z * Z)) :
  (exists all_kmers unique observed_ones hist_l,
      load_dist M lines None None
      = Ok (all_kmers, unique, observed_ones, hist_l)
      /\ len hist_l = max_hist (read_lines lines)
      /\ py_index hist_l (max_hist (read_lines lines)) = Raise IndexError)
  /\ exists all_kmers,
       load_dist M [(1, 5); (2, 7)]%Z None None
       = Ok (all_kmers, 7%Z, 5%Z, [0; 5]%Z)
       /\ all_kmers = 14.
Proof.
  split.
  - do 4 eexists. split; [reflexivity |].
    assert (Hlen : len (map (hist (read_lines lines))
                            (range 0 (max_hist (read_lines lines))))
                   = max_hist (read_lines lines)).
    { unfold len. rewrite length_map, range_length.
      pose proof (read_lines_max_hist_nonneg lines). lia. }
    split; [exact Hlen |].
    rewrite <- Hlen at 2. apply py_index_at_len.
  - eexists. split; [reflexivity |]. simpl. lra.
Qed.

(** ** The repeat table *)

Lemma mapM_length {A B : Type} (f : A -> res B) (l : list A) (bs : list B) :
  mapM f l = Ok bs -> length bs = length l.
Proof.
  revert bs. induction l as [| a t IH]; simpl; intros bs H.
  - injection H as <-. reflexivity.
  - apply bind_Ok_inv in H. destruct H as [b [_ H]].
    apply bind_Ok_inv in H. destruct H as [bs' [Ht H]].
    injection H as <-. simpl. f_equal. apply IH. exact Ht.
Qed.

(** A comprehension whose elements are floats. *)
Lemma mapM_floats {A X : Type} (g : A -> res X) (h : X -> R) (l : list A)
    (bs : list cell) :
  mapM (fun a => x <- g a ;; Ok (PyFloat (h x))) l = Ok bs ->
  bs = map (fun a => PyFloat (match g a with Ok x => h x | Raise _ => 0 end))
           l.
Proof.
  revert bs. induction l as [| a t IH]; simpl; intros bs H.
  - injection H as <-. reflexivity.
  - apply bind_Ok_inv in H. destruct H as [b [Hb H]].
    apply bind_Ok_inv in H. destruct H as [bs' [Ht H]].
    injection H as <-.
    apply bind_Ok_inv in Hb. destruct Hb as [x [Hx Hb]].
    injection Hb as <-. rewrite Hx. f_equal. apply IH. exact Ht.
Qed.

Lemma compute_probabilities_shape (M : libm) (r k : Z) (c err : R)
    (hist_size : Z) (p_j : list cell) :
  compute_probabilities M r k c err hist_size = Ok p_j ->
  exists v : Z -> R,
    p_j = PyNone :: map (fun j => PyFloat (v j)) (range 1 hist_size).
Proof.
  unfold compute_probabilities. intros H.
  do 4 bind_inv H.
  apply bind_Ok_inv in H. destruct H as [p [Hp H]].
  injection H as <-.
  apply mapM_floats in Hp. rewrite Hp.
  eexists. reflexivity.
Qed.

Section Table.

Variable hist_size : Z.
Variable v : Z -> R.

Lemma table_of_row (n o : Z) :
  (1 <= o <= n)%Z ->
  py_index (table_of hist_size v n) o
  = Ok (row_head o
        :: map (fun j => PyFloat (conv_row v (Z.to_nat (o - 1)) j))
               (range 1 hist_size)).
Proof.
  intros H. unfold table_of.
  apply (py_index_cons_map_range
           (fun o => row_head o
                     :: map (fun j => PyFloat (conv_row v (Z.to_nat (o - 1)) j))
                            (range 1 hist_size))).
  lia.
Qed.

Lemma table_of_get (n o j : Z) :
  (1 <= o <= n)%Z -> (1 <= j < hist_size)%Z ->
  table_get (table_of hist_size v n) o j
  = Ok (conv_row v (Z.to_nat (o - 1)) j).
Proof.
  intros Ho Hj. unfold table_get.
  rewrite table_of_row by exact Ho. cbn [bind].
  rewrite (py_index_cons_map_range
             (fun j => PyFloat (conv_row v (Z.to_nat (o - 1)) j)))
    by exact Hj.
  reflexivity.
Qed.

Lemma table_of_val (n o j : Z) :
  (1 <= o <= n)%Z -> (1 <= j < hist_size)%Z ->
  table_val (table_of hist_size v n) o j = conv_row v (Z.to_nat (o - 1)) j.
Proof.
  intros Ho Hj. unfold table_val. rewrite table_of_get by assumption.
  reflexivity.
Qed.

Lemma table_of_len (n : Z) :
  (0 <= n)%Z -> len (table_of hist_size v n) = (n + 1)%Z.
Proof.
  intros H. unfold len, table_of. cbn [length].
  rewrite length_map, range_length. lia.
Qed.

Lemma table_of_snoc (n : Z) :
  (1 <= n)%Z ->
  table_of hist_size v (n + 1)
  = table_of hist_size v n
    ++ [PyNoneList
        :: map (fun j => PyFloat (conv_row v (Z.to_nat n) j))
               (range 1 hist_size)].
Proof.
  intros H. unfold table_of.
  rewrite (range_snoc 1 (n + 1)) by lia.
  rewrite map_app. cbn [map app]. f_equal. f_equal.
  unfold row_head. destruct (Z.eqb_spec (n + 1) 1); [lia |].
  replace (n + 1 - 1)%Z with n by lia. reflexivity.
Qed.

(** One pass of the loop over [o] appends the convolution row. *)
Lemma repeat_row_table_of (n : Z) :
  (1 <= n)%Z ->
  repeat_row hist_size (table_of hist_size v n) (n + 1)
  = Ok (table_of hist_size v (n + 1)).
Proof.
  intros H. unfold repeat_row.
  rewrite (mapM_map _ (fun j => PyFloat (conv_row v (Z.to_nat n) j))).
  - cbn [bind]. rewrite table_of_snoc by exact H. reflexivity.
  - intros j Hj. apply in_range in Hj.
    rewrite (mapM_map _
               (fun i => v i * conv_row v (Z.to_nat (n - 1)) (j - i))).
    + cbn [bind]. replace (Z.to_nat n) with (S (Z.to_nat (n - 1))) by lia.
      reflexivity.
    + intros i Hi. apply in_range in Hi.
      rewrite table_of_get by lia. cbn [bind].
      replace (n + 1 - 1)%Z with n by lia.
      rewrite table_of_get by lia. reflexivity.
Qed.

Lemma foldM_repeat_rows (d : nat) (n t : Z) :
  (1 <= n)%Z -> d = Z.to_nat (t - (n + 1)) ->
  foldM (repeat_row hist_size) (range (n + 1) t) (table_of hist_size v n)
  = Ok (table_of hist_size v (Z.max n (t - 1))).
Proof.
  revert n. induction d as [| d IH]; intros n Hn Hd.
  - rewrite range_empty by lia. simpl.
    replace (Z.max n (t - 1)) with n by lia. reflexivity.
  - rewrite range_cons by lia. cbn [foldM].
    rewrite repeat_row_table_of by exact Hn. cbn [bind].
    rewrite IH by lia. f_equal. f_equal. lia.
Qed.

End Table.

(** The table [compute_repeat_table] returns, in closed form. *)
Lemma compute_repeat_table_closed (M : libm) (r k : Z) (c err : R)
    (hist_size : Z) (treshold_o : option Z) (v : Z -> R) :
  compute_probabilities M r k c err hist_size
  = Ok (PyNone :: map (fun j => PyFloat (v j)) (range 1 hist_size)) ->
  compute_repeat_table M r k c err hist_size treshold_o
  = Ok (table_of hist_size v
          (Z.max 1 (match treshold_o with
                    | None => hist_size
                    | Some t => t
                    end - 1))).
Proof.
  intros Hp. unfold compute_repeat_table. rewrite Hp. cbn [bind].
  rewrite (mapM_map _ (fun j => PyFloat (v j))).
  2:{ intros j Hj. apply in_range in Hj.
      apply (py_index_cons_map_range (fun j => PyFloat (v j))). exact Hj. }
  cbn [bind].
  change [[PyNone]; PyNone :: map (fun j => PyFloat (v j)) (range 1 hist_size)]
    with (table_of hist_size v 1).
  change 2%Z with (1 + 1)%Z.
  apply (foldM_repeat_rows hist_size v _ 1 _ (Z.le_refl 1) eq_refl).
Qed.

Lemma compute_repeat_table_inv (M : libm) (r k : Z) (c err : R)
    (hist_size : Z) (treshold_o : option Z) (p_oj : list (list cell)) :
  compute_repeat_table M r k c err hist_size treshold_o = Ok p_oj ->
  exists p_j, compute_probabilities M r k c err hist_size = Ok p_j.
Proof.
  unfold compute_repeat_table. intros H.
  apply bind_Ok_inv in H. destruct H as [p_j [H _]]. eauto.
Qed.

(** ** The probability vector with the exact library *)

Lemma tr_poisson_exact_all (l : R) (j : Z) :
  (0 <= j)%Z -> tr_poisson exact_libm l j = Ok (tp_exact l j).
Proof.
  intros Hj. unfold tp_exact.
  destruct (Req_dec_T (exp l) 1) as [He | He].
  - apply tr_poisson_guard. cbn [m_exp exact_libm]. rewrite He. reflexivity.
  - apply (tr_poisson_value exact_libm l j (exp l) (powerRZ l j)
             (IZR (factorial j))); try reflexivity.
    + exact He.
    + apply not_0_IZR. pose proof (factorial_pos j Hj). lia.
    + intros ->. apply He. apply exp_0.
Qed.

Lemma sum_n_s_exact_nonzero (r k : Z) (c err : R) :
  sum_n_s_exact r k c err <> 0.
Proof.
  unfold sum_n_s_exact.
  destruct (Req_dec_T (py_sum (map (n_s_exact r k c err) (range 0 (k + 1)))) 0);
    [lra | assumption].
Qed.

Lemma compute_probabilities_exact (r k : Z) (c err : R) (max_hist : Z) :
  r <> 0%Z ->
  compute_probabilities exact_libm r k c err max_hist
  = Ok (PyNone
        :: map (fun j => PyFloat (p_j_exact r k c err j)) (range 1 max_hist)).
Proof.
  intros Hr. unfold compute_probabilities.
  unfold fdiv at 1.
  destruct (Req_dec_T (IZR r) 0) as [Hz | _].
  { exfalso. apply eq_IZR_R0 in Hz. contradiction. }
  cbn [bind].
  fold (lambda_s r k c err).
  rewrite (mapM_map _ (n_s_exact r k c err)).
  2:{ intros s Hs. apply in_range in Hs.
      rewrite (py_index_map_range0 (lambda_s r k c err)) by exact Hs.
      reflexivity. }
  cbn [bind].
  rewrite (mapM_map _ (n_s_exact r k c err)).
  2:{ intros s Hs. apply in_range in Hs.
      apply (py_index_map_range0 (n_s_exact r k c err)). exact Hs. }
  cbn [bind]. fold (sum_n_s_exact r k c err).
  rewrite (mapM_map _ (a_s_exact r k c err)).
  2:{ intros s Hs. apply in_range in Hs.
      rewrite (py_index_map_range0 (n_s_exact r k c err)) by exact Hs.
      cbn [bind]. unfold fdiv.
      destruct (Req_dec_T (sum_n_s_exact r k c err) 0) as [Hz | _];
        [| reflexivity].
      exfalso. exact (sum_n_s_exact_nonzero r k c err Hz). }
  cbn [bind].
  rewrite (mapM_map _ (fun j => PyFloat (p_j_exact r k c err j))).
  - reflexivity.
  - intros j Hj. apply in_range in Hj.
    rewrite (mapM_map _ (fun s => a_s_exact r k c err s
                                  * tp_exact (lambda_s r k c err s) j)).
    + reflexivity.
    + intros s Hs. apply in_range in Hs.
      rewrite (py_index_map_range0 (a_s_exact r k c err)) by exact Hs.
      cbn [bind].
      rewrite (py_index_map_range0 (lambda_s r k c err)) by exact Hs.
      cbn [bind].
      rewrite tr_poisson_exact_all by lia. reflexivity.
Qed.

(** C4: in every table [compute_repeat_table] returns, row 1 is the base
    probability vector of the same parameters, entry by entry, and every
    built row [o >= 2] is the convolution of row 1 with row [o - 1]:
    [p_oj[o][j]] is the sum over [i = 1 .. j-1] of
    [p_oj[1][i] * p_oj[o-1][j-i]], for [j = 1 .. hist_size-1]. *)
Theorem C4_repeat_table_invariant (M : libm) (r k : Z) (c err : R)
    (hist_size : Z) (treshold_o : option Z) (p_oj : list (list cell)) :
  compute_repeat_table M r k c err hist_size treshold_o = Ok p_oj ->
  exists p_j,
    compute_probabilities M r k c err hist_size = Ok p_j
    /\ py_index p_oj 1 = Ok p_j
    /\ (forall j, (1 <= j < hist_size)%Z ->
          exists x, py_index p_j j = Ok (PyFloat x)
                    /\ table_get p_oj 1 j = Ok x)
    /\ (forall o j, (2 <= o < len p_oj)%Z -> (1 <= j < hist_size)%Z ->
          table_get p_oj o j
          = Ok (py_sum (map (fun i => table_val p_oj 1 i
                                      * table_val p_oj (o - 1) (j - i))
                            (range 1 j)))
          /\ forall i, (1 <= i < j)%Z ->
               table_get p_oj 1 i = Ok (table_val p_oj 1 i)
               /\ table_get p_oj (o - 1) (j - i)
                  = Ok (table_val p_oj (o - 1) (j - i))).
Proof.
  intros Ht.
  destruct (compute_repeat_table_inv _ _ _ _ _ _ _ _ Ht) as [p_j Hp].
  destruct (compute_probabilities_shape _ _ _ _ _ _ _ Hp) as [v Hv].
  subst p_j.
  rewrite (compute_repeat_table_closed _ _ _ _ _ _ treshold_o v Hp) in Ht.
  injection Ht as <-.
  set (n := Z.max 1 _).
  assert (Hn : (1 <= n)%Z) by (unfold n; lia).
  eexists. split; [exact Hp |]. split; [| split].
  - rewrite table_of_row by lia. reflexivity.
  - intros j Hj. exists (v j). split.
    + apply (py_index_cons_map_range (fun j => PyFloat (v j))). exact Hj.
    + rewrite table_of_get by lia. reflexivity.
  - intros o j Ho Hj. rewrite table_of_len in Ho by lia.
    split.
    + rewrite table_of_get by lia.
      replace (Z.to_nat (o - 1)) with (S (Z.to_nat (o - 1 - 1))) by lia.
      cbn [conv_row]. do 2 f_equal.
      apply map_ext_in. intros i Hi. apply in_range in Hi.
      rewrite !table_of_val by lia. reflexivity.
    + intros i Hi. rewrite !table_of_val by lia.
      rewrite !table_of_get by lia. split; reflexivity.
Qed.

Lemma C4_repeat_table_invariant_witness :
  exists p_j,
    compute_probabilities exact_libm 100 20 10 0.05 3 = Ok p_j
    /\ py_index (table_of 3 (p_j_exact 100 20 10 0.05) 2) 1 = Ok p_j.
Proof.
  destruct (C4_repeat_table_invariant exact_libm 100 20 10 0.05 3 None
              (table_of 3 (p_j_exact 100 20 10 0.05) 2))
    as [p_j [H1 [H2 _]]].
  - apply (compute_repeat_table_closed exact_libm 100 20 10 0.05 3 None).
    apply compute_probabilities_exact. lia.
  - exists p_j. split; assumption.
Defined.

(** ** Sums of floats *)

Lemma fold_left_Rplus_acc (l : list R) (a : R) :
  fold_left Rplus l a = a + fold_left Rplus l 0.
Proof.
  revert a. induction l as [| x t IH]; intros a; simpl.
  - lra.
  - rewrite (IH (a + x)), (IH (0 + x)). lra.
Qed.

Lemma py_sum_nil : py_sum [] = 0.
Proof. reflexivity. Qed.

Lemma py_sum_cons (x : R) (l : list R) : py_sum (x :: l) = x + py_sum l.
Proof.
  unfold py_sum. simpl. rewrite fold_left_Rplus_acc. lra.
Qed.

Lemma py_sum_app (l1 l2 : list R) :
  py_sum (l1 ++ l2) = py_sum l1 + py_sum l2.
Proof.
  induction l1 as [| x t IH]; simpl.
  - rewrite py_sum_nil. lra.
  - rewrite !py_sum_cons, IH. lra.
Qed.

Lemma py_sum_map_nonneg {A : Type} (f : A -> R) (l : list A) :
  (forall a, In a l -> 0 <= f a) -> 0 <= py_sum (map f l).
Proof.
  induction l as [| x t IH]; intros H; simpl.
  - rewrite py_sum_nil. lra.
  - rewrite py_sum_cons.
    pose proof (H x (or_introl eq_refl)).
    pose proof (IH (fun a Ha => H a (or_intror Ha))). lra.
Qed.

Lemma py_sum_map_le {A : Type} (f g : A -> R) (l : list A) :
  (forall a, In a l -> f a <= g a) ->
  py_sum (map f l) <= py_sum (map g l).
Proof.
  induction l as [| x t IH]; intros H; simpl.
  - lra.
  - rewrite !py_sum_cons.
    pose proof (H x (or_introl eq_refl)).
    pose proof (IH (fun a Ha => H a (or_intror Ha))). lra.
Qed.

Lemma py_sum_map_zero {A : Type} (f : A -> R) (l : list A) :
  (forall a, In a l -> f a = 0) -> py_sum (map f l) = 0.
Proof.
  induction l as [| x t IH]; intros H; simpl.
  - reflexivity.
  - rewrite py_sum_cons, (H x (or_introl eq_refl)).
    rewrite IH by (intros a Ha; apply H; right; exact Ha). lra.
Qed.

Lemma py_sum_map_scale_l {A : Type} (c : R) (f : A -> R) (l : list A) :
  py_sum (map (fun a => c * f a) l) = c * py_sum (map f l).
Proof.
  induction l as [| x t IH]; simpl.
  - rewrite py_sum_nil. lra.
  - rewrite !py_sum_cons, IH. lra.
Qed.

Lemma py_sum_map_scale_r {A : Type} (c : R) (f : A -> R) (l : list A) :
  py_sum (map (fun a => f a / c) l) = py_sum (map f l) / c.
Proof.
  induction l as [| x t IH]; simpl.
  - rewrite py_sum_nil. unfold Rdiv. lra.
  - rewrite !py_sum_cons, IH. unfold Rdiv. lra.
Qed.

Lemma py_sum_map_plus {A : Type} (f g : A -> R) (l : list A) :
  py_sum (map (fun a => f a + g a) l)
  = py_sum (map f l) + py_sum (map g l).
Proof.
  induction l as [| x t IH]; simpl.
  - rewrite !py_sum_nil. lra.
  - rewrite !py_sum_cons, IH. lra.
Qed.

(** Exchange of two finite sums. *)
Lemma py_sum_exchange {A B : Type} (f : A -> B -> R) (la : list A)
    (lb : list B) :
  py_sum (map (fun a => py_sum (map (fun b => f a b) lb)) la)
  = py_sum (map (fun b => py_sum (map (fun a => f a b) la)) lb).
Proof.
  induction la as [| x t IH]; simpl.
  - rewrite py_sum_nil. symmetry. apply py_sum_map_zero. reflexivity.
  - rewrite py_sum_cons, IH.
    rewrite <- py_sum_map_plus. f_equal.
    apply map_ext. intros b. rewrite py_sum_cons. reflexivity.
Qed.

Lemma py_sum_map_ext {A : Type} (f g : A -> R) (l : list A) :
  (forall a, In a l -> f a = g a) -> py_sum (map f l) = py_sum (map g l).
Proof.
  intros H. f_equal. apply map_ext_in. exact H.
Qed.

(** ** The exponential series *)

Lemma exp_partial_sum_le (x : R) (N : nat) :
  0 <= x -> sum_f_R0 (fun i => / INR (fact i) * x ^ i) N <= exp x.
Proof.
  intros Hx. apply sum_incr.
  - unfold exp. destruct (exist_exp x) as [l Hl]. simpl.
    exact Hl.
  - intros n. apply Rmult_le_pos.
    + apply Rlt_le, Rinv_0_lt_compat, INR_fact_lt_0.
    + apply pow_le. exact Hx.
Qed.

Lemma factorial_of_nat (n : nat) : IZR (factorial (Z.of_nat n)) = INR (fact n).
Proof.
  unfold factorial. destruct (Z.ltb_spec (Z.of_nat n) 0); [lia |].
  rewrite Nat2Z.id. symmetry. apply INR_IZR_INZ.
Qed.

(** The terms [x^j / j!] for [j = 1 .. n] against the partial sum of the
    series. *)
Lemma poisson_terms_sum (x : R) (n : nat) :
  py_sum (map (fun j => powerRZ x j / IZR (factorial j))
              (range 1 (Z.of_nat n + 1)))
  = sum_f_R0 (fun i => / INR (fact i) * x ^ i) n - 1.
Proof.
  induction n as [| n IH].
  - simpl. rewrite py_sum_nil. field.
  - replace (Z.of_nat (S n) + 1)%Z with ((Z.of_nat n + 1) + 1)%Z by lia.
    rewrite range_snoc by lia. rewrite map_app, py_sum_app, IH.
    cbn [map]. rewrite py_sum_cons, py_sum_nil.
    cbn [sum_f_R0].
    replace (Z.of_nat n + 1)%Z with (Z.of_nat (S n)) by lia.
    rewrite factorial_of_nat, <- pow_powerRZ.
    unfold Rdiv. lra.
Qed.

Lemma poisson_terms_le (x : R) (b : Z) :
  0 <= x ->
  py_sum (map (fun j => powerRZ x j / IZR (factorial j)) (range 1 b))
  <= exp x - 1.
Proof.
  intros Hx.
  destruct (Z.le_gt_cases b 1) as [Hb | Hb].
  - rewrite range_empty by lia. simpl. rewrite py_sum_nil.
    pose proof (exp_partial_sum_le x 0 Hx) as H. simpl in H.
    replace (/ 1 * 1) with 1 in H by field. lra.
  - replace b with (Z.of_nat (Z.to_nat (b - 1)) + 1)%Z by lia.
    rewrite poisson_terms_sum.
    pose proof (exp_partial_sum_le x (Z.to_nat (b - 1)) Hx). lra.
Qed.

(** ** Bounds on the truncated Poisson term *)

Lemma exp_minus_1_pos (l : R) : 0 < l -> 0 < exp l - 1.
Proof.
  intros H. pose proof (exp_increasing 0 l H) as Hi.
  rewrite exp_0 in Hi. lra.
Qed.

Lemma IZR_factorial_ge_1 (j : Z) : (0 <= j)%Z -> 1 <= IZR (factorial j).
Proof.
  intros H. apply IZR_le. pose proof (factorial_pos j H). lia.
Qed.

(** Above the threshold the term is [(l^j / j!) / (e^l - 1)]. *)
Lemma tp_exact_above (l : R) (j : Z) :
  1e-8 < l ->
  tp_exact l j = powerRZ l j / IZR (factorial j) / (exp l - 1).
Proof.
  intros Hl. unfold tp_exact, tr_poisson_formula.
  destruct (Req_dec_T (exp l) 1) as [He | _].
  { exfalso. apply (exp_not_1 l); [lra | exact He]. }
  destruct (Rlt_dec 1e-8 l); [| contradiction].
  unfold Rdiv. rewrite Rinv_mult. lra.
Qed.

(** At or below it the term is [l^j / (j! * l)]. *)
Lemma tp_exact_below (l : R) (j : Z) :
  0 < l <= 1e-8 ->
  tp_exact l j = powerRZ l j / (IZR (factorial j) * l).
Proof.
  intros Hl. unfold tp_exact, tr_poisson_formula.
  destruct (Req_dec_T (exp l) 1) as [He | _].
  { exfalso. apply (exp_not_1 l); [lra | exact He]. }
  destruct (Rlt_dec 1e-8 l); [lra | reflexivity].
Qed.

Lemma tp_exact_below_1 (l : R) : 0 < l <= 1e-8 -> tp_exact l 1 = 1.
Proof.
  intros Hl. rewrite tp_exact_below by exact Hl.
  unfold factorial. simpl. field. lra.
Qed.

Lemma tp_exact_below_2 (l : R) : 0 < l <= 1e-8 -> tp_exact l 2 = l / 2.
Proof.
  intros Hl. rewrite tp_exact_below by exact Hl.
  unfold factorial. simpl. field. lra.
Qed.

Lemma tp_exact_zero (j : Z) : tp_exact 0 j = 0.
Proof.
  unfold tp_exact. destruct (Req_dec_T (exp 0) 1) as [_ | H];
    [reflexivity |].
  exfalso. apply H. apply exp_0.
Qed.

Lemma poisson_term_nonneg (l : R) (j : Z) :
  0 < l -> (0 <= j)%Z -> 0 <= powerRZ l j / IZR (factorial j).
Proof.
  intros Hl Hj. apply Rmult_le_pos.
  - apply powerRZ_le. exact Hl.
  - apply Rlt_le, Rinv_0_lt_compat.
    pose proof (IZR_factorial_ge_1 j Hj). lra.
Qed.

Lemma poisson_term_le (l : R) (j : Z) :
  0 < l -> (1 <= j)%Z -> powerRZ l j / IZR (factorial j) <= exp l - 1.
Proof.
  intros Hl Hj.
  pose proof (poisson_terms_le l (j + 1) (Rlt_le _ _ Hl)) as H.
  rewrite range_snoc, map_app, py_sum_app in H by lia.
  cbn [map] in H. rewrite py_sum_cons, py_sum_nil in H.
  assert (H0 : 0 <= py_sum (map (fun j => powerRZ l j / IZR (factorial j))
                                (range 1 j))).
  { apply py_sum_map_nonneg. intros a Ha. apply in_range in Ha.
    apply poisson_term_nonneg; [exact Hl | lia]. }
  lra.
Qed.

Lemma tp_exact_bounds (l : R) (j : Z) :
  0 <= l -> (1 <= j)%Z -> 0 <= tp_exact l j <= 1.
Proof.
  intros Hl Hj.
  destruct (Req_dec_T l 0) as [-> | Hnz].
  { rewrite tp_exact_zero. lra. }
  assert (Hpos : 0 < l) by lra.
  destruct (Rlt_dec 1e-8 l) as [Habove | Hbelow].
  - rewrite tp_exact_above by exact Habove.
    pose proof (exp_minus_1_pos l Hpos) as HE.
    pose proof (poisson_term_nonneg l j Hpos ltac:(lia)) as H0.
    pose proof (poisson_term_le l j Hpos Hj) as H1.
    split.
    + apply Rmult_le_pos; [exact H0 |].
      apply Rlt_le, Rinv_0_lt_compat. exact HE.
    + apply (Rmult_le_reg_r (exp l - 1)); [exact HE |].
      unfold Rdiv at 1. rewrite Rmult_assoc, Rinv_l by lra. lra.
  - rewrite tp_exact_below by lra.
    pose proof (IZR_factorial_ge_1 j ltac:(lia)) as HF.
    assert (Hp : powerRZ l j = l * l ^ Z.to_nat (j - 1)).
    { replace j with (Z.of_nat (S (Z.to_nat (j - 1)))) at 1 by lia.
      rewrite <- pow_powerRZ. reflexivity. }
    rewrite Hp.
    assert (Hq : 0 <= l ^ Z.to_nat (j - 1) <= 1).
    { split; [apply pow_le; lra |].
      rewrite <- (pow1 (Z.to_nat (j - 1))). apply pow_incr. lra. }
    replace (l * l ^ Z.to_nat (j - 1) / (IZR (factorial j) * l))
      with (l ^ Z.to_nat (j - 1) / IZR (factorial j)) by (field; lra).
    split.
    + apply Rmult_le_pos; [lra |].
      apply Rlt_le, Rinv_0_lt_compat. lra.
    + apply (Rmult_le_reg_r (IZR (factorial j))); [lra |].
      unfold Rdiv. rewrite Rmult_assoc, Rinv_l by lra. lra.
Qed.

(** Away from the interval [(0, 1e-8]] the terms of all multiplicities sum
    to at most [1]. *)
Lemma tp_exact_sum_le_1 (l : R) (b : Z) :
  l = 0 \/ 1e-8 < l ->
  py_sum (map (tp_exact l) (range 1 b)) <= 1.
Proof.
  intros [-> | Hl].
  - rewrite (py_sum_map_zero (tp_exact 0)); [lra |].
    intros j _. apply tp_exact_zero.
  - assert (Hpos : 0 < l) by lra.
    pose proof (exp_minus_1_pos l Hpos) as HE.
    rewrite (py_sum_map_ext _
               (fun j => powerRZ l j / IZR (factorial j) / (exp l - 1)))
      by (intros j _; apply tp_exact_above; exact Hl).
    rewrite (py_sum_map_scale_r (exp l - 1)
               (fun j => powerRZ l j / IZR (factorial j))).
    pose proof (poisson_terms_le l b (Rlt_le _ _ Hpos)) as H.
    apply (Rmult_le_reg_r (exp l - 1)); [exact HE |].
    unfold Rdiv. rewrite Rmult_assoc, Rinv_l by lra. lra.
Qed.

(** For every rate the terms of all multiplicities sum to at most
    [1 + 1e-8]: in the interval [(0, 1e-8]] they sum to at most
    [(e^l - 1) / l <= 1 + l]. *)
Lemma tp_exact_sum_le (l : R) (b : Z) :
  0 <= l -> py_sum (map (tp_exact l) (range 1 b)) <= 1 + 1e-8.
Proof.
  intros Hl. destruct (Req_dec_T l 0) as [-> | Hnz].
  { pose proof (tp_exact_sum_le_1 0 b (or_introl eq_refl)). lra. }
  destruct (Rlt_dec 1e-8 l) as [Ha | Hb].
  { pose proof (tp_exact_sum_le_1 l b (or_intror Ha)). lra. }
  assert (Hs : 0 < l <= 1e-8) by lra.
  rewrite (py_sum_map_ext _
             (fun j => powerRZ l j / IZR (factorial j) / l)).
  2:{ intros j Hj. apply in_range in Hj.
      rewrite tp_exact_below by exact Hs.
      pose proof (IZR_factorial_ge_1 j ltac:(lia)).
      field. split; lra. }
  rewrite (py_sum_map_scale_r l
             (fun j => powerRZ l j / IZR (factorial j))).
  pose proof (poisson_terms_le l b Hl) as H.
  pose proof (exp_small_upper l Hs) as Hu.
  apply (Rmult_le_reg_r l); [lra |].
  unfold Rdiv. rewrite Rmult_assoc, Rinv_l by lra.
  assert (l * l <= 1e-8 * l) by (apply Rmult_le_compat_r; lra).
  lra.
Qed.

(** ** The mixture over the number of errors *)

Lemma comb_nonneg (n k : Z) : 0 <= comb n k.
Proof.
  unfold comb. destruct ((k <? 0)%Z || (n <? k)%Z); [lra | apply pos_INR].
Qed.

Lemma one_minus_exp_nonneg (l : R) : 0 <= l -> 0 <= 1 - exp (- l).
Proof.
  intros H. destruct (Req_dec_T l 0) as [-> | Hnz].
  - rewrite Ropp_0, exp_0. lra.
  - pose proof (exp_increasing (- l) 0 ltac:(lra)) as Hi.
    rewrite exp_0 in Hi. lra.
Qed.

Section Mixture.

Variables (r k : Z) (c err : R).
Hypothesis Hrk : (0 <= k < r)%Z.
Hypothesis Hc : 0 < c.
Hypothesis Herr : 0 <= err < 1.

Lemma kmer_coverage_pos : 0 < c * IZR (r - k + 1) / IZR r.
Proof.
  assert (H1 : 0 < IZR (r - k + 1)) by (apply IZR_lt; lia).
  assert (H2 : 0 < IZR r) by (apply IZR_lt; lia).
  apply Rmult_lt_0_compat; [| apply Rinv_0_lt_compat; exact H2].
  apply Rmult_lt_0_compat; assumption.
Qed.

Lemma lambda_s_nonneg (s : Z) : (0 <= s <= k)%Z -> 0 <= lambda_s r k c err s.
Proof.
  intros Hs. unfold lambda_s, py_pow.
  pose proof kmer_coverage_pos as H0.
  assert (H1 : 0 <= powerRZ 3 (- s)) by (apply powerRZ_le; lra).
  assert (H2 : 0 <= powerRZ (1 - err) (k - s)) by (apply powerRZ_le; lra).
  assert (H3 : 0 <= powerRZ err s).
  { replace s with (Z.of_nat (Z.to_nat s)) by lia.
    rewrite <- pow_powerRZ. apply pow_le. lra. }
  apply Rmult_le_pos; [| exact H3].
  apply Rmult_le_pos; [| exact H2].
  apply Rmult_le_pos; [lra | exact H1].
Qed.

Lemma n_s_exact_nonneg (s : Z) :
  (0 <= s <= k)%Z -> 0 <= n_s_exact r k c err s.
Proof.
  intros Hs. unfold n_s_exact.
  apply Rmult_le_pos; [apply Rmult_le_pos |].
  - apply comb_nonneg.
  - apply IZR_le. apply Z.pow_nonneg. lia.
  - apply one_minus_exp_nonneg. apply lambda_s_nonneg. exact Hs.
Qed.

Lemma raw_sum_n_s_nonneg :
  0 <= py_sum (map (n_s_exact r k c err) (range 0 (k + 1))).
Proof.
  apply py_sum_map_nonneg. intros s Hs. apply in_range in Hs.
  apply n_s_exact_nonneg. lia.
Qed.

Lemma sum_n_s_exact_pos : 0 < sum_n_s_exact r k c err.
Proof.
  pose proof raw_sum_n_s_nonneg as H. unfold sum_n_s_exact.
  destruct (Req_dec_T (py_sum (map (n_s_exact r k c err) (range 0 (k + 1)))) 0);
    lra.
Qed.

Lemma a_s_exact_nonneg (s : Z) :
  (0 <= s <= k)%Z -> 0 <= a_s_exact r k c err s.
Proof.
  intros Hs. unfold a_s_exact. apply Rmult_le_pos.
  - apply n_s_exact_nonneg. exact Hs.
  - apply Rlt_le, Rinv_0_lt_compat, sum_n_s_exact_pos.
Qed.

(** The weights sum to [1], or to [0] in the degenerate case. *)
Lemma sum_a_s_exact_le_1 :
  py_sum (map (a_s_exact r k c err) (range 0 (k + 1))) <= 1.
Proof.
  unfold a_s_exact.
  rewrite (py_sum_map_scale_r (sum_n_s_exact r k c err) (n_s_exact r k c err)).
  unfold sum_n_s_exact.
  destruct (Req_dec_T (py_sum (map (n_s_exact r k c err) (range 0 (k + 1)))) 0)
    as [Hz | Hnz].
  - rewrite Hz. lra.
  - unfold Rdiv. rewrite Rinv_r by exact Hnz. lra.
Qed.

Lemma p_j_exact_bounds (j : Z) :
  (1 <= j)%Z -> 0 <= p_j_exact r k c err j <= 1.
Proof.
  intros Hj. unfold p_j_exact. split.
  - apply py_sum_map_nonneg. intros s Hs. apply in_range in Hs.
    apply Rmult_le_pos.
    + apply a_s_exact_nonneg. lia.
    + apply tp_exact_bounds; [apply lambda_s_nonneg; lia | exact Hj].
  - apply Rle_trans with (py_sum (map (a_s_exact r k c err) (range 0 (k + 1)))).
    + apply py_sum_map_le. intros s Hs. apply in_range in Hs.
      pose proof (a_s_exact_nonneg s ltac:(lia)) as Ha.
      pose proof (tp_exact_bounds (lambda_s r k c err s) j
                    (lambda_s_nonneg s ltac:(lia)) Hj) as Ht.
      rewrite <- (Rmult_1_r (a_s_exact r k c err s)) at 2.
      apply Rmult_le_compat_l; lra.
    + exact sum_a_s_exact_le_1.
Qed.

Lemma p_j_exact_sum_le_1 (b : Z) :
  (forall s, (0 <= s <= k)%Z ->
             lambda_s r k c err s = 0 \/ 1e-8 < lambda_s r k c err s) ->
  py_sum (map (p_j_exact r k c err) (range 1 b)) <= 1.
Proof.
  intros Hl. unfold p_j_exact.
  rewrite (py_sum_exchange
             (fun j s => a_s_exact r k c err s
                         * tp_exact (lambda_s r k c err s) j)).
  apply Rle_trans with (py_sum (map (a_s_exact r k c err) (range 0 (k + 1)))).
  - apply py_sum_map_le. intros s Hs. apply in_range in Hs.
    rewrite (py_sum_map_scale_l (a_s_exact r k c err s)
               (tp_exact (lambda_s r k c err s))).
    pose proof (a_s_exact_nonneg s ltac:(lia)) as Ha.
    pose proof (tp_exact_sum_le_1 (lambda_s r k c err s) b
                  (Hl s ltac:(lia))) as Ht.
    rewrite <- (Rmult_1_r (a_s_exact r k c err s)) at 2.
    apply Rmult_le_compat_l; lra.
  - exact sum_a_s_exact_le_1.
Qed.

(** Without a condition on the rates the vector sums to at most
    [1 + 1e-8]. *)
Lemma p_j_exact_sum_le (b : Z) :
  py_sum (map (p_j_exact r k c err) (range 1 b)) <= 1 + 1e-8.
Proof.
  unfold p_j_exact.
  rewrite (py_sum_exchange
             (fun j s => a_s_exact r k c err s
                         * tp_exact (lambda_s r k c err s) j)).
  apply Rle_trans
    with (py_sum (map (fun s => (1 + 1e-8) * a_s_exact r k c err s)
                      (range 0 (k + 1)))).
  - apply py_sum_map_le. intros s Hs. apply in_range in Hs.
    rewrite (py_sum_map_scale_l (a_s_exact r k c err s)
               (tp_exact (lambda_s r k c err s))).
    pose proof (a_s_exact_nonneg s ltac:(lia)) as Ha.
    pose proof (tp_exact_sum_le (lambda_s r k c err s) b
                  (lambda_s_nonneg s ltac:(lia))) as Ht.
    rewrite (Rmult_comm (1 + 1e-8)).
    apply Rmult_le_compat_l; assumption.
  - rewrite (py_sum_map_scale_l (1 + 1e-8) (a_s_exact r k c err)).
    pose proof sum_a_s_exact_le_1 as H1.
    rewrite <- (Rmult_1_r (1 + 1e-8)) at 2.
    apply Rmult_le_compat_l; lra.
Qed.

End Mixture.

(** The entries of a vector of floats. *)
Lemma entry_shape (v : Z -> R) (max_hist j : Z) :
  (1 <= j < max_hist)%Z ->
  py_index (PyNone :: map (fun j => PyFloat (v j)) (range 1 max_hist)) j
  = Ok (PyFloat (v j))
  /\ entry (PyNone :: map (fun j => PyFloat (v j)) (range 1 max_hist)) j
     = v j.
Proof.
  intros Hj.
  pose proof (py_index_cons_map_range (fun j => PyFloat (v j)) PyNone
                max_hist j Hj) as H.
  split; [exact H |]. unfold entry. rewrite H. reflexivity.
Qed.

Lemma entry_exact (r k : Z) (c err : R) (max_hist j : Z) :
  (1 <= j < max_hist)%Z ->
  py_index (PyNone :: map (fun j => PyFloat (p_j_exact r k c err j))
                          (range 1 max_hist)) j
  = Ok (PyFloat (p_j_exact r k c err j))
  /\ entry (PyNone :: map (fun j => PyFloat (p_j_exact r k c err j))
                          (range 1 max_hist)) j
     = p_j_exact r k c err j.
Proof. apply entry_shape. Qed.

(** ** Error rate zero: only the class of error-free k-mers remains *)

Section ErrorFree.

Variables (r k : Z) (c : R).
Hypothesis Hrk : (0 <= k < r)%Z.
Hypothesis Hc : 0 < c.

Lemma lambda_s_err0_first : lambda_s r k c 0 0 = kmer_coverage r k c.
Proof.
  unfold lambda_s, py_pow, kmer_coverage.
  replace (1 - 0) with 1 by lra. rewrite powerRZ_R1.
  simpl. lra.
Qed.

Lemma lambda_s_err0_rest (s : Z) : (1 <= s)%Z -> lambda_s r k c 0 s = 0.
Proof.
  intros Hs. unfold lambda_s, py_pow.
  replace (powerRZ 0 s) with 0; [lra |].
  replace s with (Z.of_nat (Z.to_nat s)) by lia.
  rewrite <- pow_powerRZ. symmetry. apply pow_i. lia.
Qed.

Lemma binom_0 (n : nat) : binom n 0 = 1%nat.
Proof. destruct n; reflexivity. Qed.

Lemma n_s_err0_first : n_s_exact r k c 0 0 = 1 - exp (- kmer_coverage r k c).
Proof.
  unfold n_s_exact. rewrite lambda_s_err0_first.
  unfold comb. destruct (Z.ltb_spec k 0); [lia |].
  cbn [Z.ltb Z.compare orb Z.to_nat]. rewrite binom_0. simpl. lra.
Qed.

Lemma n_s_err0_rest (s : Z) : (1 <= s)%Z -> n_s_exact r k c 0 s = 0.
Proof.
  intros Hs. unfold n_s_exact. rewrite lambda_s_err0_rest by exact Hs.
  rewrite Ropp_0, exp_0. lra.
Qed.

Lemma kmer_coverage_err0_pos : 0 < kmer_coverage r k c.
Proof. unfold kmer_coverage. apply kmer_coverage_pos; assumption. Qed.

Lemma n_s_err0_first_pos : 0 < 1 - exp (- kmer_coverage r k c).
Proof.
  pose proof kmer_coverage_err0_pos as H.
  pose proof (exp_increasing (- kmer_coverage r k c) 0 ltac:(lra)) as Hi.
  rewrite exp_0 in Hi. lra.
Qed.

Lemma sum_n_s_err0 : sum_n_s_exact r k c 0 = 1 - exp (- kmer_coverage r k c).
Proof.
  unfold sum_n_s_exact.
  rewrite (range_cons 0 (k + 1)) by lia. cbn [map].
  rewrite py_sum_cons, n_s_err0_first.
  rewrite (py_sum_map_zero (n_s_exact r k c 0)).
  2:{ intros s Hs. apply in_range in Hs. apply n_s_err0_rest. lia. }
  pose proof n_s_err0_first_pos as H.
  destruct (Req_dec_T (1 - exp (- kmer_coverage r k c) + 0) 0); lra.
Qed.

Lemma p_j_exact_err0 (j : Z) :
  p_j_exact r k c 0 j = tp_exact (kmer_coverage r k c) j.
Proof.
  pose proof n_s_err0_first_pos as Hpos.
  unfold p_j_exact.
  rewrite (range_cons 0 (k + 1)) by lia. cbn [map].
  rewrite py_sum_cons.
  rewrite (py_sum_map_zero
             (fun s => a_s_exact r k c 0 s * tp_exact (lambda_s r k c 0 s) j)).
  2:{ intros s Hs. apply in_range in Hs.
      unfold a_s_exact. rewrite n_s_err0_rest by lia.
      unfold Rdiv. lra. }
  unfold a_s_exact. rewrite n_s_err0_first, sum_n_s_err0, lambda_s_err0_first.
  unfold Rdiv. rewrite Rinv_r by lra. lra.
Qed.

End ErrorFree.

(** ** The vector is computed for every sane library *)

Lemma mapM_total {A B : Type} (f : A -> res B) (l : list A) :
  (forall a, In a l -> exists b, f a = Ok b) -> exists bs, mapM f l = Ok bs.
Proof.
  induction l as [| a t IH]; intros H; simpl.
  - eauto.
  - destruct (H a (or_introl eq_refl)) as [b Hb]. rewrite Hb. cbn [bind].
    destruct IH as [bs Hbs]; [intros x Hx; apply H; right; exact Hx |].
    rewrite Hbs. cbn [bind]. eauto.
Qed.

Lemma py_index_in_range {A : Type} (l : list A) (i : Z) :
  (0 <= i < len l)%Z -> exists x, py_index l i = Ok x.
Proof.
  intros H. unfold len in H.
  destruct (nth_error l (Z.to_nat i)) as [x |] eqn:E.
  - exists x. apply py_index_nth; [lia | exact E].
  - exfalso. apply nth_error_None in E. lia.
Qed.

Lemma mapM_range_len {B : Type} (f : Z -> res B) (a b : Z) (bs : list B) :
  (a <= b)%Z -> mapM f (range a b) = Ok bs -> len bs = (b - a)%Z.
Proof.
  intros Hab H. apply mapM_length in H. unfold len.
  rewrite H, range_length. lia.
Qed.

Lemma compute_probabilities_returns (M : libm) (r k : Z) (c err : R)
    (max_hist : Z) :
  libm_sane M -> (0 <= k < r)%Z -> 0 < c -> 0 <= err < 1 ->
  exists p_j, compute_probabilities M r k c err max_hist = Ok p_j.
Proof.
  intros HM Hrk Hc Herr. unfold compute_probabilities.
  unfold fdiv at 1.
  destruct (Req_dec_T (IZR r) 0) as [Hz | _].
  { exfalso. apply eq_IZR_R0 in Hz. lia. }
  cbn [bind]. fold (lambda_s r k c err).
  (* n_s *)
  destruct (mapM_total
              (fun s =>
                 l <- py_index (map (lambda_s r k c err) (range 0 (k + 1))) s ;;
                 e <- m_exp M (- l) ;;
                 Ok (comb k s * IZR (3 ^ s) * (1 - e)))
              (range 0 (k + 1))) as [n_s Hn].
  { intros s Hs. apply in_range in Hs.
    rewrite (py_index_map_range0 (lambda_s r k c err)) by exact Hs.
    cbn [bind].
    pose proof (lambda_s_nonneg r k c err Hrk Hc Herr s ltac:(lia)) as Hl.
    destruct (exp_nonpos M HM (- lambda_s r k c err s) ltac:(lra)) as [v Hv].
    rewrite Hv. cbn [bind]. eauto. }
  rewrite Hn. cbn [bind].
  pose proof (mapM_range_len _ 0 (k + 1) _ ltac:(lia) Hn) as Hlen_n.
  (* the sum *)
  destruct (mapM_total (fun t => py_index n_s t) (range 0 (k + 1)))
    as [ns Hns].
  { intros t Ht. apply in_range in Ht. apply py_index_in_range. lia. }
  rewrite Hns. cbn [bind].
  set (sum_n_s := if Req_dec_T (py_sum ns) 0 then 1 else py_sum ns).
  assert (Hsum : sum_n_s <> 0).
  { unfold sum_n_s. destruct (Req_dec_T (py_sum ns) 0); [lra | assumption]. }
  (* a_s *)
  destruct (mapM_total (fun s => n <- py_index n_s s ;; fdiv n sum_n_s)
              (range 0 (k + 1))) as [a_s Ha].
  { intros s Hs. apply in_range in Hs.
    destruct (py_index_in_range n_s s ltac:(lia)) as [n Hn'].
    rewrite Hn'. cbn [bind]. unfold fdiv.
    destruct (Req_dec_T sum_n_s 0); [contradiction | eauto]. }
  rewrite Ha. cbn [bind].
  pose proof (mapM_range_len _ 0 (k + 1) _ ltac:(lia) Ha) as Hlen_a.
  (* p_j *)
  destruct (mapM_total
              (fun j =>
                 ts <- mapM (fun s =>
                               a <- py_index a_s s ;;
                               l <- py_index (map (lambda_s r k c err)
                                                  (range 0 (k + 1))) s ;;
                               t <- tr_poisson M l j ;;
                               Ok (a * t))
                            (range 0 (k + 1)) ;;
                 Ok (PyFloat (py_sum ts)))
              (range 1 max_hist)) as [p Hp].
  { intros j Hj. apply in_range in Hj.
    destruct (mapM_total
                (fun s =>
                   a <- py_index a_s s ;;
                   l <- py_index (map (lambda_s r k c err)
                                      (range 0 (k + 1))) s ;;
                   t <- tr_poisson M l j ;;
                   Ok (a * t))
                (range 0 (k + 1))) as [ts Hts].
    { intros s Hs. apply in_range in Hs.
      destruct (py_index_in_range a_s s ltac:(lia)) as [a Ha'].
      rewrite Ha'. cbn [bind].
      rewrite (py_index_map_range0 (lambda_s r k c err)) by exact Hs.
      cbn [bind].
      pose proof (lambda_s_nonneg r k c err Hrk Hc Herr s ltac:(lia)) as Hl.
      destruct (tr_poisson_returns M HM (lambda_s r k c err s) j Hl
                  ltac:(lia)) as [t Ht].
      rewrite Ht. cbn [bind]. eauto. }
    rewrite Hts. cbn [bind]. eauto. }
  rewrite Hp. cbn [bind]. eauto.
Qed.




(** ** The truncation bound and the marginal *)

Lemma find_all_false {A : Type} (f : A -> bool) (l : list A) :
  (forall x, In x l -> f x = false) -> find f l = None.
Proof.
  induction l as [| x t IH]; intros H; simpl; [reflexivity |].
  rewrite (H x (or_introl eq_refl)).
  apply IH. intros y Hy. apply H. right. exact Hy.
Qed.

Lemma find_first (f : Z -> bool) (d : nat) (a m b : Z) :
  d = Z.to_nat (m - a) -> (a <= m < b)%Z ->
  (forall o, (a <= o < m)%Z -> f o = false) -> f m = true ->
  find f (range a b) = Some m.
Proof.
  revert a. induction d as [| d IH]; intros a Hd Hm Hlt Hf.
  - assert (a = m) by lia. subst a.
    rewrite range_cons by lia. simpl. rewrite Hf. reflexivity.
  - rewrite range_cons by lia. simpl.
    rewrite (Hlt a) by lia.
    apply IH; [lia | lia | | exact Hf].
    intros o Ho. apply Hlt. lia.
Qed.

Lemma find_treshold_o_spec (q1 q2 q tol : R) (hist_size ostar : Z) :
  is_ostar q1 q2 q tol ostar ->
  find_treshold_o q1 q2 q hist_size (Some tol)
  = if (ostar <? hist_size)%Z then Some ostar else None.
Proof.
  intros [H1 [Hlt Hmin]]. unfold find_treshold_o.
  destruct (Z.ltb_spec ostar hist_size) as [Hin | Hout].
  - apply (find_first _ (Z.to_nat (ostar - 1))); [reflexivity | lia | |].
    + intros o Ho. apply Rltb_false.
      apply Rnot_lt_le. apply Hmin. exact Ho.
    + apply Rltb_true. exact Hlt.
  - apply find_all_false. intros o Ho. apply in_range in Ho.
    apply Rltb_false. apply Rnot_lt_le. apply Hmin. lia.
Qed.

Lemma marginal_table_of (hist_size : Z) (v : Z -> R) (n : Z) (q1 q2 q : R)
    (treshold_o : option Z) (j u : Z) :
  (1 <= j < hist_size)%Z ->
  u = match treshold_o with
      | Some t => Z.min (j + 1) t
      | None => (j + 1)%Z
      end ->
  (u - 1 <= n)%Z ->
  marginal q1 q2 q (table_of hist_size v n) treshold_o j
  = Ok (py_sum (map (fun o => b_o q1 q2 q o
                              * table_val (table_of hist_size v n) o j)
                    (range 1 u))).
Proof.
  intros Hj Hu Hn. unfold marginal. rewrite <- Hu.
  rewrite (mapM_map _ (fun o => b_o q1 q2 q o
                                * table_val (table_of hist_size v n) o j)).
  - reflexivity.
  - intros o Ho. apply in_range in Ho.
    unfold table_val. rewrite table_of_get by lia. reflexivity.
Qed.

(** C1 as stated fails: with [q1 = 1e-9] the truncation bound is
    [ostar = 1]; the closure sums over the empty range [range(1, 1)] and
    returns [0], while the sum up to [min(j, ostar) = 1] is
    [q1 * p_oj[1][1] > 0]. *)
Lemma C1_marginal_up_to_ostar_fails :
  is_ostar 1e-9 0.5 0.5 1e-8 1
  /\ exists p_oj p_j,
       compute_repeat_table exact_libm 100 20 10 0 2
         (find_treshold_o 1e-9 0.5 0.5 2 default_treshold) = Ok p_oj
       /\ compute_probabilities_with_repeats exact_libm 100 20 10 0
            1e-9 0.5 0.5 2 default_treshold = Ok p_j
       /\ p_j 1%Z <> claimed_marginal 1e-9 0.5 0.5 p_oj 1 1.
Proof.
  assert (Hstar : is_ostar 1e-9 0.5 0.5 1e-8 1).
  { split; [lia |]. split; [| intros o Ho; lia].
    change (b_o 1e-9 0.5 0.5 1) with 1e-9. lra. }
  split; [exact Hstar |].
  assert (Hfind : find_treshold_o 1e-9 0.5 0.5 2 default_treshold
                  = Some 1%Z).
  { unfold default_treshold.
    rewrite (find_treshold_o_spec _ _ _ _ 2 1 Hstar). reflexivity. }
  pose proof (compute_repeat_table_closed exact_libm 100 20 10 0 2
                (Some 1%Z) (p_j_exact 100 20 10 0)
                (compute_probabilities_exact 100 20 10 0 2 ltac:(lia)))
    as Ht.
  change (Z.max 1 (1 - 1)) with 1%Z in Ht.
  set (T := table_of 2 (p_j_exact 100 20 10 0) 1) in *.
  exists T, (marginal 1e-9 0.5 0.5 T (Some 1%Z)).
  rewrite Hfind.
  split; [exact Ht |]. split.
  - unfold compute_probabilities_with_repeats.
    rewrite Hfind, Ht. reflexivity.
  - unfold marginal, claimed_marginal.
    change (range 1 (Z.min (1 + 1) 1)) with (@nil Z).
    change (range 1 (Z.min 1 1 + 1)) with [1%Z].
    cbn [mapM bind]. unfold T. rewrite table_of_get by lia.
    cbn [bind conv_row Z.to_nat Z.sub Z.add Z.opp Z.pos_sub].
    rewrite p_j_exact_err0 by (try lia; lra).
    assert (Hl : kmer_coverage 100 20 10 = 8.1).
    { unfold kmer_coverage. simpl. lra. }
    rewrite Hl.
    pose proof (tp_exact_above 8.1 1 ltac:(lra)) as Hv.
    pose proof (exp_minus_1_pos 8.1 ltac:(lra)) as HE.
    assert (Hp : 0 < tp_exact 8.1 1).
    { rewrite Hv. apply Rmult_lt_0_compat.
      - unfold factorial. simpl. lra.
      - apply Rinv_0_lt_compat. exact HE. }
    rewrite py_sum_nil, py_sum_cons, py_sum_nil.
    unfold b_o. cbn [Z.eqb Pos.eqb].
    intros H. injection H as H.
    assert (0 < 1e-9 * tp_exact 8.1 1) by (apply Rmult_lt_0_compat; lra).
    lra.
Qed.

(** C1, amended: when the truncation bound [ostar] exists (the smallest
    [o >= 1] with [b_o(o) < 1e-8]) and the repeat table is built, the
    function [compute_probabilities_with_repeats] returns satisfies, for
    every [j] with [1 <= j < hist_size],
    [p_j(j) = sum over o = 1 .. min(j, ostar - 1) of b_o(o) * p_oj[o][j]]:
    the table and the sum both stop strictly below [ostar]. *)
Theorem C1_marginal_below_ostar (M : libm) (r k : Z) (c err q1 q2 q : R)
    (hist_size ostar : Z) (p_oj : list (list cell)) :
  is_ostar q1 q2 q 1e-8 ostar ->
  compute_repeat_table M r k c err hist_size
    (find_treshold_o q1 q2 q hist_size default_treshold) = Ok p_oj ->
  exists p_j,
    compute_probabilities_with_repeats M r k c err q1 q2 q hist_size
      default_treshold = Ok p_j
    /\ forall j, (1 <= j < hist_size)%Z ->
         p_j j = Ok (py_sum (map (fun o => b_o q1 q2 q o * table_val p_oj o j)
                                 (range 1 (Z.min j (ostar - 1) + 1))))
         /\ forall o, (1 <= o <= Z.min j (ostar - 1))%Z ->
              table_get p_oj o j = Ok (table_val p_oj o j).
Proof.
  intros Hstar Ht.
  unfold compute_probabilities_with_repeats, default_treshold in *.
  rewrite (find_treshold_o_spec _ _ _ _ hist_size ostar Hstar) in Ht |- *.
  destruct (compute_repeat_table_inv _ _ _ _ _ _ _ _ Ht) as [p Hp].
  destruct (compute_probabilities_shape _ _ _ _ _ _ _ Hp) as [v Hv].
  subst p. rewrite Ht. cbn [bind].
  eexists. split; [reflexivity |].
  rewrite (compute_repeat_table_closed _ _ _ _ _ _ _ v Hp) in Ht.
  injection Ht as <-.
  pose proof Hstar as [H1 _].
  intros j Hj.
  destruct (Z.ltb_spec ostar hist_size) as [Hin | Hout]; cbv beta iota.
  - split.
    + apply marginal_table_of; [exact Hj | lia | lia].
    + intros o Ho. unfold table_val.
      rewrite table_of_get by lia. reflexivity.
  - split.
    + apply marginal_table_of; [exact Hj | lia | lia].
    + intros o Ho. unfold table_val.
      rewrite table_of_get by lia. reflexivity.
Qed.

Lemma C1_marginal_below_ostar_witness :
  exists p_j,
    compute_probabilities_with_repeats exact_libm 100 20 10 0
      1e-9 0.5 0.5 2 default_treshold = Ok p_j
    /\ p_j 1%Z = Ok 0.
Proof.
  assert (Hstar : is_ostar 1e-9 0.5 0.5 1e-8 1).
  { split; [lia |]. split; [| intros o Ho; lia].
    change (b_o 1e-9 0.5 0.5 1) with 1e-9. lra. }
  assert (Hfind : find_treshold_o 1e-9 0.5 0.5 2 default_treshold
                  = Some 1%Z).
  { unfold default_treshold.
    rewrite (find_treshold_o_spec _ _ _ _ 2 1 Hstar). reflexivity. }
  destruct (C1_marginal_below_ostar exact_libm 100 20 10 0 1e-9 0.5 0.5 2 1
              (table_of 2 (p_j_exact 100 20 10 0) 1) Hstar)
    as [p_j [H1 H2]].
  - rewrite Hfind.
    apply (compute_repeat_table_closed exact_libm 100 20 10 0 2 (Some 1%Z)).
    apply compute_probabilities_exact. lia.
  - exists p_j. split; [exact H1 |].
    destruct (H2 1%Z ltac:(lia)) as [H3 _]. exact H3.
Defined.

(** ** Floats with infinities *)

Lemma pf_lt_irrefl (x : pyfloat) : pf_lt x x = false.
Proof.
  destruct x; simpl; try reflexivity. apply Rltb_false. lra.
Qed.

Lemma pf_lt_trans (x y z : pyfloat) :
  pf_lt x y = true -> pf_lt y z = true -> pf_lt x z = true.
Proof.
  destruct x, y, z; simpl; try discriminate; try reflexivity.
  rewrite !Rltb_iff. lra.
Qed.

Lemma pf_lt_asym (x y : pyfloat) : pf_lt x y = true -> pf_lt y x = false.
Proof.
  destruct x, y; simpl; try discriminate; try reflexivity.
  rewrite Rltb_iff. intros H. apply Rltb_false. lra.
Qed.

(** The improvement [min_val - val] of a better candidate is positive. *)
Lemma improvement_positive (v m : pyfloat) :
  pf_lt v m = true ->
  pf_sub m v = PInf \/ exists d, pf_sub m v = Fin d /\ 0 < d.
Proof.
  destruct v, m; simpl; try discriminate; auto.
  rewrite Rltb_iff. intros H. right. eexists. split; [reflexivity | lra].
Qed.

Lemma nonneg_float_add (d p : pyfloat) :
  nonneg_float d ->
  (p = PInf \/ exists x, p = Fin x /\ 0 < x) ->
  nonneg_float (pf_add d p).
Proof.
  intros [-> | [x [-> Hx]]] [-> | [y [-> Hy]]]; simpl.
  - left. reflexivity.
  - left. reflexivity.
  - left. reflexivity.
  - right. eexists. split; [reflexivity | lra].
Qed.

(** For a non-negative float, "not above" is "at most". *)
Lemma nonneg_float_not_gt (d : pyfloat) (b : R) :
  nonneg_float d -> pf_gt d (Fin b) = negb (pf_le d (Fin b)).
Proof.
  intros [-> | [x [-> Hx]]]; simpl; [reflexivity |].
  unfold Rltb. destruct (Rlt_dec b x), (Rle_dec x b); try reflexivity; lra.
Qed.

Lemma no_worse_not_greater (fn : list R -> pyfloat) (x0 x : list R) :
  no_worse fn x0 x -> pf_gt (fn x) (fn x0) = false.
Proof.
  unfold pf_gt. intros [-> | H].
  - apply pf_lt_irrefl.
  - destruct (pf_lt (fn x0) (fn x)) eqn:E; [| reflexivity].
    rewrite (pf_lt_asym _ _ E) in H. discriminate.
Qed.

Lemma no_worse_better (fn : list R -> pyfloat) (x0 x y : list R) :
  no_worse fn x0 x -> pf_lt (fn y) (fn x) = true -> no_worse fn x0 y.
Proof.
  intros [-> | H] Hy; right; [exact Hy |].
  exact (pf_lt_trans _ _ _ Hy H).
Qed.

(** ** The grid search *)

Section GridSearch.

Variable fn : list R -> pyfloat.
Variable bounds : option (list (list (option R))).
Variable x0 : list R.

Lemma grid_inv_init : grid_inv fn x0 (grid_init fn x0).
Proof.
  unfold grid_inv, grid_init. simpl. repeat split; try lra.
  - right. exists 1. split; [reflexivity | lra].
  - left. reflexivity.
Qed.

Lemma grid_inv_next (st st' : grid_state) :
  grid_inv fn x0 st -> grid_next fn bounds st = Some st' ->
  grid_inv fn x0 st'.
Proof.
  intros [Hstep [Hdiff [Hval Hbest]]]. unfold grid_next.
  destruct (g_todo st) as [[| args rest] |].
  - (* the round is closed *)
    intros H. injection H as <-. unfold grid_inv. simpl.
    repeat split; try assumption.
    + destruct (pf_lt (g_diff st) (Fin 1)); lra.
    + destruct (pf_lt (g_diff st) (Fin 1)); lra.
  - (* one candidate *)
    destruct (pf_lt (fn args) (g_min_val st)) eqn:E;
      intros H; injection H as <-; unfold grid_inv; simpl.
    + repeat split; try lra.
      * apply nonneg_float_add; [exact Hdiff |].
        apply improvement_positive. exact E.
      * rewrite Hval in E. exact (no_worse_better fn x0 _ _ Hbest E).
    + repeat split; try assumption; lra.
  - (* the head of the loop *)
    destruct (grid_continue st); [| discriminate].
    intros H. injection H as <-. unfold grid_inv. simpl.
    repeat split; try assumption; try lra.
    right. exists 0. split; [reflexivity | lra].
Qed.

Lemma grid_inv_reachable (st : grid_state) :
  reachable (grid_next fn bounds) (grid_init fn x0) st -> grid_inv fn x0 st.
Proof.
  induction 1 as [| st st' _ IH Hn].
  - exact grid_inv_init.
  - exact (grid_inv_next st st' IH Hn).
Qed.

Lemma grid_inv_run (n : nat) (st : grid_state) :
  grid_inv fn x0 st -> grid_inv fn x0 (fst (run (grid_next fn bounds) n st)).
Proof.
  revert st. induction n as [| n IH]; intros st H; simpl; [exact H |].
  destruct (grid_next fn bounds st) as [st' |] eqn:E; [| exact H].
  apply IH. exact (grid_inv_next st st' H E).
Qed.

(** The loop only exits at its head. *)
Lemma grid_exit_at_head (st : grid_state) :
  grid_next fn bounds st = None -> g_todo st = None.
Proof.
  unfold grid_next. destruct (g_todo st) as [[| args rest] |].
  - discriminate.
  - destruct (pf_lt (fn args) (g_min_val st)); discriminate.
  - reflexivity.
Qed.

Lemma grid_exit_iff (st : grid_state) :
  grid_inv fn x0 st -> g_todo st = None ->
  (grid_next fn bounds st = None
   <-> pf_le (g_diff st) (Fin 0.1) = true /\ Rabs (g_step st - 1) <= 0.001).
Proof.
  intros [Hstep [Hdiff _]] Hhead. unfold grid_next, grid_continue.
  rewrite Hhead, (nonneg_float_not_gt _ 0.1 Hdiff).
  rewrite Rabs_pos_eq by lra. unfold Rltb.
  destruct (pf_le (g_diff st) (Fin 0.1)); simpl;
    destruct (Rlt_dec 1.001 (g_step st)); split;
    try discriminate; try (intros [H1 H2]; try discriminate; lra);
    intros; try reflexivity; split; try reflexivity; lra.
Qed.

Lemma grid_close_round (st : grid_state) :
  g_todo st = Some [] ->
  exists st',
    grid_next fn bounds st = Some st'
    /\ g_todo st' = None
    /\ g_diff st' = g_diff st
    /\ g_min_args st' = g_min_args st
    /\ g_step st' = if pf_lt (g_diff st) (Fin 1)
                    then 1 + (g_step st - 1) * 0.75
                    else g_step st.
Proof.
  intros H. unfold grid_next. rewrite H.
  eexists. split; [reflexivity |]. simpl. repeat split.
Qed.

End GridSearch.

(** ** Hill climbing *)

Lemma product_length {A : Type} (ls : list (list A)) (x : list A) :
  In x (product ls) -> length x = length ls.
Proof.
  revert x. induction ls as [| l rest IH]; intros x H; simpl in H.
  - destruct H as [<- | []]. reflexivity.
  - apply in_flat_map in H. destruct H as [a [_ H]].
    apply in_map_iff in H. destruct H as [y [<- Hy]].
    simpl. f_equal. apply IH. exact Hy.
Qed.

Lemma enumerate_length {A : Type} (l : list A) :
  length (enumerate l) = length l.
Proof.
  unfold enumerate. rewrite length_combine, range_length.
  unfold len. lia.
Qed.

Section HillClimbing.

Variable fn : list R -> pyfloat.
Variable bounds : option (list (list (option R))).
Variable iterations : Z.
Variable rnd : nat -> Z.
Variable x0 : list R.
Hypothesis x0_nonempty : x0 <> [].

Lemma generate_grid_hc_ok (draw : nat) (args : list R) (step : R)
    (max_depth : Z) :
  length args = length x0 ->
  exists g,
    generate_grid_hc bounds rnd draw args step max_depth = Ok g
    /\ forall a, In a g -> length a = length x0.
Proof.
  intros Hlen. unfold generate_grid_hc, randrange.
  destruct (Z.leb_spec (len args) 0) as [Hz | _].
  - exfalso. unfold len in Hz. destruct x0; [contradiction |].
    simpl in Hlen. lia.
  - cbn [bind]. eexists. split; [reflexivity |].
    intros a Ha. apply product_length in Ha.
    rewrite length_map, enumerate_length in Ha. lia.
Qed.

Lemma hc_inv_init : hc_inv fn x0 (hc_init fn x0).
Proof.
  unfold hc_inv, hc_init. simpl. repeat split.
  - left. reflexivity.
  - intros g a H. discriminate.
Qed.

Lemma hc_inv_next (st : hc_state) :
  hc_inv fn x0 st ->
  exists o,
    hc_next fn bounds iterations rnd st = Ok o
    /\ forall st', o = Some st' -> hc_inv fn x0 st'.
Proof.
  intros [Hval [Hbest [Hlen Htodo]]]. unfold hc_next.
  destruct (h_todo st) as [[| args rest] |] eqn:Et.
  - (* the pass is over *)
    eexists. split; [reflexivity |].
    intros st' H. injection H as <-. unfold hc_inv. simpl.
    repeat split; try assumption. intros g a H. discriminate.
  - (* one candidate *)
    destruct (pf_lt (fn args) (h_min_val st)) eqn:E;
      (eexists; split; [reflexivity |]);
      intros st' H; injection H as <-; unfold hc_inv; simpl.
    + repeat split.
      * rewrite Hval in E. exact (no_worse_better fn x0 _ _ Hbest E).
      * apply (Htodo (args :: rest)); [reflexivity | left; reflexivity].
      * intros g a H Ha. injection H as <-.
        apply (Htodo (args :: rest)); [reflexivity | right; exact Ha].
    + repeat split; try assumption.
      intros g a H Ha. injection H as <-.
      apply (Htodo (args :: rest)); [reflexivity | right; exact Ha].
  - (* the head of the loop *)
    destruct (h_n_iter st <? iterations)%Z.
    + destruct (generate_grid_hc_ok (h_draws st) (h_min_args st) hc_step
                  grid_depth Hlen) as [g [Hg Hall]].
      rewrite Hg. cbn [bind]. eexists. split; [reflexivity |].
      intros st' H. injection H as <-. unfold hc_inv. simpl.
      repeat split; try assumption.
      intros g' a H Ha. injection H as <-. apply Hall. exact Ha.
    + eexists. split; [reflexivity |]. intros st' H. discriminate.
Qed.

Lemma hc_inv_run (n : nat) (st : hc_state) :
  hc_inv fn x0 st ->
  exists s,
    runM (hc_next fn bounds iterations rnd) n st = Ok s
    /\ hc_inv fn x0 (fst s).
Proof.
  revert st. induction n as [| n IH]; intros st H; simpl.
  - eexists. split; [reflexivity | exact H].
  - destruct (hc_inv_next st H) as [o [Ho Hinv]]. rewrite Ho. cbn [bind].
    destruct o as [st' |].
    + apply IH. apply Hinv. reflexivity.
    + eexists. split; [reflexivity | exact H].
Qed.

End HillClimbing.

Lemma minimize_grid_no_worse (fn : list R -> pyfloat)
    (bounds : option (list (list (option R)))) (x0 : list R)
    (interrupt : nat) :
  no_worse fn x0 (minimize_grid fn bounds x0 interrupt).
Proof.
  unfold minimize_grid.
  destruct (grid_inv_run fn bounds x0 interrupt (grid_init fn x0)
              (grid_inv_init fn x0)) as [_ [_ [_ H]]].
  exact H.
Qed.

(** ** The best value so far *)

(** A value not below the best stays not below it when the best improves. *)
Lemma pf_lt_false_mono (x m m' : pyfloat) :
  pf_lt x m = false -> m' = m \/ pf_lt m' m = true -> pf_lt x m' = false.
Proof.
  intros H [-> | H']; [exact H |].
  destruct x, m, m'; simpl in *; try discriminate; try reflexivity.
  apply Rltb_iff in H'. apply Rltb_false.
  unfold Rltb in H. destruct (Rlt_dec x x0); [discriminate | lra].
Qed.

Lemma grid_next_best (fn : list R -> pyfloat)
    (bounds : option (list (list (option R)))) (st st' : grid_state) :
  grid_next fn bounds st = Some st' ->
  (g_min_val st' = g_min_val st
   \/ pf_lt (g_min_val st') (g_min_val st) = true)
  /\ forall a rest, g_todo st = Some (a :: rest) ->
                    pf_lt (fn a) (g_min_val st') = false.
Proof.
  unfold grid_next. destruct (g_todo st) as [[| args rest] |].
  - intros H. injection H as <-. simpl. split; [left; reflexivity |].
    intros a rest' H. discriminate.
  - destruct (pf_lt (fn args) (g_min_val st)) eqn:E;
      intros H; injection H as <-; simpl.
    + split; [right; exact E |].
      intros a rest' H. injection H as <- _. apply pf_lt_irrefl.
    + split; [left; reflexivity |].
      intros a rest' H. injection H as <- _. exact E.
  - destruct (grid_continue st); [| discriminate].
    intros H. injection H as <-. simpl. split; [left; reflexivity |].
    intros a rest' H. discriminate.
Qed.

Lemma grid_run_best (fn : list R -> pyfloat)
    (bounds : option (list (list (option R)))) (n : nat) (st : grid_state) :
  (forall x, pf_lt x (g_min_val st) = false ->
             pf_lt x (g_min_val (fst (run (grid_next fn bounds) n st)))
             = false)
  /\ forall c, In c (grid_evaluated fn bounds n st) ->
               pf_lt (fn c) (g_min_val (fst (run (grid_next fn bounds) n st)))
               = false.
Proof.
  revert st. induction n as [| n IH]; intros st; simpl.
  - split; [auto | intros c []].
  - destruct (grid_next fn bounds st) as [st' |] eqn:E.
    2:{ split; [auto | intros c []]. }
    destruct (grid_next_best fn bounds st st' E) as [Hm Ha].
    destruct (IH st') as [IH1 IH2].
    split.
    + intros x Hx. apply IH1. exact (pf_lt_false_mono x _ _ Hx Hm).
    + intros c Hc. destruct (g_todo st) as [[| a rest] |].
      * apply IH2. exact Hc.
      * destruct Hc as [<- | Hc]; [| apply IH2; exact Hc].
        apply IH1. apply (Ha a rest). reflexivity.
      * apply IH2. exact Hc.
Qed.

Lemma hc_next_best (fn : list R -> pyfloat)
    (bounds : option (list (list (option R)))) (iterations : Z)
    (rnd : nat -> Z) (st st' : hc_state) :
  hc_next fn bounds iterations rnd st = Ok (Some st') ->
  (h_min_val st' = h_min_val st
   \/ pf_lt (h_min_val st') (h_min_val st) = true)
  /\ forall a rest, h_todo st = Some (a :: rest) ->
                    pf_lt (fn a) (h_min_val st') = false.
Proof.
  unfold hc_next. destruct (h_todo st) as [[| args rest] |].
  - intros H. injection H as <-. simpl. split; [left; reflexivity |].
    intros a rest' H. discriminate.
  - destruct (pf_lt (fn args) (h_min_val st)) eqn:E;
      intros H; injection H as <-; simpl.
    + split; [right; exact E |].
      intros a rest' H. injection H as <- _. apply pf_lt_irrefl.
    + split; [left; reflexivity |].
      intros a rest' H. injection H as <- _. exact E.
  - destruct (h_n_iter st <? iterations)%Z; [| discriminate].
    destruct (generate_grid_hc bounds rnd (h_draws st) (h_min_args st)
                hc_step grid_depth) as [g | e]; [| discriminate].
    cbn [bind]. intros H. injection H as <-. simpl.
    split; [left; reflexivity |]. intros c rest' H. discriminate.
Qed.

Lemma hc_run_best (fn : list R -> pyfloat)
    (bounds : option (list (list (option R)))) (iterations : Z)
    (rnd : nat -> Z) (n : nat) (st : hc_state) (s : hc_state * bool) :
  runM (hc_next fn bounds iterations rnd) n st = Ok s ->
  (forall x, pf_lt x (h_min_val st) = false ->
             pf_lt x (h_min_val (fst s)) = false)
  /\ forall c, In c (hc_evaluated fn bounds iterations rnd n st) ->
               pf_lt (fn c) (h_min_val (fst s)) = false.
Proof.
  revert st. induction n as [| n IH]; intros st; simpl.
  - intros H. injection H as <-. split; [auto | intros c []].
  - destruct (hc_next fn bounds iterations rnd st) as [[st' |] | e] eqn:E;
      cbn [bind].
    + intros H.
      destruct (hc_next_best fn bounds iterations rnd st st' E) as [Hm Ha].
      destruct (IH st' H) as [IH1 IH2].
      split.
      * intros x Hx. apply IH1. exact (pf_lt_false_mono x _ _ Hx Hm).
      * intros c Hc. destruct (h_todo st) as [[| a rest] |].
        -- apply IH2. exact Hc.
        -- destruct Hc as [<- | Hc]; [| apply IH2; exact Hc].
           apply IH1. apply (Ha a rest). reflexivity.
        -- apply IH2. exact Hc.
    + intros H. injection H as <-. split; [auto | intros c []].
    + discriminate.
Qed.

Lemma minimize_grid_best (fn : list R -> pyfloat)
    (bounds : option (list (list (option R)))) (x0 : list R)
    (interrupt : nat) (c : list R) :
  In c (grid_evaluated fn bounds interrupt (grid_init fn x0)) ->
  pf_lt (fn c) (fn (minimize_grid fn bounds x0 interrupt)) = false.
Proof.
  intros Hc. unfold minimize_grid.
  destruct (grid_inv_run fn bounds x0 interrupt (grid_init fn x0)
              (grid_inv_init fn x0)) as [_ [_ [Hval _]]].
  rewrite <- Hval.
  apply (grid_run_best fn bounds interrupt (grid_init fn x0)). exact Hc.
Qed.

Lemma minimize_hillclimbing_best (fn : list R -> pyfloat)
    (bounds : option (list (list (option R)))) (iterations : Z)
    (rnd : nat -> Z) (x0 : list R) (interrupt : nat) :
  x0 <> [] ->
  exists y,
    minimize_hillclimbing fn bounds iterations rnd x0 interrupt = Ok y
    /\ no_worse fn x0 y
    /\ forall c,
         In c (hc_evaluated fn bounds iterations rnd interrupt
                 (hc_init fn x0)) ->
         pf_lt (fn c) (fn y) = false.
Proof.
  intros Hne. unfold minimize_hillclimbing.
  destruct (generate_grid_hc_ok bounds rnd x0 Hne 0 x0 hc_step grid_depth
              eq_refl) as [g [Hg _]].
  rewrite Hg. cbn [bind].
  destruct (hc_inv_run fn bounds iterations rnd x0 Hne interrupt
              (hc_init fn x0) (hc_inv_init fn x0))
    as [s [Hs [Hval [Hbest _]]]].
  rewrite Hs. cbn [bind]. eexists. split; [reflexivity |].
  split; [exact Hbest |].
  intros c Hc. rewrite <- Hval.
  apply (hc_run_best fn bounds iterations rnd interrupt (hc_init fn x0) s Hs).
  exact Hc.
Qed.

(** ** A round of the grid search *)

Lemma run_app {S : Type} (next : S -> option S) (n m : nat) (st st' : S) :
  run next n st = (st', false) -> run next (n + m) st = run next m st'.
Proof.
  revert st. induction n as [| n IH]; intros st H; cbn [run Nat.add] in *.
  - injection H as ->. reflexivity.
  - destruct (next st) as [st1 |]; [| discriminate]. apply IH. exact H.
Qed.

Lemma runM_app {S : Type} (next : S -> res (option S)) (n m : nat)
    (st st' : S) :
  runM next n st = Ok (st', false) ->
  runM next (n + m) st = runM next m st'.
Proof.
  revert st. induction n as [| n IH]; intros st H; cbn [runM Nat.add] in *.
  - injection H as ->. reflexivity.
  - destruct (next st) as [[st1 |] | e]; cbn [bind] in *;
      try discriminate.
    apply IH. exact H.
Qed.

Lemma run_reachable {S : Type} (next : S -> option S) (n : nat)
    (s0 st : S) (b : bool) :
  run next n s0 = (st, b) -> reachable next s0 st.
Proof.
  intros H.
  assert (G : forall s, reachable next s0 s -> run next n s = (st, b) ->
                        reachable next s0 st).
  { clear H. induction n as [| n IH]; intros s Hs H; cbn [run] in H.
    - injection H as <- _. exact Hs.
    - destruct (next s) as [s1 |] eqn:E.
      + apply (IH s1); [| exact H]. exact (reach_next next s0 s s1 Hs E).
      + injection H as <- _. exact Hs. }
  exact (G s0 (reach_start next s0) H).
Qed.

Lemma decrease_refl (m : pyfloat) : decrease m m = Fin 0.
Proof. unfold decrease. rewrite pf_lt_irrefl. reflexivity. Qed.

(** The decreases of one round telescope. *)
Lemma decrease_step (m0 m v : pyfloat) :
  m = m0 \/ pf_lt m m0 = true -> pf_lt v m = true ->
  pf_add (decrease m0 m) (pf_sub m v) = decrease m0 v.
Proof.
  intros [-> | Hm] Hv.
  - rewrite decrease_refl. unfold decrease. rewrite Hv.
    destruct m0, v; cbn in *; try discriminate; try reflexivity.
    f_equal. lra.
  - unfold decrease. rewrite Hm, (pf_lt_trans v m m0 Hv Hm).
    destruct m0, m, v; cbn in *; try discriminate; try reflexivity.
    f_equal. lra.
Qed.

Section GridRound.

Variable fn : list R -> pyfloat.
Variable bounds : option (list (list (option R))).

(** The [for] loop of a round that started with the best value [m0]. *)
Lemma grid_eval_all (m0 : pyfloat) (l : list (list R)) (st : grid_state) :
  g_todo st = Some l ->
  g_min_val st = fn (g_min_args st) ->
  g_min_val st = m0 \/ pf_lt (g_min_val st) m0 = true ->
  g_diff st = decrease m0 (g_min_val st) ->
  exists st',
    run (grid_next fn bounds) (length l) st = (st', false)
    /\ g_todo st' = Some []
    /\ g_step st' = g_step st /\ g_n_iter st' = g_n_iter st
    /\ g_min_val st' = fn (g_min_args st')
    /\ (g_min_val st' = m0 \/ pf_lt (g_min_val st') m0 = true)
    /\ g_diff st' = decrease m0 (g_min_val st')
    /\ (forall x, pf_lt x (g_min_val st) = false ->
                  pf_lt x (g_min_val st') = false)
    /\ (forall c, In c l -> pf_lt (fn c) (g_min_val st') = false)
    /\ (g_min_args st' = g_min_args st \/ In (g_min_args st') l).
Proof.
  revert st. induction l as [| c rest IH]; intros st Ht Hv Hm Hd.
  - exists st. cbn [length run].
    split; [reflexivity |]. split; [exact Ht |].
    split; [reflexivity |]. split; [reflexivity |].
    split; [exact Hv |]. split; [exact Hm |]. split; [exact Hd |].
    split; [auto |]. split; [intros c [] | left; reflexivity].
  - cbn [length run]. unfold grid_next at 1. rewrite Ht.
    destruct (pf_lt (fn c) (g_min_val st)) eqn:E.
    + (* the candidate improves on the best value *)
      match goal with
      | |- exists st', run _ _ ?s1 = _ /\ _ =>
          destruct (IH s1) as [st' [Hr [H1 [H2 [H3 [H4 [H5 [H6 [H7 [H8 H9]]]]]]]]]]
      end.
      * reflexivity.
      * reflexivity.
      * cbn [g_min_val]. right.
        destruct Hm as [<- | Hm]; [exact E |].
        exact (pf_lt_trans _ _ _ E Hm).
      * cbn [g_min_val g_diff]. rewrite Hd.
        apply decrease_step; assumption.
      * cbn [g_min_val g_min_args g_step g_n_iter] in *.
        exists st'. split; [exact Hr |]. split; [exact H1 |].
        split; [exact H2 |]. split; [exact H3 |]. split; [exact H4 |].
        split; [exact H5 |]. split; [exact H6 |]. split; [| split].
        -- intros x Hx. apply H7.
           apply (pf_lt_false_mono x (g_min_val st)); [exact Hx |].
           right. exact E.
        -- intros c' [<- | Hc]; [| apply H8; exact Hc].
           apply H7. apply pf_lt_irrefl.
        -- right. destruct H9 as [-> | H9]; [left; reflexivity |].
           right. exact H9.
    + (* it does not *)
      match goal with
      | |- exists st', run _ _ ?s1 = _ /\ _ =>
          destruct (IH s1) as [st' [Hr [H1 [H2 [H3 [H4 [H5 [H6 [H7 [H8 H9]]]]]]]]]]
      end.
      * reflexivity.
      * exact Hv.
      * exact Hm.
      * exact Hd.
      * cbn [g_min_val g_min_args g_step g_n_iter] in *.
        exists st'. split; [exact Hr |]. split; [exact H1 |].
        split; [exact H2 |]. split; [exact H3 |]. split; [exact H4 |].
        split; [exact H5 |]. split; [exact H6 |]. split; [exact H7 |].
        split.
        -- intros c' [<- | Hc]; [| apply H8; exact Hc].
           apply H7. exact E.
        -- destruct H9 as [H9 | H9]; [left; exact H9 | right; right; exact H9].
Qed.

(** A whole round from the head of the loop: the grid is built once around
    the current point, every candidate is evaluated, [diff] ends as the
    decrease of the best value over the round, and the step is updated
    from it. *)
Lemma grid_round (st : grid_state) :
  g_todo st = None -> g_min_val st = fn (g_min_args st) ->
  grid_continue st = true ->
  exists n st',
    run (grid_next fn bounds) n st = (st', false)
    /\ g_todo st' = None
    /\ g_n_iter st' = (g_n_iter st + 1)%Z
    /\ g_min_val st' = fn (g_min_args st')
    /\ (forall c,
          In c (generate_grid bounds (g_min_args st) (g_step st) grid_depth) ->
          pf_lt (fn c) (g_min_val st') = false)
    /\ (g_min_args st' = g_min_args st
        \/ In (g_min_args st')
              (generate_grid bounds (g_min_args st) (g_step st) grid_depth))
    /\ g_diff st' = decrease (g_min_val st) (g_min_val st')
    /\ g_step st' = if pf_lt (g_diff st') (Fin 1)
                    then 1 + (g_step st - 1) * 0.75
                    else g_step st.
Proof.
  intros Ht Hv Hc.
  set (g := generate_grid bounds (g_min_args st) (g_step st) grid_depth).
  destruct (grid_eval_all (g_min_val st) g
              {| g_min_val := g_min_val st; g_min_args := g_min_args st;
                 g_step := g_step st; g_diff := Fin 0;
                 g_n_iter := g_n_iter st + 1; g_todo := Some g |})
    as [st2 [Hr [H1 [H2 [H3 [H4 [H5 [H6 [H7 [H8 H9]]]]]]]]]].
  - reflexivity.
  - exact Hv.
  - left. reflexivity.
  - cbn [g_diff g_min_val]. symmetry. apply decrease_refl.
  - cbn [g_min_val g_min_args g_step g_n_iter] in *.
    exists (S (length g + 1)). eexists. split.
    + cbn [run]. unfold grid_next at 1. rewrite Ht, Hc. fold g.
      rewrite (run_app _ _ 1 _ _ Hr). cbn [run].
      unfold grid_next. rewrite H1. reflexivity.
    + cbn [g_todo g_n_iter g_min_val g_min_args g_diff g_step].
      split; [reflexivity |]. split; [exact H3 |]. split; [exact H4 |].
      split; [exact H8 |]. split; [exact H9 |]. split; [exact H6 |].
      rewrite H2. reflexivity.
Qed.

End GridRound.

Lemma Rltb_0_1 : Rltb 0 1 = true.
Proof. unfold Rltb. destruct (Rlt_dec 0 1); [reflexivity | lra]. Qed.

Lemma pow_075_decr (k d : nat) : 0.75 ^ (k + d) <= 0.75 ^ k.
Proof.
  induction d as [| d IH].
  - rewrite Nat.add_0_r. lra.
  - replace (k + S d)%nat with (S (k + d)) by lia. cbn [pow].
    assert (0 <= 0.75 ^ (k + d)) by (apply pow_le; lra). lra.
Qed.

Lemma pow_075_16 : 0.01 < 0.75 ^ 16.
Proof. cbn [pow]. lra. Qed.

Lemma pow_075_17 : 0.75 ^ 17 < 0.01.
Proof. cbn [pow]. lra. Qed.

Section GridFixedPoint.

Variable fn : list R -> pyfloat.
Variable bounds : option (list (list (option R))).
Variable x0 : list R.
Hypothesis no_better : forall a, pf_lt (fn a) (fn x0) = false.

(** The [for] loop of a round in which nothing improves. *)
Lemma grid_eval_all_fixed (l : list (list R)) (s : R) (d : pyfloat)
    (n : Z) :
  run (grid_next fn bounds) (length l)
      {| g_min_val := fn x0; g_min_args := x0; g_step := s; g_diff := d;
         g_n_iter := n; g_todo := Some l |}
  = ({| g_min_val := fn x0; g_min_args := x0; g_step := s; g_diff := d;
        g_n_iter := n; g_todo := Some [] |}, false).
Proof.
  induction l as [| c rest IH]; [reflexivity |].
  cbn [length run]. unfold grid_next at 1.
  cbn [g_todo g_min_val g_min_args g_step g_diff g_n_iter].
  rewrite no_better. exact IH.
Qed.

(** A round from the head of the loop. *)
Lemma grid_round_fixed (s : R) (d : pyfloat) (n : Z) :
  grid_continue {| g_min_val := fn x0; g_min_args := x0; g_step := s;
                   g_diff := d; g_n_iter := n; g_todo := None |} = true ->
  exists m,
    run (grid_next fn bounds) m
        {| g_min_val := fn x0; g_min_args := x0; g_step := s; g_diff := d;
           g_n_iter := n; g_todo := None |}
    = ({| g_min_val := fn x0; g_min_args := x0;
          g_step := 1 + (s - 1) * 0.75; g_diff := Fin 0;
          g_n_iter := (n + 1)%Z; g_todo := None |}, false).
Proof.
  intros Hc.
  exists (S (length (generate_grid bounds x0 s grid_depth) + 1)).
  cbn [run]. unfold grid_next at 1. cbn [g_todo]. rewrite Hc.
  cbn [g_min_val g_min_args g_step g_diff g_n_iter].
  rewrite (run_app _ _ 1 _ _ (grid_eval_all_fixed _ s (Fin 0) (n + 1)%Z)).
  cbn [run]. unfold grid_next.
  cbn [g_todo g_min_val g_min_args g_step g_diff g_n_iter pf_lt].
  rewrite Rltb_0_1. reflexivity.
Qed.

Lemma grid_fixed_continue (k : nat) :
  (k <= 16)%nat -> grid_continue (grid_fixed_state fn x0 k) = true.
Proof.
  intros Hk. unfold grid_continue, grid_fixed_state. cbn [g_diff g_step].
  destruct k as [| k].
  - cbn [pf_gt pf_lt]. unfold Rltb.
    destruct (Rlt_dec 0.1 1); [reflexivity | lra].
  - apply orb_true_iff. right. unfold Rltb.
    destruct (Rlt_dec 1.001 (1 + 0.1 * 0.75 ^ S k)) as [| N];
      [reflexivity |].
    exfalso. apply N.
    pose proof (pow_075_decr (S k) (16 - S k)) as Hd.
    replace (S k + (16 - S k))%nat with 16%nat in Hd by lia.
    pose proof pow_075_16. lra.
Qed.

Lemma grid_fixed_rounds (k : nat) :
  (k <= 17)%nat ->
  exists m,
    run (grid_next fn bounds) m (grid_init fn x0)
    = (grid_fixed_state fn x0 k, false).
Proof.
  induction k as [| k IH]; intros Hk.
  - exists 0%nat. cbn [run]. unfold grid_init, grid_fixed_state.
    cbn [pow Z.of_nat]. do 2 f_equal. lra.
  - destruct (IH ltac:(lia)) as [m Hm].
    destruct (grid_round_fixed (1 + 0.1 * 0.75 ^ k)
                (match k with O => Fin 1 | S _ => Fin 0 end) (Z.of_nat k)
                (grid_fixed_continue k ltac:(lia))) as [m' Hm'].
    exists (m + m')%nat. rewrite (run_app _ _ m' _ _ Hm).
    unfold grid_fixed_state at 1. rewrite Hm'.
    unfold grid_fixed_state. do 2 f_equal.
    + cbn [pow]. lra.
    + lia.
Qed.

Lemma grid_fixed_exit :
  grid_next fn bounds (grid_fixed_state fn x0 17) = None.
Proof.
  unfold grid_next, grid_fixed_state, grid_continue.
  cbn [g_todo g_diff g_step pf_gt pf_lt]. unfold Rltb.
  destruct (Rlt_dec 0.1 0); [lra |].
  destruct (Rlt_dec 1.001 (1 + 0.1 * 0.75 ^ 17)) as [H |]; [| reflexivity].
  pose proof pow_075_17. lra.
Qed.

Lemma grid_search_fixed_point :
  exists n,
    run (grid_next fn bounds) n (grid_init fn x0)
    = (grid_fixed_state fn x0 17, true).
Proof.
  destruct (grid_fixed_rounds 17 ltac:(lia)) as [m Hm].
  exists (m + 1)%nat. rewrite (run_app _ _ 1 _ _ Hm).
  cbn [run]. rewrite grid_fixed_exit. reflexivity.
Qed.

End GridFixedPoint.

(** C7: in [minimize_grid] every round runs to its end: the grid is built
    around the current point, each candidate is evaluated, the best value
    is kept, and [diff] ends as the decrease of the best objective value
    over the round ([0.0] when nothing improved); the round then sets the
    step to [1 + (step - 1) * 0.75] exactly when that decrease is below
    [1.0].  The loop exits only at its head, and there exactly when
    [diff <= 0.1] and the step is within [0.001] of [1], both together. *)
Theorem C7_grid_step_and_exit (fn : list R -> pyfloat)
    (bounds : option (list (list (option R)))) (x0 : list R)
    (st : grid_state) :
  reachable (grid_next fn bounds) (grid_init fn x0) st ->
  (g_todo st = None -> grid_next fn bounds st <> None ->
   exists n st',
     run (grid_next fn bounds) n st = (st', false)
     /\ g_todo st' = None
     /\ g_n_iter st' = (g_n_iter st + 1)%Z
     /\ g_min_val st' = fn (g_min_args st')
     /\ (forall c,
           In c (generate_grid bounds (g_min_args st) (g_step st)
                               grid_depth) ->
           pf_lt (fn c) (g_min_val st') = false)
     /\ (g_min_args st' = g_min_args st
         \/ In (g_min_args st')
               (generate_grid bounds (g_min_args st) (g_step st) grid_depth))
     /\ g_diff st' = decrease (g_min_val st) (g_min_val st')
     /\ (pf_lt (g_diff st') (Fin 1) = true ->
         g_step st' = 1 + (g_step st - 1) * 0.75)
     /\ (pf_lt (g_diff st') (Fin 1) = false -> g_step st' = g_step st))
  /\ (grid_next fn bounds st = None -> g_todo st = None)
  /\ (g_todo st = None ->
      (grid_next fn bounds st = None
       <-> pf_le (g_diff st) (Fin 0.1) = true
           /\ Rabs (g_step st - 1) <= 0.001)).
Proof.
  intros Hr. pose proof (grid_inv_reachable fn bounds x0 st Hr) as Hinv.
  split; [| split].
  - intros Ht Hn.
    assert (Hc : grid_continue st = true).
    { unfold grid_next in Hn. rewrite Ht in Hn.
      destruct (grid_continue st); [reflexivity |].
      exfalso. apply Hn. reflexivity. }
    destruct Hinv as [_ [_ [Hv _]]].
    destruct (grid_round fn bounds st Ht Hv Hc)
      as [n [st' [H1 [H2 [H3 [H4 [H5 [H6 [H7 H8]]]]]]]]].
    exists n, st'. split; [exact H1 |]. split; [exact H2 |].
    split; [exact H3 |]. split; [exact H4 |]. split; [exact H5 |].
    split; [exact H6 |]. split; [exact H7 |]. split.
    + intros E. rewrite H8, E. reflexivity.
    + intros E. rewrite H8, E. reflexivity.
  - apply grid_exit_at_head.
  - apply (grid_exit_iff fn bounds x0 st Hinv).
Qed.

Lemma C7_grid_step_and_exit_witness :
  (exists n st',
      run (grid_next sample_objective sample_bounds) n
          (grid_init sample_objective [10; 0.05]) = (st', false)
      /\ g_n_iter st' = 1%Z
      /\ g_diff st'
         = decrease (sample_objective [10; 0.05]) (g_min_val st'))
  /\ (grid_next (fun _ => Fin 0) None
                (grid_fixed_state (fun _ => Fin 0) [10; 0.05] 17) = None
      /\ pf_le (Fin 0) (Fin 0.1) = true
      /\ Rabs (1 + 0.1 * 0.75 ^ 17 - 1) <= 0.001).
Proof.
  split.
  - destruct (C7_grid_step_and_exit sample_objective sample_bounds
                [10; 0.05] (grid_init sample_objective [10; 0.05])
                (reach_start _ _)) as [H _].
    destruct H as [n [st' [H1 [_ [H3 [_ [_ [_ [H7 _]]]]]]]]].
    + reflexivity.
    + unfold grid_next, grid_continue, grid_init, pf_gt, pf_lt, Rltb.
      cbn [g_todo g_diff g_step].
      destruct (Rlt_dec 0.1 1); [discriminate | lra].
    + exists n, st'. split; [exact H1 |]. split; [exact H3 | exact H7].
  - assert (Hno : forall a : list R,
               pf_lt ((fun _ : list R => Fin 0) a)
                     ((fun _ : list R => Fin 0) [10; 0.05]) = false).
    { intros a. cbn [pf_lt]. unfold Rltb.
      destruct (Rlt_dec 0 0); [lra | reflexivity]. }
    destruct (grid_fixed_rounds (fun _ => Fin 0) None [10; 0.05] Hno 17
                ltac:(lia)) as [m Hm].
    destruct (C7_grid_step_and_exit (fun _ => Fin 0) None [10; 0.05]
                (grid_fixed_state (fun _ => Fin 0) [10; 0.05] 17)
                (run_reachable _ _ _ _ _ Hm)) as [_ [_ H]].
    pose proof (grid_fixed_exit (fun _ => Fin 0) None [10; 0.05]) as Hex.
    split; [exact Hex |].
    apply (H eq_refl). exact Hex.
Defined.

(** C8: a [KeyboardInterrupt] at any moment of the search loop of
    [minimize_grid] or [minimize_hillclimbing] is caught: the function
    returns, without an exception, its current [min_args]; no candidate
    evaluated so far has a smaller objective value than the returned point,
    and the returned point is the initial guess or strictly better than it,
    so its objective value is never greater than that of the initial
    guess.  (For an empty initial guess [minimize_hillclimbing] raises
    before its loop, in [random.randrange(0)].) *)
Theorem C8_interrupt_returns_best (fn : list R -> pyfloat)
    (bounds : option (list (list (option R)))) (iterations : Z)
    (rnd : nat -> Z) (x0 : list R) (interrupt : nat) :
  (no_worse fn x0 (minimize_grid fn bounds x0 interrupt)
   /\ pf_gt (fn (minimize_grid fn bounds x0 interrupt)) (fn x0) = false
   /\ forall c,
        In c (grid_evaluated fn bounds interrupt (grid_init fn x0)) ->
        pf_lt (fn c) (fn (minimize_grid fn bounds x0 interrupt)) = false)
  /\ (x0 <> [] ->
      exists y,
        minimize_hillclimbing fn bounds iterations rnd x0 interrupt = Ok y
        /\ no_worse fn x0 y
        /\ pf_gt (fn y) (fn x0) = false
        /\ forall c,
             In c (hc_evaluated fn bounds iterations rnd interrupt
                     (hc_init fn x0)) ->
             pf_lt (fn c) (fn y) = false).
Proof.
  split.
  - pose proof (minimize_grid_no_worse fn bounds x0 interrupt) as H.
    split; [exact H |]. split.
    + exact (no_worse_not_greater fn x0 _ H).
    + intros c. apply minimize_grid_best.
  - intros Hne.
    destruct (minimize_hillclimbing_best fn bounds iterations rnd x0
                interrupt Hne) as [y [H1 [H2 H3]]].
    exists y. split; [exact H1 |]. split; [exact H2 |]. split.
    + exact (no_worse_not_greater fn x0 y H2).
    + exact H3.
Qed.

Lemma C8_interrupt_returns_best_witness :
  pf_gt (sample_objective (minimize_grid sample_objective sample_bounds
                             [10; 0.05] 40))
        (sample_objective [10; 0.05]) = false
  /\ exists y,
       minimize_hillclimbing sample_objective sample_bounds 1000
         (fun i => Z.of_nat i) [10; 0.05] 40 = Ok y
       /\ pf_gt (sample_objective y) (sample_objective [10; 0.05]) = false.
Proof.
  destruct (C8_interrupt_returns_best sample_objective sample_bounds 1000
              (fun i => Z.of_nat i) [10; 0.05] 40)
    as [[_ [H1 _]] H].
  destruct H as [y [H2 [_ [H3 _]]]]; [discriminate |].
  split; [exact H1 |]. exists y. split; assumption.
Defined.

(** * Further properties of the code *)

(** ** The repeat-count prior *)

Lemma b_o_tail (q1 q2 q : R) (n : nat) :
  b_o q1 q2 q (Z.of_nat n + 3)
  = (1 - q1) * (1 - q2) * q * (1 - q) ^ n.
Proof.
  unfold b_o, py_pow.
  destruct (Z.eqb_spec (Z.of_nat n + 3) 1); [lia |].
  destruct (Z.eqb_spec (Z.of_nat n + 3) 2); [lia |].
  replace (Z.of_nat n + 3 - 3)%Z with (Z.of_nat n) by lia.
  rewrite <- pow_powerRZ. reflexivity.
Qed.

Lemma b_o_partial_sum_nat (q1 q2 q : R) (n : nat) :
  py_sum (map (b_o q1 q2 q) (range 1 (Z.of_nat n + 3)))
  = 1 - (1 - q1) * (1 - q2) * (1 - q) ^ n.
Proof.
  induction n as [| n IH].
  - change (range 1 (Z.of_nat 0 + 3)) with [1; 2]%Z. cbn [map].
    rewrite !py_sum_cons, py_sum_nil.
    change (b_o q1 q2 q 1) with q1.
    change (b_o q1 q2 q 2) with ((1 - q1) * q2).
    simpl. lra.
  - replace (Z.of_nat (S n) + 3)%Z with ((Z.of_nat n + 3) + 1)%Z by lia.
    rewrite range_snoc by lia. rewrite map_app, py_sum_app, IH.
    cbn [map]. rewrite py_sum_cons, py_sum_nil, b_o_tail.
    simpl. lra.
Qed.

Lemma b_o_nonneg (q1 q2 q : R) (o : Z) :
  0 <= q1 <= 1 -> 0 <= q2 <= 1 -> 0 <= q <= 1 -> (1 <= o)%Z ->
  0 <= b_o q1 q2 q o.
Proof.
  intros H1 H2 H3 Ho. unfold b_o, py_pow.
  destruct (Z.eqb_spec o 1); [lra |].
  destruct (Z.eqb_spec o 2); [apply Rmult_le_pos; lra |].
  replace (o - 3)%Z with (Z.of_nat (Z.to_nat (o - 3))) by lia.
  rewrite <- pow_powerRZ.
  apply Rmult_le_pos; [| apply pow_le; lra].
  apply Rmult_le_pos; [| lra].
  apply Rmult_le_pos; lra.
Qed.

Lemma b_o_partial_sum_le_1 (q1 q2 q : R) (b : Z) :
  0 <= q1 <= 1 -> 0 <= q2 <= 1 -> 0 <= q <= 1 ->
  py_sum (map (b_o q1 q2 q) (range 1 b)) <= 1.
Proof.
  intros H1 H2 H3.
  destruct (Z.le_gt_cases b 1) as [Hb | Hb].
  { rewrite range_empty by lia. simpl. rewrite py_sum_nil. lra. }
  destruct (Z.eq_dec b 2) as [-> | Hb2].
  { change (range 1 2) with [1%Z]. cbn [map].
    rewrite py_sum_cons, py_sum_nil.
    change (b_o q1 q2 q 1) with q1. lra. }
  replace b with (Z.of_nat (Z.to_nat (b - 3)) + 3)%Z by lia.
  rewrite b_o_partial_sum_nat.
  assert (0 <= (1 - q) ^ Z.to_nat (b - 3)) by (apply pow_le; lra).
  assert (0 <= (1 - q1) * (1 - q2)) by (apply Rmult_le_pos; lra).
  assert (0 <= (1 - q1) * (1 - q2) * (1 - q) ^ Z.to_nat (b - 3))
    by (apply Rmult_le_pos; assumption).
  lra.
Qed.

(** X1: the prior telescopes: for [n >= 2] the sum of [b_o(o)] over
    [o = 1 .. n] is [1 - (1 - q1) * (1 - q2) * (1 - q)^(n - 2)], whatever the
    weights. *)
Theorem X1_b_o_partial_sum (q1 q2 q : R) (n : Z) :
  (2 <= n)%Z ->
  py_sum (map (b_o q1 q2 q) (range 1 (n + 1)))
  = 1 - (1 - q1) * (1 - q2) * py_pow (1 - q) (n - 2).
Proof.
  intros Hn.
  replace (n + 1)%Z with (Z.of_nat (Z.to_nat (n - 2)) + 3)%Z by lia.
  rewrite b_o_partial_sum_nat. unfold py_pow.
  rewrite pow_powerRZ. do 3 f_equal. lia.
Qed.

Lemma X1_b_o_partial_sum_witness :
  py_sum (map (b_o 0.5 0.5 0.5) (range 1 (4 + 1)))
  = 1 - (1 - 0.5) * (1 - 0.5) * py_pow (1 - 0.5) (4 - 2).
Proof. apply (X1_b_o_partial_sum 0.5 0.5 0.5 4). lia. Defined.

(** X2: for weights in [[0, 1]] every [b_o(o)], [o >= 1], is non-negative
    and no partial sum of the prior exceeds [1]. *)
Theorem X2_b_o_is_subprobability (q1 q2 q : R) :
  0 <= q1 <= 1 -> 0 <= q2 <= 1 -> 0 <= q <= 1 ->
  (forall o, (1 <= o)%Z -> 0 <= b_o q1 q2 q o)
  /\ forall n, 0 <= py_sum (map (b_o q1 q2 q) (range 1 n)) <= 1.
Proof.
  intros H1 H2 H3. split.
  - intros o Ho. apply b_o_nonneg; assumption.
  - intros n. split.
    + apply py_sum_map_nonneg. intros o Ho. apply in_range in Ho.
      apply b_o_nonneg; try assumption. lia.
    + apply b_o_partial_sum_le_1; assumption.
Qed.

Lemma X2_b_o_is_subprobability_witness :
  0 <= py_sum (map (b_o 0.3 0.5 0.25) (range 1 10)) <= 1.
Proof.
  destruct (X2_b_o_is_subprobability 0.3 0.5 0.25) as [_ H]; try lra.
  apply H.
Defined.

(** ** The truncation bound *)

Lemma find_range_inv (f : Z -> bool) (d : nat) (a b t : Z) :
  d = Z.to_nat (b - a) ->
  find f (range a b) = Some t ->
  (a <= t < b)%Z /\ f t = true /\ forall o, (a <= o < t)%Z -> f o = false.
Proof.
  revert a. induction d as [| d IH]; intros a Hd H.
  - rewrite range_empty in H by lia. discriminate.
  - rewrite range_cons in H by lia. simpl in H.
    destruct (f a) eqn:E.
    + injection H as <-. split; [lia |]. split; [exact E |].
      intros o Ho. lia.
    + destruct (IH (a + 1)%Z ltac:(lia) H) as [H1 [H2 H3]].
      split; [lia |]. split; [exact H2 |].
      intros o Ho. destruct (Z.eq_dec o a) as [-> | Hne]; [exact E |].
      apply H3. lia.
Qed.

Lemma find_range_none (f : Z -> bool) (a b : Z) :
  find f (range a b) = None -> forall o, (a <= o < b)%Z -> f o = false.
Proof.
  intros H o Ho.
  apply (find_none f (range a b) H). apply in_range. exact Ho.
Qed.

(** X3: the search for the truncation bound returns [Some t] exactly when
    [t] is the least [o >= 1] whose prior is below the tolerance and
    [t < hist_size]; it returns [None] exactly when no [o] of
    [1 .. hist_size-1] has its prior below the tolerance, and always when no
    tolerance is given. *)
Theorem X3_find_treshold_o_least (q1 q2 q tol : R) (hist_size : Z) :
  (forall t,
      find_treshold_o q1 q2 q hist_size (Some tol) = Some t
      <-> is_ostar q1 q2 q tol t /\ (t < hist_size)%Z)
  /\ (find_treshold_o q1 q2 q hist_size (Some tol) = None
      <-> forall o, (1 <= o < hist_size)%Z -> ~ b_o q1 q2 q o < tol)
  /\ find_treshold_o q1 q2 q hist_size None = None.
Proof.
  split; [| split].
  - intros t. split.
    + unfold find_treshold_o. intros H.
      destruct (find_range_inv _ _ 1 hist_size t eq_refl H) as [H1 [H2 H3]].
      split; [| lia]. split; [lia |]. split.
      * apply Rltb_iff. exact H2.
      * intros o Ho Hlt. apply Rltb_iff in Hlt.
        rewrite (H3 o Ho) in Hlt. discriminate.
    + intros [Hs Ht]. rewrite (find_treshold_o_spec _ _ _ _ _ _ Hs).
      destruct (Z.ltb_spec t hist_size); [reflexivity | lia].
  - unfold find_treshold_o. split.
    + intros H o Ho Hlt. apply Rltb_iff in Hlt.
      rewrite (find_range_none _ _ _ H o Ho) in Hlt. discriminate.
    + intros H. apply find_all_false. intros o Ho. apply in_range in Ho.
      apply Rltb_false. apply Rnot_lt_le. apply H. exact Ho.
  - reflexivity.
Qed.

(** ** The shape of the repeat table *)

Lemma conv_row_triangular (v : Z -> R) (n : nat) (j : Z) :
  (1 <= j <= Z.of_nat n)%Z -> conv_row v n j = 0.
Proof.
  revert j. induction n as [| n IH]; intros j Hj; [lia |].
  cbn [conv_row]. apply py_sum_map_zero.
  intros i Hi. apply in_range in Hi.
  rewrite IH by lia. lra.
Qed.

Lemma py_index_beyond {A : Type} (l : list A) (i : Z) :
  (len l <= i)%Z -> py_index l i = Raise IndexError.
Proof.
  intros H. unfold py_index, len in *.
  destruct (Z.ltb_spec i 0); [lia |].
  destruct (Z.ltb_spec i 0); [lia |].
  destruct (nth_error l (Z.to_nat i)) eqn:E; [| reflexivity].
  assert (Hlt : (Z.to_nat i < length l)%nat)
    by (apply nth_error_Some; rewrite E; discriminate).
  lia.
Qed.

(** X4: the repeat table is triangular: in every table
    [compute_repeat_table] returns, [p_oj[o][j]] is exactly [0] for every
    built row [o >= 2] and every [j < o]. *)
Theorem X4_repeat_table_triangular (M : libm) (r k : Z) (c err : R)
    (hist_size : Z) (treshold_o : option Z) (p_oj : list (list cell))
    (o j : Z) :
  compute_repeat_table M r k c err hist_size treshold_o = Ok p_oj ->
  (2 <= o < len p_oj)%Z -> (1 <= j < o)%Z -> (j < hist_size)%Z ->
  table_get p_oj o j = Ok 0.
Proof.
  intros Ht Ho Hj Hh.
  destruct (compute_repeat_table_inv _ _ _ _ _ _ _ _ Ht) as [p Hp].
  destruct (compute_probabilities_shape _ _ _ _ _ _ _ Hp) as [v ->].
  rewrite (compute_repeat_table_closed _ _ _ _ _ _ treshold_o v Hp) in Ht.
  injection Ht as <-.
  rewrite table_of_len in Ho by lia.
  rewrite table_of_get by lia.
  rewrite conv_row_triangular by lia. reflexivity.
Qed.

Lemma X4_repeat_table_triangular_witness :
  table_get (table_of 4 (p_j_exact 100 20 10 0.05) 3) 3 2 = Ok 0.
Proof.
  apply (X4_repeat_table_triangular exact_libm 100 20 10 0.05 4 None).
  - apply (compute_repeat_table_closed exact_libm 100 20 10 0.05 4 None).
    apply compute_probabilities_exact. lia.
  - rewrite table_of_len by lia. lia.
  - lia.
  - lia.
Defined.

(** X5: the table [compute_repeat_table] returns has [max(2, treshold_o)]
    rows ([max(2, hist_size)] without a threshold), the placeholder row
    [[None]] first, and each further row has [max(1, hist_size)] cells. *)
Theorem X5_repeat_table_dimensions (M : libm) (r k : Z) (c err : R)
    (hist_size : Z) (treshold_o : option Z) (p_oj : list (list cell)) :
  compute_repeat_table M r k c err hist_size treshold_o = Ok p_oj ->
  len p_oj = Z.max 2 (match treshold_o with
                      | Some t => t
                      | None => hist_size
                      end)
  /\ py_index p_oj 0 = Ok [PyNone]
  /\ forall o, (1 <= o < len p_oj)%Z ->
       exists row, py_index p_oj o = Ok row
                   /\ len row = Z.max 1 hist_size.
Proof.
  intros Ht.
  destruct (compute_repeat_table_inv _ _ _ _ _ _ _ _ Ht) as [p Hp].
  destruct (compute_probabilities_shape _ _ _ _ _ _ _ Hp) as [v ->].
  rewrite (compute_repeat_table_closed _ _ _ _ _ _ treshold_o v Hp) in Ht.
  injection Ht as <-.
  rewrite table_of_len by lia.
  split; [destruct treshold_o; lia |]. split; [reflexivity |].
  intros o Ho. eexists. split.
  - apply table_of_row. lia.
  - unfold len. cbn [length]. rewrite length_map, range_length. lia.
Qed.

Lemma X5_repeat_table_dimensions_witness :
  len (table_of 4 (p_j_exact 100 20 10 0.05) 3) = 4%Z.
Proof.
  destruct (X5_repeat_table_dimensions exact_libm 100 20 10 0.05 4 None
              (table_of 4 (p_j_exact 100 20 10 0.05) 3)) as [H _].
  - apply (compute_repeat_table_closed exact_libm 100 20 10 0.05 4 None).
    apply compute_probabilities_exact. lia.
  - exact H.
Defined.

(** ** The marginal closure at and beyond the edges of the table *)

Lemma find_treshold_o_range (q1 q2 q : R) (hist_size : Z)
    (treshold : option R) (t : Z) :
  find_treshold_o q1 q2 q hist_size treshold = Some t ->
  (1 <= t < hist_size)%Z.
Proof.
  unfold find_treshold_o. destruct treshold as [tol |]; [| discriminate].
  intros H.
  destruct (find_range_inv _ _ 1 hist_size t eq_refl H) as [H1 _]. exact H1.
Qed.

Lemma marginal_below_one (q1 q2 q : R) (p_oj : list (list cell))
    (treshold_o : option Z) (j : Z) :
  (j <= 0)%Z -> marginal q1 q2 q p_oj treshold_o j = Ok 0.
Proof.
  intros Hj. unfold marginal.
  rewrite range_empty by (destruct treshold_o; lia). reflexivity.
Qed.

Lemma marginal_table_of_beyond (hist_size : Z) (v : Z -> R) (n : Z)
    (q1 q2 q : R) (treshold_o : option Z) (j : Z) :
  (1 <= n)%Z -> (1 <= j)%Z -> (hist_size <= j)%Z ->
  match treshold_o with
  | Some t => (2 <= t)%Z
  | None => True
  end ->
  marginal q1 q2 q (table_of hist_size v n) treshold_o j = Raise IndexError.
Proof.
  intros Hn Hj Hh Ht. unfold marginal.
  rewrite range_cons by (destruct treshold_o; lia).
  cbn [mapM]. unfold table_get at 1.
  rewrite table_of_row by lia. cbn [bind].
  rewrite py_index_beyond; [reflexivity |].
  unfold len. cbn [length]. rewrite length_map, range_length. lia.
Qed.

(** X6: the function [compute_probabilities_with_repeats] returns never
    raises inside the table: for every [j] with [1 <= j < hist_size] it
    returns a number, whatever the weights, the tolerance and the numeric
    library. *)
Theorem X6_marginal_defined_in_range (M : libm) (r k : Z)
    (c err q1 q2 q : R) (hist_size : Z) (treshold : option R)
    (p_j : Z -> res R) (j : Z) :
  compute_probabilities_with_repeats M r k c err q1 q2 q hist_size treshold
  = Ok p_j ->
  (1 <= j < hist_size)%Z ->
  exists x, p_j j = Ok x.
Proof.
  unfold compute_probabilities_with_repeats. intros H Hj.
  apply bind_Ok_inv in H. destruct H as [p_oj [Ht H]].
  injection H as <-.
  destruct (compute_repeat_table_inv _ _ _ _ _ _ _ _ Ht) as [p Hp].
  destruct (compute_probabilities_shape _ _ _ _ _ _ _ Hp) as [v ->].
  rewrite (compute_repeat_table_closed _ _ _ _ _ _ _ v Hp) in Ht.
  injection Ht as <-.
  destruct (find_treshold_o q1 q2 q hist_size treshold) as [t |] eqn:E.
  - apply find_treshold_o_range in E.
    eexists. apply marginal_table_of; [exact Hj | reflexivity | lia].
  - eexists. apply marginal_table_of; [exact Hj | reflexivity | lia].
Qed.

Lemma X6_marginal_defined_in_range_witness :
  exists x,
    marginal 0.5 0.5 0.5
      (table_of 4 (p_j_exact 100 20 10 0.05) 3)
      (find_treshold_o 0.5 0.5 0.5 4 None) 3 = Ok x.
Proof.
  apply (X6_marginal_defined_in_range exact_libm 100 20 10 0.05
           0.5 0.5 0.5 4 None).
  - unfold compute_probabilities_with_repeats.
    rewrite (compute_repeat_table_closed exact_libm 100 20 10 0.05 4
               (find_treshold_o 0.5 0.5 0.5 4 None)
               (p_j_exact 100 20 10 0.05)
               (compute_probabilities_exact 100 20 10 0.05 4 ltac:(lia))).
    reflexivity.
  - lia.
Defined.

(** X7: outside the table the closure does not extrapolate: at [j <= 0]
    its sum is empty and it returns [0]; at [j >= hist_size] (with [j >= 1])
    it raises [IndexError], unless the truncation bound is [1], where the
    sum is empty for every [j]. *)
Theorem X7_marginal_outside_table (M : libm) (r k : Z)
    (c err q1 q2 q : R) (hist_size : Z) (treshold : option R)
    (p_j : Z -> res R) :
  compute_probabilities_with_repeats M r k c err q1 q2 q hist_size treshold
  = Ok p_j ->
  (forall j, (j <= 0)%Z -> p_j j = Ok 0)
  /\ (forall j, (1 <= j)%Z -> (hist_size <= j)%Z ->
        find_treshold_o q1 q2 q hist_size treshold <> Some 1%Z ->
        p_j j = Raise IndexError)
  /\ (find_treshold_o q1 q2 q hist_size treshold = Some 1%Z ->
      forall j, p_j j = Ok 0).
Proof.
  unfold compute_probabilities_with_repeats. intros H.
  apply bind_Ok_inv in H. destruct H as [p_oj [Ht H]].
  injection H as <-.
  split; [| split].
  - intros j Hj. apply marginal_below_one. exact Hj.
  - intros j Hj Hh Hne.
    destruct (compute_repeat_table_inv _ _ _ _ _ _ _ _ Ht) as [p Hp].
    destruct (compute_probabilities_shape _ _ _ _ _ _ _ Hp) as [v ->].
    rewrite (compute_repeat_table_closed _ _ _ _ _ _ _ v Hp) in Ht.
    injection Ht as <-.
    apply marginal_table_of_beyond; try lia.
    destruct (find_treshold_o q1 q2 q hist_size treshold) as [t |] eqn:E;
      [| exact I].
    apply find_treshold_o_range in E.
    destruct (Z.eq_dec t 1) as [-> | Hn]; [contradiction Hne; reflexivity |].
    lia.
  - intros E j. rewrite E. unfold marginal.
    rewrite range_empty by lia. reflexivity.
Qed.

Lemma X7_marginal_outside_table_witness :
  marginal 0.5 0.5 0.5
    (table_of 4 (p_j_exact 100 20 10 0.05) 3)
    (find_treshold_o 0.5 0.5 0.5 4 None) 4 = Raise IndexError.
Proof.
  destruct (X7_marginal_outside_table exact_libm 100 20 10 0.05
              0.5 0.5 0.5 4 None
              (marginal 0.5 0.5 0.5
                 (table_of 4 (p_j_exact 100 20 10 0.05) 3)
                 (find_treshold_o 0.5 0.5 0.5 4 None)))
    as [_ [H _]].
  - unfold compute_probabilities_with_repeats.
    rewrite (compute_repeat_table_closed exact_libm 100 20 10 0.05 4
               (find_treshold_o 0.5 0.5 0.5 4 None)
               (p_j_exact 100 20 10 0.05)
               (compute_probabilities_exact 100 20 10 0.05 4 ltac:(lia))).
    reflexivity.
  - apply H; [lia | lia | discriminate].
Defined.

(** ** Probabilities in the repeat model *)

Lemma conv_row_nonneg (v : Z -> R) (n : nat) :
  (forall j, (1 <= j)%Z -> 0 <= v j) ->
  forall j, (1 <= j)%Z -> 0 <= conv_row v n j.
Proof.
  intros Hv. induction n as [| n IH]; intros j Hj; cbn [conv_row].
  - apply Hv. exact Hj.
  - apply py_sum_map_nonneg. intros i Hi. apply in_range in Hi.
    apply Rmult_le_pos; [apply Hv | apply IH]; lia.
Qed.

Lemma conv_row_le_1 (v : Z -> R) (n : nat) :
  (forall j, (1 <= j)%Z -> 0 <= v j <= 1) ->
  (forall b, py_sum (map v (range 1 b)) <= 1) ->
  forall j, (1 <= j)%Z -> conv_row v n j <= 1.
Proof.
  intros Hv Hs. induction n as [| n IH]; intros j Hj; cbn [conv_row].
  - apply Hv. exact Hj.
  - apply Rle_trans with (py_sum (map v (range 1 j))); [| apply Hs].
    apply py_sum_map_le. intros i Hi. apply in_range in Hi.
    pose proof (Hv i ltac:(lia)) as H1.
    pose proof (IH (j - i)%Z ltac:(lia)) as H2.
    rewrite <- (Rmult_1_r (v i)) at 2.
    apply Rmult_le_compat_l; lra.
Qed.

Section RepeatProbabilities.

Variables (r k : Z) (c err : R).
Hypothesis Hrk : (0 <= k < r)%Z.
Hypothesis Hc : 0 < c.
Hypothesis Herr : 0 <= err < 1.

Lemma exact_table_entry_nonneg (n : nat) (j : Z) :
  (1 <= j)%Z -> 0 <= conv_row (p_j_exact r k c err) n j.
Proof.
  apply conv_row_nonneg. intros i Hi.
  apply p_j_exact_bounds; assumption.
Qed.

Lemma exact_table_entry_le_1 (n : nat) (j : Z) :
  (forall s, (0 <= s <= k)%Z ->
             lambda_s r k c err s = 0 \/ 1e-8 < lambda_s r k c err s) ->
  (1 <= j)%Z -> conv_row (p_j_exact r k c err) n j <= 1.
Proof.
  intros Hl. apply conv_row_le_1.
  - intros i Hi. apply p_j_exact_bounds; assumption.
  - intros b. apply p_j_exact_sum_le_1; assumption.
Qed.

Lemma exact_repeat_table (hist_size : Z) (treshold_o : option Z) :
  compute_repeat_table exact_libm r k c err hist_size treshold_o
  = Ok (table_of hist_size (p_j_exact r k c err)
          (Z.max 1 (match treshold_o with
                    | None => hist_size
                    | Some t => t
                    end - 1))).
Proof.
  apply compute_repeat_table_closed.
  apply compute_probabilities_exact. lia.
Qed.

Lemma exact_marginal (q1 q2 q : R) (hist_size : Z) (treshold : option R)
    (j : Z) :
  (1 <= j < hist_size)%Z ->
  exists u n,
    marginal q1 q2 q
      (table_of hist_size (p_j_exact r k c err)
         (Z.max 1 (match find_treshold_o q1 q2 q hist_size treshold with
                   | None => hist_size
                   | Some t => t
                   end - 1)))
      (find_treshold_o q1 q2 q hist_size treshold) j
    = Ok (py_sum (map (fun o => b_o q1 q2 q o
                                * conv_row (p_j_exact r k c err)
                                    (Z.to_nat (o - 1)) j)
                      (range 1 u)))
    /\ (u - 1 <= n)%Z.
Proof.
  intros Hj.
  set (n := Z.max 1 _).
  set (u := match find_treshold_o q1 q2 q hist_size treshold with
            | Some t => Z.min (j + 1) t
            | None => (j + 1)%Z
            end).
  assert (Hu : (u - 1 <= n)%Z).
  { unfold u, n.
    destruct (find_treshold_o q1 q2 q hist_size treshold) as [t |] eqn:E;
      [apply find_treshold_o_range in E |]; lia. }
  exists u, n. split; [| exact Hu].
  rewrite (marginal_table_of hist_size _ n q1 q2 q _ j u Hj eq_refl Hu).
  f_equal. apply py_sum_map_ext. intros o Ho. apply in_range in Ho.
  rewrite table_of_val by lia. reflexivity.
Qed.

End RepeatProbabilities.





(** ** The histogram [load_dist] builds *)

Lemma read_lines_snoc (lines : list (Z * Z)) (l : Z * Z) :
  read_lines (lines ++ [l]) = load_line (read_lines lines) l.
Proof. unfold read_lines. rewrite fold_left_app. reflexivity. Qed.

Lemma hist_read_lines (lines : list (Z * Z)) (b : Z) :
  hist (read_lines lines) b = last_count lines b.
Proof.
  induction lines as [| [i cnt] lines IH] using rev_ind.
  - reflexivity.
  - rewrite read_lines_snoc. unfold last_count.
    rewrite rev_unit. cbn [load_line hist find fst snd].
    rewrite Z.eqb_sym.
    destruct (i =? b)%Z; [reflexivity | exact IH].
Qed.

Lemma max_hist_read_lines_ge (lines : list (Z * Z)) (l : Z * Z) :
  In l lines -> (fst l <= max_hist (read_lines lines))%Z.
Proof.
  induction lines as [| [i cnt] lines IH] using rev_ind; [intros [] |].
  rewrite read_lines_snoc. cbn [load_line max_hist].
  intros H. apply in_app_or in H. destruct H as [H | [<- | []]].
  - specialize (IH H). lia.
  - simpl. lia.
Qed.

Lemma last_count_absent (lines : list (Z * Z)) (b : Z) :
  ~ In b (map fst lines) -> last_count lines b = 0%Z.
Proof.
  intros H. unfold last_count.
  rewrite find_all_false; [reflexivity |].
  intros l Hl. apply in_rev in Hl.
  destruct (Z.eqb_spec (fst l) b) as [E | _]; [| reflexivity].
  exfalso. apply H. rewrite <- E. apply in_map. exact Hl.
Qed.

Lemma NoDup_fst_functional (lines : list (Z * Z)) (b x y : Z) :
  NoDup (map fst lines) -> In (b, x) lines -> In (b, y) lines -> x = y.
Proof.
  induction lines as [| [i cnt] lines IH]; intros Hnd Hx Hy; [destruct Hx |].
  simpl in Hnd. inversion Hnd as [| ? ? Hnotin Hnd']; subst.
  destruct Hx as [Hx | Hx], Hy as [Hy | Hy].
  - congruence.
  - injection Hx as -> ->. exfalso. apply Hnotin.
    apply (in_map fst) in Hy. exact Hy.
  - injection Hy as -> ->. exfalso. apply Hnotin.
    apply (in_map fst) in Hx. exact Hx.
  - exact (IH Hnd' Hx Hy).
Qed.

Lemma last_count_present (lines : list (Z * Z)) (b cnt : Z) :
  NoDup (map fst lines) -> In (b, cnt) lines -> last_count lines b = cnt.
Proof.
  intros Hnd Hin. unfold last_count.
  destruct (find (fun l => (fst l =? b)%Z) (rev lines)) as [[i x] |] eqn:E.
  - apply find_some in E. destruct E as [Hl Hb].
    apply in_rev in Hl. simpl in Hb. apply Z.eqb_eq in Hb. subst i.
    simpl. exact (NoDup_fst_functional lines b x cnt Hnd Hl Hin).
  - exfalso. apply in_rev in Hin.
    pose proof (find_none _ _ E _ Hin) as H. simpl in H.
    rewrite Z.eqb_refl in H. discriminate.
Qed.

Lemma dense_index (lines : list (Z * Z)) (j : Z) :
  (0 <= j < max_hist (read_lines lines))%Z ->
  py_index (map (hist (read_lines lines))
                (range 0 (max_hist (read_lines lines)))) j
  = Ok (last_count lines j).
Proof.
  intros Hj. rewrite (py_index_map_range0 (hist (read_lines lines))) by exact Hj.
  rewrite hist_read_lines. reflexivity.
Qed.

(** X10: below the largest level the dense sequence of an untrimmed
    [load_dist] is a faithful lookup table: [hist_l[j]] is the count of the
    last line given for the level [j], and [0] for a level with no line; for
    an input with one line per level it is that line's count. *)
Theorem X10_load_dist_lookup (M : libm) (lines : list (Z * Z)) :
  exists all_kmers unique observed_ones hist_l,
    load_dist M lines None None
    = Ok (all_kmers, unique, observed_ones, hist_l)
    /\ (forall j, (0 <= j < max_hist (read_lines lines))%Z ->
          py_index hist_l j = Ok (last_count lines j))
    /\ (forall j, (0 <= j < max_hist (read_lines lines))%Z ->
          ~ In j (map fst lines) -> py_index hist_l j = Ok 0%Z)
    /\ (NoDup (map fst lines) ->
        forall j cnt, In (j, cnt) lines ->
          (0 <= j < max_hist (read_lines lines))%Z ->
          py_index hist_l j = Ok cnt).
Proof.
  do 4 eexists. split; [reflexivity |]. split; [| split].
  - intros j Hj. apply dense_index. exact Hj.
  - intros j Hj Hn. rewrite dense_index by exact Hj.
    rewrite last_count_absent by exact Hn. reflexivity.
  - intros Hnd j cnt Hin Hj. rewrite dense_index by exact Hj.
    rewrite (last_count_present lines j cnt Hnd Hin). reflexivity.
Qed.

(** ** The aggregates against the histogram *)

Lemma fold_left_Zadd_acc (l : list Z) (a : Z) :
  fold_left Z.add l a = (a + fold_left Z.add l 0)%Z.
Proof.
  revert a. induction l as [| x t IH]; intros a; simpl; [lia |].
  rewrite (IH (a + x)%Z), (IH x). lia.
Qed.

Lemma sum_Z_cons (x : Z) (l : list Z) : sum_Z (x :: l) = (x + sum_Z l)%Z.
Proof. unfold sum_Z. simpl. rewrite fold_left_Zadd_acc. lia. Qed.

Lemma sum_Z_app (l1 l2 : list Z) :
  sum_Z (l1 ++ l2) = (sum_Z l1 + sum_Z l2)%Z.
Proof.
  induction l1 as [| x t IH]; simpl; [reflexivity |].
  rewrite !sum_Z_cons, IH. lia.
Qed.

Lemma sum_Z_map_zero {A : Type} (f : A -> Z) (l : list A) :
  (forall a, In a l -> f a = 0%Z) -> sum_Z (map f l) = 0%Z.
Proof.
  induction l as [| x t IH]; intros H; simpl; [reflexivity |].
  rewrite sum_Z_cons, (H x (or_introl eq_refl)).
  rewrite IH by (intros a Ha; apply H; right; exact Ha). reflexivity.
Qed.

Lemma range_app (a m b : Z) :
  (a <= m <= b)%Z -> range a b = range a m ++ range m b.
Proof.
  intros H. remember (Z.to_nat (m - a)) as d eqn:Hd.
  revert a H Hd. induction d as [| d IH]; intros a H Hd.
  - assert (a = m) by lia. subst a.
    rewrite (range_empty m m) by lia. reflexivity.
  - rewrite (range_cons a b), (range_cons a m) by lia.
    cbn [app]. f_equal. apply IH; lia.
Qed.

(** A sum over a range of a function changed at one point. *)
Lemma sum_Z_range_update (f : Z -> Z) (a b i x : Z) :
  (a <= i < b)%Z ->
  sum_Z (map (fun y => if (y =? i)%Z then x else f y) (range a b))
  = (sum_Z (map f (range a b)) - f i + x)%Z.
Proof.
  intros H.
  rewrite (range_app a i b) by lia.
  rewrite (range_cons i b) by lia.
  rewrite !map_app, !sum_Z_app. cbn [map]. rewrite !sum_Z_cons.
  rewrite Z.eqb_refl.
  rewrite (map_ext_in (fun y => if (y =? i)%Z then x else f y) f
             (range a i)).
  2:{ intros y Hy. apply in_range in Hy.
      destruct (Z.eqb_spec y i); [lia | reflexivity]. }
  rewrite (map_ext_in (fun y => if (y =? i)%Z then x else f y) f
             (range (i + 1) b)).
  2:{ intros y Hy. apply in_range in Hy.
      destruct (Z.eqb_spec y i); [lia | reflexivity]. }
  lia.
Qed.

Lemma sum_Z_range_unchanged (f : Z -> Z) (a b i x : Z) :
  (i < a)%Z ->
  sum_Z (map (fun y => if (y =? i)%Z then x else f y) (range a b))
  = sum_Z (map f (range a b)).
Proof.
  intros H. f_equal. apply map_ext_in. intros y Hy. apply in_range in Hy.
  destruct (Z.eqb_spec y i); [lia | reflexivity].
Qed.

Lemma hist_beyond_max (lines : list (Z * Z)) (b : Z) :
  (max_hist (read_lines lines) < b)%Z -> hist (read_lines lines) b = 0%Z.
Proof.
  intros H. rewrite hist_read_lines. apply last_count_absent.
  intros Hin. apply in_map_iff in Hin. destruct Hin as [l [<- Hl]].
  pose proof (max_hist_read_lines_ge lines l Hl). lia.
Qed.

(** Extending the range past the largest level adds nothing. *)
Lemma sum_hist_extend (lines : list (Z * Z)) (m : Z) :
  (max_hist (read_lines lines) <= m)%Z ->
  sum_Z (map (hist (read_lines lines)) (range 2 (m + 1)))
  = sum_Z (map (hist (read_lines lines))
               (range 2 (max_hist (read_lines lines) + 1))).
Proof.
  intros H.
  destruct (Z.le_gt_cases 1 (max_hist (read_lines lines))) as [H1 | H1].
  - rewrite (range_app 2 (max_hist (read_lines lines) + 1) (m + 1)) by lia.
    rewrite map_app, sum_Z_app.
    rewrite (sum_Z_map_zero (hist (read_lines lines))
               (range (max_hist (read_lines lines) + 1) (m + 1))).
    + lia.
    + intros b Hb. apply in_range in Hb. apply hist_beyond_max. lia.
  - rewrite (range_empty 2 (max_hist (read_lines lines) + 1)) by lia.
    apply sum_Z_map_zero. intros b Hb. apply in_range in Hb.
    apply hist_beyond_max. lia.
Qed.

Lemma unique_kmers_is_sum (lines : list (Z * Z)) :
  NoDup (map fst lines) ->
  unique_kmers (read_lines lines)
  = sum_Z (map (hist (read_lines lines))
               (range 2 (max_hist (read_lines lines) + 1))).
Proof.
  induction lines as [| [i cnt] lines IH] using rev_ind; intros Hnd.
  - reflexivity.
  - rewrite map_app in Hnd. cbn [map fst] in Hnd.
    apply NoDup_remove in Hnd. rewrite app_nil_r in Hnd.
    destruct Hnd as [Hnd Hfresh]. specialize (IH Hnd).
    assert (Hi : hist (read_lines lines) i = 0%Z).
    { rewrite hist_read_lines. apply last_count_absent. exact Hfresh. }
    rewrite read_lines_snoc. cbn [load_line unique_kmers hist max_hist].
    pose proof (read_lines_max_hist_nonneg lines) as Hmax.
    destruct (Z.leb_spec 2 i) as [Hge | Hlt].
    + rewrite sum_Z_range_update by lia.
      rewrite Hi, IH.
      rewrite (sum_hist_extend lines (Z.max (max_hist (read_lines lines)) i))
        by lia.
      lia.
    + rewrite sum_Z_range_unchanged by lia.
      rewrite IH.
      rewrite (sum_hist_extend lines (Z.max (max_hist (read_lines lines)) i))
        by lia.
      reflexivity.
Qed.

Lemma skipn_map_range {A : Type} (f : Z -> A) (n : nat) (b : Z) :
  (Z.of_nat n <= b)%Z ->
  skipn n (map f (range 0 b)) = map f (range (Z.of_nat n) b).
Proof.
  intros H. rewrite (range_app 0 (Z.of_nat n) b) by lia.
  rewrite map_app, skipn_app.
  rewrite skipn_all2 by (rewrite length_map, range_length; lia).
  rewrite length_map, range_length.
  replace (n - Z.to_nat (Z.of_nat n - 0))%nat with 0%nat by lia.
  reflexivity.
Qed.

(** X11: for an input with one line per level, [unique_kmers] is the sum
    of the counts of all levels [>= 2]; the dense sequence of an untrimmed
    [load_dist] accounts for all of it except the count of the largest
    level: [unique_kmers = sum(hist_l[2:]) + count(max_j)] when
    [max_j >= 2]. *)
Theorem X11_unique_kmers_against_histogram (M : libm)
    (lines : list (Z * Z)) :
  NoDup (map fst lines) ->
  (2 <= max_hist (read_lines lines))%Z ->
  exists all_kmers observed_ones hist_l,
    load_dist M lines None None
    = Ok (all_kmers, unique_kmers (read_lines lines), observed_ones, hist_l)
    /\ unique_kmers (read_lines lines)
       = (sum_Z (skipn 2 hist_l)
          + last_count lines (max_hist (read_lines lines)))%Z.
Proof.
  intros Hnd Hmax. do 3 eexists. split; [reflexivity |].
  rewrite (unique_kmers_is_sum lines Hnd).
  rewrite (skipn_map_range (hist (read_lines lines)) 2) by lia.
  rewrite range_snoc by lia.
  rewrite map_app, sum_Z_app. cbn [map].
  rewrite sum_Z_cons, hist_read_lines.
  change (Z.of_nat 2) with 2%Z. unfold sum_Z at 2. simpl. lia.
Qed.

Lemma X11_unique_kmers_against_histogram_witness :
  exists all_kmers observed_ones hist_l,
    load_dist exact_libm [(1, 5); (3, 2); (2, 7)]%Z None None
    = Ok (all_kmers, 9%Z, observed_ones, hist_l)
    /\ 9%Z = (sum_Z (skipn 2 hist_l) + 2)%Z.
Proof.
  apply (X11_unique_kmers_against_histogram exact_libm
           [(1, 5); (3, 2); (2, 7)]%Z).
  - repeat constructor; simpl; intuition discriminate.
  - simpl. lia.
Defined.

(** ** Trimming *)

Lemma slice_to_firstn {A : Type} (l : list A) (trim : option Z) :
  exists n, slice_to l trim = firstn n l.
Proof.
  destruct trim as [t |]; cbn [slice_to].
  - destruct (t <? 0)%Z; eexists; reflexivity.
  - exists (length l). symmetry. apply firstn_all.
Qed.

(** X12: trimming, automatic or explicit, only shortens the histogram
    sequence: whatever [load_dist] returns has the aggregates [all_kmers],
    [unique_kmers] and [observed_ones] of the untrimmed load, and its
    sequence is a prefix of the untrimmed one. *)
Theorem X12_trim_keeps_aggregates (M : libm) (lines : list (Z * Z))
    (autotrim trim : option Z) (a : R) (u o : Z) (h : list Z) :
  load_dist M lines autotrim trim = Ok (a, u, o, h) ->
  exists h0 n,
    load_dist M lines None None = Ok (a, u, o, h0) /\ h = firstn n h0.
Proof.
  unfold load_dist. intros H.
  exists (map (hist (read_lines lines))
              (range 0 (max_hist (read_lines lines)))).
  cbn [truthy bind].
  destruct (truthy autotrim).
  - bind_inv H. bind_inv Hx.
    destruct (slice_to_firstn
                (map (hist (read_lines lines))
                     (range 0 (max_hist (read_lines lines)))) x0) as [n Hn].
    exists n. injection Hx as <-. injection H as <- <- <- <-.
    split; [reflexivity | exact Hn].
  - destruct (slice_to_firstn
                (map (hist (read_lines lines))
                     (range 0 (max_hist (read_lines lines)))) trim) as [n Hn].
    exists n. destruct trim; cbn [bind] in H;
      injection H as <- <- <- <-; (split; [reflexivity |]).
    + exact Hn.
    + exact Hn.
Qed.

Lemma X12_trim_keeps_aggregates_witness :
  exists h0 n,
    load_dist exact_libm [(1, 5); (2, 7); (3, 2)]%Z None None
    = Ok (0 + IZR (2 * 7) + IZR (3 * 2), 9%Z, 5%Z, h0)
    /\ [0; 5]%Z = firstn n h0.
Proof.
  apply (X12_trim_keeps_aggregates exact_libm [(1, 5); (2, 7); (3, 2)]%Z
           None (Some 2%Z)).
  reflexivity.
Defined.

Lemma enumerate_cons_from {A : Type} (x : A) (l : list A) (a : Z) :
  combine (range a (a + len (x :: l))) (x :: l)
  = (a, x) :: combine (range (a + 1) (a + 1 + len l)) l.
Proof.
  unfold len. cbn [length]. rewrite range_cons by lia.
  cbn [combine]. do 3 f_equal. lia.
Qed.

Lemma firstn_len_snoc {A : Type} (l1 l2 : list A) (x : A) :
  firstn (Z.to_nat (len l1 + 1)) (l1 ++ x :: l2) = l1 ++ [x].
Proof.
  unfold len. replace (Z.to_nat (Z.of_nat (length l1) + 1))
    with (length l1 + 1)%nat by lia.
  rewrite firstn_app, firstn_all2 by lia.
  replace (length l1 + 1 - length l1)%nat with 1%nat by lia.
  reflexivity.
Qed.

(** The loop of [get_trim], from the position after a prefix [l1]. *)
Lemma get_trim_loop (M : libm) (precision : option Z) (l2 l1 : list Z)
    (t : option Z) :
  IZR (sum_Z (l1 ++ l2)) <> 0 ->
  foldM (fun (st : R * option Z) (ih : Z * Z) =>
           let '(s, trim) := st in
           let '(i, h) := ih in
           let s := s + IZR h in
           r <- fdiv s (IZR (sum_Z (l1 ++ l2))) ;;
           let r := match precision with
                    | Some p => if (p =? 0)%Z then r else m_round M r p
                    | None => r
                    end in
           if Req_dec_T r 1
           then match trim with
                | None => Ok (s, Some i)
                | Some _ => Ok (s, trim)
                end
           else Ok (s, trim))
        (combine (range (len l1) (len l1 + len l2)) l2)
        (IZR (sum_Z l1), t)
  = Ok (IZR (sum_Z (l1 ++ l2)),
        match t with
        | Some _ => t
        | None => find (full_at M (l1 ++ l2) precision)
                       (range (len l1) (len l1 + len l2))
        end).
Proof.
  revert l1 t. induction l2 as [| h l2 IH]; intros l1 t Hss.
  - change (len (@nil Z)) with 0%Z. rewrite Z.add_0_r.
    rewrite (range_empty (len l1)) by lia.
    rewrite app_nil_r. cbn [combine foldM find]. destruct t; reflexivity.
  - rewrite enumerate_cons_from. cbn [foldM].
    unfold fdiv at 1. destruct (Req_dec_T (IZR (sum_Z (l1 ++ h :: l2))) 0)
      as [E | _]; [contradiction |].
    cbn [bind].
    assert (Hl : (len l1 + 1)%Z = len (l1 ++ [h])).
    { unfold len. rewrite length_app. cbn [length]. lia. }
    assert (Hs : IZR (sum_Z l1) + IZR h = IZR (sum_Z (l1 ++ [h]))).
    { rewrite sum_Z_app, sum_Z_cons, plus_IZR. unfold sum_Z at 3.
      cbn [fold_left]. rewrite Z.add_0_r. reflexivity. }
    assert (Happ : l1 ++ h :: l2 = (l1 ++ [h]) ++ l2).
    { rewrite <- app_assoc. reflexivity. }
    assert (Hr : range (len l1) (len l1 + len (h :: l2))
                 = len l1 :: range (len (l1 ++ [h]))
                                   (len (l1 ++ [h]) + len l2)).
    { rewrite range_cons by (unfold len; cbn [length]; lia).
      rewrite <- Hl. f_equal. f_equal. unfold len. cbn [length]. lia. }
    rewrite Hr. cbn [find].
    assert (Hfull :
      full_at M (l1 ++ h :: l2) precision (len l1)
      = if Req_dec_T
             match precision with
             | Some p =>
                 if (p =? 0)%Z
                 then (IZR (sum_Z l1) + IZR h) / IZR (sum_Z (l1 ++ h :: l2))
                 else m_round M ((IZR (sum_Z l1) + IZR h)
                                 / IZR (sum_Z (l1 ++ h :: l2))) p
             | None => (IZR (sum_Z l1) + IZR h) / IZR (sum_Z (l1 ++ h :: l2))
             end 1
        then true else false).
    { unfold full_at. rewrite firstn_len_snoc, Hs. reflexivity. }
    rewrite Hfull. rewrite Hl, Hs.
    rewrite Happ in Hss |- *. clear Hfull.
    match goal with
    | |- context [Req_dec_T ?x 1] => destruct (Req_dec_T x 1)
    end.
    + destruct t; cbn [bind];
        refine (eq_trans (IH (l1 ++ [h]) _ Hss) _); reflexivity.
    + cbn [bind]. refine (eq_trans (IH (l1 ++ [h]) t Hss) _). reflexivity.
Qed.

Lemma get_trim_closed (M : libm) (hist : list Z) (precision : option Z) :
  sum_Z hist <> 0%Z ->
  get_trim M hist precision
  = Ok (find (full_at M hist precision) (range 0 (len hist))).
Proof.
  intros Hss. unfold get_trim, enumerate.
  pose proof (get_trim_loop M precision hist [] None) as H.
  cbn [app] in H. change (len []) with 0%Z in H.
  rewrite Z.add_0_l in H. change (sum_Z []) with 0%Z in H.
  rewrite H.
  - reflexivity.
  - intros E. apply eq_IZR in E. contradiction.
Qed.

(** X13: [get_trim] on a histogram whose counts do not sum to zero returns
    the first index at which the (rounded) share of the counts up to and
    including it equals [1], and [None] when there is no such index. *)
Theorem X13_get_trim_first_full (M : libm) (hist : list Z)
    (precision : option Z) :
  sum_Z hist <> 0%Z ->
  get_trim M hist precision
  = Ok (find (full_at M hist precision) (range 0 (len hist))).
Proof.
  exact (get_trim_closed M hist precision).
Qed.

Lemma X13_get_trim_first_full_witness :
  get_trim exact_libm [0; 5; 7; 0]%Z None
  = Ok (find (full_at exact_libm [0; 5; 7; 0]%Z None) (range 0 4)).
Proof.
  apply (X13_get_trim_first_full exact_libm [0; 5; 7; 0]%Z None).
  vm_compute. discriminate.
Defined.

Lemma get_trim_zero_sum (M : libm) (hist : list Z) (precision : option Z) :
  hist <> [] -> sum_Z hist = 0%Z ->
  get_trim M hist precision = Raise ZeroDivisionError.
Proof.
  intros Hne Hs. destruct hist as [| h t]; [contradiction |].
  unfold get_trim, enumerate. rewrite Hs.
  pose proof (enumerate_cons_from h t 0) as E.
  rewrite Z.add_0_l in E. rewrite E. cbn [foldM].
  unfold fdiv at 1. destruct (Req_dec_T 0 0) as [_ | N];
    [reflexivity | contradiction].
Qed.

(** X14: when the dense histogram is not empty and its counts sum to zero
    (a file with the single line [1 5], say), [load_dist] with [autotrim]
    raises [ZeroDivisionError]: [get_trim] divides by the sum. *)
Theorem X14_autotrim_zero_histogram (M : libm) (lines : list (Z * Z))
    (p : Z) (trim : option Z) (a : R) (u o : Z) (h0 : list Z) :
  p <> 0%Z ->
  load_dist M lines None None = Ok (a, u, o, h0) ->
  h0 <> [] -> sum_Z h0 = 0%Z ->
  load_dist M lines (Some p) trim = Raise ZeroDivisionError.
Proof.
  intros Hp H0 Hne Hs. unfold load_dist in *. cbn [truthy bind] in H0.
  injection H0 as _ _ _ E. cbn [truthy].
  destruct (Z.eqb_spec p 0) as [| _]; [contradiction |]. cbn [negb].
  rewrite E. rewrite (get_trim_zero_sum M h0 (Some p) Hne Hs).
  reflexivity.
Qed.

Lemma X14_autotrim_zero_histogram_witness :
  load_dist exact_libm [(1, 5)]%Z (Some 2%Z) None = Raise ZeroDivisionError.
Proof.
  apply (X14_autotrim_zero_histogram exact_libm [(1, 5)]%Z 2 None
           0 0%Z 5%Z [0%Z]).
  - discriminate.
  - reflexivity.
  - discriminate.
  - reflexivity.
Defined.

Lemma full_at_last (M : libm) (hist : list Z) (p : Z) :
  sum_Z hist <> 0%Z -> p <> 0%Z -> m_round M 1 p = 1 ->
  full_at M hist (Some p) (len hist - 1) = true.
Proof.
  intros Hs Hp Hr. unfold full_at.
  replace (Z.to_nat (len hist - 1 + 1)) with (length hist)
    by (unfold len; lia).
  rewrite firstn_all.
  destruct (Z.eqb_spec p 0) as [| _]; [contradiction |].
  replace (IZR (sum_Z hist) / IZR (sum_Z hist)) with 1.
  - rewrite Hr. destruct (Req_dec_T 1 1); [reflexivity | contradiction].
  - field. intros E. apply eq_IZR in E. contradiction.
Qed.

Lemma find_exists_range (f : Z -> bool) (a b m : Z) :
  (a <= m < b)%Z -> f m = true ->
  exists t, find f (range a b) = Some t.
Proof.
  intros Hm Hf. destruct (find f (range a b)) as [t |] eqn:E.
  - exists t. reflexivity.
  - pose proof (find_range_none f a b E m Hm). congruence.
Qed.

(** X15: with [--autotrim p], [p] not [0], on a histogram whose dense
    sequence does not sum to zero, and a [round] that leaves [1.0] alone,
    [load_dist] returns a sequence strictly shorter than the dense one: it
    is cut at the first index [i] where the rounded share is [1], and
    [hist_l[:i]] leaves that index out. *)
Theorem X15_autotrim_cuts_before_full (M : libm) (lines : list (Z * Z))
    (p : Z) (trim : option Z) (a : R) (u o : Z) (h0 : list Z) :
  p <> 0%Z -> m_round M 1 p = 1 ->
  load_dist M lines None None = Ok (a, u, o, h0) ->
  sum_Z h0 <> 0%Z ->
  exists i,
    (0 <= i < len h0)%Z
    /\ full_at M h0 (Some p) i = true
    /\ (forall i', (0 <= i' < i)%Z -> full_at M h0 (Some p) i' = false)
    /\ load_dist M lines (Some p) trim
       = Ok (a, u, o, firstn (Z.to_nat i) h0).
Proof.
  intros Hp Hr H0 Hs. unfold load_dist in *. cbn [truthy bind] in H0.
  injection H0 as Ea Eu Eo E. cbn [truthy].
  destruct (Z.eqb_spec p 0) as [| _]; [contradiction |]. cbn [negb].
  rewrite E, Ea, Eu, Eo.
  rewrite (get_trim_closed M h0 (Some p) Hs).
  assert (Hlen : (0 < len h0)%Z).
  { destruct h0; [exfalso; apply Hs; reflexivity |].
    unfold len. cbn [length]. lia. }
  destruct (find_exists_range (full_at M h0 (Some p)) 0 (len h0)
              (len h0 - 1) ltac:(lia) (full_at_last M h0 p Hs Hp Hr))
    as [i Hi].
  rewrite Hi. cbn [bind slice_to].
  destruct (find_range_inv _ _ 0 (len h0) i eq_refl Hi) as [Hb [Hf Hbefore]].
  exists i. repeat split; try lia; try assumption.
  destruct (Z.ltb_spec i 0); [lia | reflexivity].
Qed.

(** The exact [round] leaves [1.0] alone for a non-negative number of
    digits. *)
Lemma real_round_one (p : Z) : (0 <= p)%Z -> real_round 1 p = 1.
Proof.
  intros Hp. unfold real_round.
  assert (E : powerRZ 10 p = IZR (10 ^ p)).
  { rewrite <- (Z2Nat.id p Hp) at 1. rewrite <- pow_powerRZ.
    rewrite pow_IZR. rewrite Z2Nat.id by exact Hp. reflexivity. }
  rewrite E, Rmult_1_l.
  assert (Hpos : (0 < 10 ^ p)%Z) by (apply Z.pow_pos_nonneg; lia).
  assert (U : up (IZR (10 ^ p) - / 2) = (10 ^ p)%Z).
  { symmetry. replace (10 ^ p)%Z with (10 ^ p - 1 + 1)%Z at 1 by lia.
    apply up_tech.
    - rewrite minus_IZR. lra.
    - replace (10 ^ p - 1 + 1)%Z with (10 ^ p)%Z by lia. lra. }
  rewrite U. field. apply not_0_IZR. lia.
Qed.

Lemma X15_autotrim_cuts_before_full_witness :
  exists i,
    (0 <= i < len [0; 5; 7]%Z)%Z
    /\ full_at exact_libm [0; 5; 7]%Z (Some 2%Z) i = true
    /\ (forall i', (0 <= i' < i)%Z
                   -> full_at exact_libm [0; 5; 7]%Z (Some 2%Z) i' = false)
    /\ load_dist exact_libm [(1, 5); (2, 7); (3, 2)]%Z (Some 2%Z) None
       = Ok (0 + IZR (2 * 7) + IZR (3 * 2), 9%Z, 5%Z,
             firstn (Z.to_nat i) [0; 5; 7]%Z).
Proof.
  apply (X15_autotrim_cuts_before_full exact_libm
           [(1, 5); (2, 7); (3, 2)]%Z 2 None).
  - discriminate.
  - apply real_round_one. lia.
  - reflexivity.
  - vm_compute. discriminate.
Defined.

(** ** The degenerate guess in [main] *)

Lemma get_trim_nil (M : libm) (precision : option Z) :
  get_trim M [] precision = Ok None.
Proof. reflexivity. Qed.

(** With [--autotrim] the loading returns when the dense sequence is empty
    or does not sum to zero. *)
Lemma load_dist_autotrim_returns (M : libm) (lines : list (Z * Z))
    (autotrim trim : option Z) :
  truthy autotrim = true ->
  dense_hist lines = [] \/ sum_Z (dense_hist lines) <> 0%Z ->
  exists hist_l,
    load_dist M lines autotrim trim
    = Ok (all_kmers (read_lines lines), unique_kmers (read_lines lines),
          observed_ones (read_lines lines), hist_l).
Proof.
  intros Ha Hd. unfold load_dist. rewrite Ha.
  fold (dense_hist lines).
  destruct Hd as [-> | Hs].
  - rewrite get_trim_nil. cbn [bind]. eexists. reflexivity.
  - rewrite (get_trim_closed M _ autotrim Hs). cbn [bind].
    eexists. reflexivity.
Qed.

Lemma load_dist_autotrim_raises (M : libm) (lines : list (Z * Z))
    (autotrim trim : option Z) :
  truthy autotrim = true ->
  dense_hist lines <> [] -> sum_Z (dense_hist lines) = 0%Z ->
  load_dist M lines autotrim trim = Raise ZeroDivisionError.
Proof.
  intros Ha Hne Hs. unfold load_dist. rewrite Ha.
  fold (dense_hist lines).
  rewrite (get_trim_zero_sum M _ autotrim Hne Hs). reflexivity.
Qed.

(** What [main] hands to the estimator, from the guess it computed. *)
Lemma main_guess (M : libm) (inverse : (R -> res R) -> R -> res R)
    (A : Type) (cov_est : list Z -> Z -> Z -> R -> R -> res A)
    (args : arguments) (all_kmers : R) (unique observed_ones : Z)
    (hist : list Z) (cov e : R) (ll : pyfloat) :
  ll_only args = false ->
  load_dist M (input_histogram args) (arg_autotrim args) (arg_trim args)
  = Ok (all_kmers, unique, observed_ones, hist) ->
  compute_coverage_apx M inverse all_kmers unique observed_ones
    (kmer_size args) (read_length args) = Ok (cov, e) ->
  compute_loglikelihood M hist (read_length args) (kmer_size args) cov e
  = Ok ll ->
  (cov = 0 /\ e = 1 ->
   main M inverse cov_est args
   = (a <- cov_est hist (read_length args) (kmer_size args) 1 0.5 ;;
      Ok (Estimate a)))
  /\ (~ (cov = 0 /\ e = 1) ->
      main M inverse cov_est args
      = (a <- cov_est hist (read_length args) (kmer_size args) cov e ;;
         Ok (Estimate a))).
Proof.
  intros Hll Hload Hapx Hlog. unfold main.
  rewrite Hload. cbn [bind]. rewrite Hll, Hapx. cbn [bind].
  rewrite Hlog. cbn [bind].
  destruct (Req_dec_T cov 0) as [Hc | Hc];
    [destruct (Req_dec_T e 1) as [He | He] |].
  - split; [reflexivity |]. intros H. exfalso. apply H. split; assumption.
  - split; [| reflexivity]. intros [_ H]. contradiction.
  - split; [| reflexivity]. intros [H _]. contradiction.
Qed.




(** ** The log-likelihood *)

Lemma foldM_ext_in {A S : Type} (f g : S -> A -> res S) (l : list A) (s : S) :
  (forall s a, In a l -> f s a = g s a) -> foldM f l s = foldM g l s.
Proof.
  revert s. induction l as [| a l IH]; intros s H; [reflexivity |].
  cbn [foldM]. rewrite (H s a (or_introl eq_refl)).
  destruct (g s a) as [s' | e]; [| reflexivity].
  cbn [bind]. apply IH. intros s0 a0 Hin. apply H. right. exact Hin.
Qed.

Lemma foldM_invariant {A S : Type} (P : S -> Prop) (f : S -> A -> res S)
    (l : list A) (s : S) :
  P s ->
  (forall s a, In a l -> P s -> exists s', f s a = Ok s' /\ P s') ->
  exists s', foldM f l s = Ok s' /\ P s'.
Proof.
  revert s. induction l as [| a l IH]; intros s Hs H.
  - exists s. split; [reflexivity | exact Hs].
  - cbn [foldM]. destruct (H s a (or_introl eq_refl) Hs) as [s' [E Hs']].
    rewrite E. cbn [bind]. apply IH; [exact Hs' |].
    intros s0 a0 Hin. apply H. right. exact Hin.
Qed.

Lemma py_index_tail {A : Type} (x y : A) (l : list A) (j : Z) :
  (1 <= j)%Z -> py_index (x :: l) j = py_index (y :: l) j.
Proof.
  intros Hj. unfold py_index.
  destruct (Z.ltb_spec j 0); [lia |].
  destruct (Z.ltb_spec j 0); [lia |].
  replace (Z.to_nat j) with (S (Z.to_nat (j - 1))) by lia.
  reflexivity.
Qed.

Lemma py_index_In {A : Type} (l : list A) (i : Z) (x : A) :
  py_index l i = Ok x -> In x l.
Proof.
  unfold py_index. intros H.
  destruct ((if (i <? 0)%Z then (len l + i)%Z else i) <? 0)%Z;
    [discriminate |].
  destruct (nth_error l _) as [a |] eqn:E; [| discriminate].
  injection H as <-. eapply nth_error_In. exact E.
Qed.

Lemma out_of_domain_false (c err : R) :
  out_of_domain c err = false -> 0 < c /\ 0 <= err < 1.
Proof.
  unfold out_of_domain, Rltb.
  destruct (Rlt_dec err 0); [discriminate |].
  destruct (Rge_dec err 1); [discriminate |].
  destruct (Rle_dec c 0); [discriminate |].
  intros _. lra.
Qed.

(** X16: the count at level [0] is never read: both log-likelihoods are the
    same for two histograms that differ only in their first entry. *)
Theorem X16_loglikelihood_ignores_level_0 (M : libm) (h0 h0' : Z)
    (hist : list Z) (r k : Z) (c err q1 q2 q : R) :
  compute_loglikelihood M (h0 :: hist) r k c err
  = compute_loglikelihood M (h0' :: hist) r k c err
  /\ compute_loglikelihood_with_repeats M (h0 :: hist) r k c err q1 q2 q
     = compute_loglikelihood_with_repeats M (h0' :: hist) r k c err q1 q2 q.
Proof.
  unfold compute_loglikelihood, compute_loglikelihood_with_repeats.
  change (len (h0 :: hist)) with (len (h0' :: hist)).
  split.
  - destruct (out_of_domain c err); [reflexivity |].
    destruct (compute_probabilities M r k c err (len (h0' :: hist)))
      as [p_j | e]; [| reflexivity].
    cbn [bind]. apply foldM_ext_in. intros s j Hj. apply in_range in Hj.
    rewrite (py_index_tail h0 h0') by lia. reflexivity.
  - destruct (out_of_domain c err); [reflexivity |].
    destruct (compute_probabilities_with_repeats M r k c err q1 q2 q
                (len (h0' :: hist)) default_treshold)
      as [p_j | e]; [| reflexivity].
    cbn [bind]. apply foldM_ext_in. intros s j Hj. apply in_range in Hj.
    rewrite (py_index_tail h0 h0') by lia. reflexivity.
Qed.

Lemma nonpos_float_add (x y : pyfloat) :
  nonpos_float x -> nonpos_float y -> nonpos_float (pf_add x y).
Proof.
  intros [-> | [a [-> Ha]]] [-> | [b [-> Hb]]]; cbn [pf_add].
  - left. reflexivity.
  - left. reflexivity.
  - left. reflexivity.
  - right. exists (a + b). split; [reflexivity | lra].
Qed.

Lemma nonpos_float_scale (h : Z) (x : pyfloat) :
  (0 < h)%Z -> nonpos_float x -> nonpos_float (pf_scale h x).
Proof.
  intros Hh [-> | [a [-> Ha]]]; cbn [pf_scale].
  - destruct (Z.ltb_spec 0 h); [left; reflexivity | lia].
  - right. exists (IZR h * a). split; [reflexivity |].
    apply IZR_lt in Hh.
    replace 0 with (IZR h * 0) by ring.
    apply Rmult_le_compat_l; lra.
Qed.

Lemma safe_log_probability (p : R) :
  0 <= p <= 1 ->
  exists lg, safe_log exact_libm p = Ok lg /\ nonpos_float lg.
Proof.
  intros Hp. unfold safe_log.
  destruct (Rle_dec p 0).
  - exists NInf. split; [reflexivity | left; reflexivity].
  - cbn [m_log exact_libm]. unfold real_log.
    destruct (Rlt_dec 0 p); [| lra].
    exists (Fin (ln p)). split; [reflexivity |].
    right. exists (ln p). split; [reflexivity |].
    destruct (Req_dec_T p 1) as [-> | Hne].
    + rewrite ln_1. lra.
    + rewrite <- ln_1. left. apply ln_increasing; lra.
Qed.



(** ** The candidates of the searches *)

Lemma in_product_nth {A : Type} (ls : list (list A)) (a : list A) :
  In a (product ls) ->
  forall i y, nth_error a i = Some y ->
              exists l, nth_error ls i = Some l /\ In y l.
Proof.
  revert a. induction ls as [| l rest IH]; intros a H i y Hy.
  - destruct H as [<- | []]. destruct i; discriminate.
  - cbn [product] in H. apply in_flat_map in H. destruct H as [x [Hx H]].
    apply in_map_iff in H. destruct H as [a' [<- Ha']].
    destruct i as [| i]; cbn [nth_error] in *.
    + injection Hy as <-. exists l. split; [reflexivity | exact Hx].
    + exact (IH a' Ha' i y Hy).
Qed.

Lemma nth_error_combine_range {A : Type} (l : list A) (a : Z) (i : nat)
    (iv : Z * A) :
  nth_error (combine (range a (a + len l)) l) i = Some iv ->
  fst iv = (a + Z.of_nat i)%Z /\ nth_error l i = Some (snd iv).
Proof.
  revert a i. induction l as [| x l IH]; intros a i H.
  - rewrite combine_nil in H. destruct i; discriminate.
  - rewrite enumerate_cons_from in H. destruct i as [| i]; cbn [nth_error] in *.
    + injection H as <-. cbn [fst snd]. split; [lia | reflexivity].
    + destruct (IH (a + 1)%Z i H) as [H1 H2]. split; [lia | exact H2].
Qed.

Lemma nth_error_enumerate {A : Type} (l : list A) (i : nat) (iv : Z * A) :
  nth_error (enumerate l) i = Some iv ->
  fst iv = Z.of_nat i /\ nth_error l i = Some (snd iv).
Proof.
  unfold enumerate. intros H.
  apply (nth_error_combine_range l 0 i iv H).
Qed.

Lemma in_generate_grid_single (step : R) (max_depth : Z) (x y : R) :
  In y (generate_grid_single step max_depth x) ->
  exists d, (- max_depth <= d <= max_depth)%Z /\ d <> 0%Z
            /\ y = x * py_pow step d.
Proof.
  unfold generate_grid_single. intros H.
  apply in_map_iff in H. destruct H as [d [<- Hd]].
  apply filter_In in Hd. destruct Hd as [Hr Hz]. apply in_range in Hr.
  exists d. split; [lia |]. split; [| reflexivity].
  destruct (Z.eqb_spec d 0); [discriminate | assumption].
Qed.

Lemma filter_bounds_subset (bounds : option (list (list (option R))))
    (g : list R) (i : Z) (y : R) :
  In y (filter_bounds bounds g i) -> In y g.
Proof.
  unfold filter_bounds. destruct bounds as [bs |]; [| trivial].
  destruct (len bs <=? i)%Z; [trivial |].
  destruct (nth_error bs (Z.to_nat i)) as [[| low [| high [| ? ?]]] |];
    trivial.
  intros H. apply filter_In in H. tauto.
Qed.

Lemma filter_bounds_within (bs : list (list (option R))) (g : list R)
    (i : nat) (low high : option R) (y : R) :
  nth_error bs i = Some [low; high] ->
  In y (filter_bounds (Some bs) g (Z.of_nat i)) ->
  in_bounds low high y = true.
Proof.
  intros Hb. unfold filter_bounds.
  assert (Hi : (i < length bs)%nat).
  { apply nth_error_Some. rewrite Hb. discriminate. }
  destruct (Z.leb_spec (len bs) (Z.of_nat i)) as [Hl | _];
    [unfold len in Hl; lia |].
  rewrite Nat2Z.id, Hb. intros H. apply filter_In in H. tauto.
Qed.

(** The coordinates of a candidate of [generate_grid]. *)
Lemma generate_grid_coord (bounds : option (list (list (option R))))
    (args : list R) (step : R) (max_depth : Z) (a : list R) :
  In a (generate_grid bounds args step max_depth) ->
  length a = length args
  /\ forall i y, nth_error a i = Some y ->
       exists x, nth_error args i = Some x
                 /\ In y (filter_bounds bounds
                            (generate_grid_single step max_depth x)
                            (Z.of_nat i)).
Proof.
  unfold generate_grid. intros H. split.
  - apply product_length in H.
    rewrite length_map, enumerate_length in H. exact H.
  - intros i y Hy.
    destruct (in_product_nth _ _ H i y Hy) as [l [Hl Hin]].
    rewrite nth_error_map in Hl.
    destruct (nth_error (enumerate args) i) as [iv |] eqn:E;
      [| discriminate].
    injection Hl as <-.
    destruct (nth_error_enumerate args i iv E) as [H1 H2].
    exists (snd iv). split; [exact H2 |]. rewrite <- H1. exact Hin.
Qed.

(** The coordinates of a candidate of the hill climbing: all but the drawn
    one are those of [args]. *)
Lemma generate_grid_hc_coord (bounds : option (list (list (option R))))
    (rnd : nat -> Z) (draw : nat) (args : list R) (step : R)
    (max_depth : Z) (g : list (list R)) :
  generate_grid_hc bounds rnd draw args step max_depth = Ok g ->
  exists r,
    (0 <= r < len args)%Z
    /\ forall a, In a g ->
         length a = length args
         /\ forall i y, nth_error a i = Some y ->
              exists x, nth_error args i = Some x
                        /\ if (Z.of_nat i =? r)%Z
                           then In y (filter_bounds bounds
                                        (generate_grid_single step max_depth
                                                              x)
                                        (Z.of_nat i))
                           else y = x.
Proof.
  unfold generate_grid_hc, randrange. intros H.
  destruct (Z.leb_spec (len args) 0) as [| Hpos]; [discriminate |].
  cbn [bind] in H. injection H as <-.
  exists (rnd draw mod len args)%Z. split.
  - apply Z.mod_pos_bound. exact Hpos.
  - intros a Ha. split.
    + apply product_length in Ha.
      rewrite length_map, enumerate_length in Ha. exact Ha.
    + intros i y Hy.
      destruct (in_product_nth _ _ Ha i y Hy) as [l [Hl Hin]].
      rewrite nth_error_map in Hl.
      destruct (nth_error (enumerate args) i) as [iv |] eqn:E;
        [| discriminate].
      injection Hl as <-.
      destruct (nth_error_enumerate args i iv E) as [H1 H2].
      exists (snd iv). split; [exact H2 |]. rewrite <- H1.
      destruct (fst iv =? rnd draw mod len args)%Z.
      * exact Hin.
      * destruct Hin as [<- | []]. reflexivity.
Qed.

Lemma scaled_refl (x0 : list R) : scaled x0 x0.
Proof.
  split; [reflexivity |]. intros i x y Hx Hy.
  rewrite Hx in Hy. injection Hy as <-. exists 1. split; [lra | ring].
Qed.

(** A candidate built from a scaled point with a positive step is
    scaled. *)
Lemma scaled_candidate (x0 m a : list R) (step : R) (max_depth : Z) :
  0 < step -> scaled x0 m -> length a = length m ->
  (forall i y, nth_error a i = Some y ->
     exists x, nth_error m i = Some x
               /\ (y = x \/ In y (generate_grid_single step max_depth x))) ->
  scaled x0 a.
Proof.
  intros Hstep [Hlen Hm] Hla Ha. split; [congruence |].
  intros i x y Hx Hy.
  destruct (Ha i y Hy) as [z [Hz Hyz]].
  destruct (Hm i x z Hx Hz) as [t [Ht ->]].
  destruct Hyz as [-> | Hin].
  - exists t. split; [exact Ht | reflexivity].
  - apply in_generate_grid_single in Hin.
    destruct Hin as [d [_ [_ ->]]].
    exists (t * py_pow step d). split; [| ring].
    apply Rmult_lt_0_compat; [exact Ht |].
    unfold py_pow. apply powerRZ_lt. exact Hstep.
Qed.

Section GridCandidates.

Variable fn : list R -> pyfloat.
Variable bounds : option (list (list (option R))).
Variable x0 : list R.

Lemma grid_box_init : grid_box fn bounds x0 (grid_init fn x0).
Proof.
  unfold grid_box. split; [apply grid_inv_init |].
  cbn [grid_init g_min_args g_todo]. split; [apply scaled_refl |].
  split; [left; reflexivity |]. intros g a H. discriminate.
Qed.

Lemma grid_box_next (st st' : grid_state) :
  grid_box fn bounds x0 st -> grid_next fn bounds st = Some st' ->
  grid_box fn bounds x0 st'.
Proof.
  intros [Hinv [Hsc [Hb Htodo]]] Hn.
  split; [exact (grid_inv_next fn bounds x0 st st' Hinv Hn) |].
  revert Hn. unfold grid_next.
  destruct (g_todo st) as [[| args rest] |] eqn:Et.
  - intros H. injection H as <-. cbn [g_min_args g_todo].
    split; [exact Hsc |]. split; [exact Hb |].
    intros g a H. discriminate.
  - destruct (Htodo (args :: rest) args eq_refl (or_introl eq_refl))
      as [Hs Hw].
    destruct (pf_lt (fn args) (g_min_val st));
      intros H; injection H as <-; cbn [g_min_args g_todo].
    + split; [exact Hs |]. split; [right; exact Hw |].
      intros g a H Ha. injection H as <-.
      apply (Htodo (args :: rest)); [reflexivity | right; exact Ha].
    + split; [exact Hsc |]. split; [exact Hb |].
      intros g a H Ha. injection H as <-.
      apply (Htodo (args :: rest)); [reflexivity | right; exact Ha].
  - destruct (grid_continue st); [| discriminate].
    intros H. injection H as <-. cbn [g_min_args g_todo].
    split; [exact Hsc |]. split; [exact Hb |].
    intros g a H Ha. injection H as <-.
    apply generate_grid_coord in Ha. destruct Ha as [Hlen Hco]. split.
    + apply (scaled_candidate x0 (g_min_args st) a (g_step st) grid_depth).
      * destruct Hinv as [Hstep _]. lra.
      * exact Hsc.
      * exact Hlen.
      * intros i y Hy. destruct (Hco i y Hy) as [x [Hx Hin]].
        exists x. split; [exact Hx |]. right.
        exact (filter_bounds_subset _ _ _ _ Hin).
    + intros bs i low high y Hbs Hp Hy. subst bounds.
      destruct (Hco i y Hy) as [x [_ Hin]].
      exact (filter_bounds_within bs _ i low high y Hp Hin).
Qed.

Lemma grid_box_run (n : nat) (st : grid_state) :
  grid_box fn bounds x0 st ->
  grid_box fn bounds x0 (fst (run (grid_next fn bounds) n st)).
Proof.
  revert st. induction n as [| n IH]; intros st H; cbn [run]; [exact H |].
  destruct (grid_next fn bounds st) as [st' |] eqn:E; [| exact H].
  apply IH. exact (grid_box_next st st' H E).
Qed.

Lemma grid_box_evaluated (n : nat) (st : grid_state) (a : list R) :
  grid_box fn bounds x0 st -> In a (grid_evaluated fn bounds n st) ->
  scaled x0 a /\ within_bounds bounds a.
Proof.
  revert st. induction n as [| n IH]; intros st H Ha; cbn [grid_evaluated] in Ha;
    [contradiction |].
  destruct (grid_next fn bounds st) as [st' |] eqn:E; [| contradiction].
  pose proof (grid_box_next st st' H E) as H'.
  destruct H as [_ [_ [_ Htodo]]].
  destruct (g_todo st) as [[| c rest] |] eqn:Et.
  - exact (IH st' H' Ha).
  - destruct Ha as [<- | Ha].
    + apply (Htodo (c :: rest)); [reflexivity | left; reflexivity].
    + exact (IH st' H' Ha).
  - exact (IH st' H' Ha).
Qed.

Lemma grid_search_box (n : nat) :
  (forall a, In a (grid_evaluated fn bounds n (grid_init fn x0)) ->
             scaled x0 a /\ within_bounds bounds a)
  /\ scaled x0 (minimize_grid fn bounds x0 n)
  /\ (minimize_grid fn bounds x0 n = x0
      \/ within_bounds bounds (minimize_grid fn bounds x0 n)).
Proof.
  split.
  - intros a. apply grid_box_evaluated. apply grid_box_init.
  - destruct (grid_box_run n (grid_init fn x0) grid_box_init)
      as [_ [Hs [Hb _]]].
    split; assumption.
Qed.

End GridCandidates.

(** X18: the grid search evaluates the objective, after the initial guess,
    only at points inside the box [bounds], and the point it returns (at
    any interrupt, or at its end) is the initial guess or a point inside
    the box. *)
Theorem X18_grid_search_within_bounds (fn : list R -> pyfloat)
    (bounds : option (list (list (option R)))) (x0 : list R) (n : nat) :
  (forall a, In a (grid_evaluated fn bounds n (grid_init fn x0)) ->
             within_bounds bounds a)
  /\ (minimize_grid fn bounds x0 n = x0
      \/ within_bounds bounds (minimize_grid fn bounds x0 n)).
Proof.
  destruct (grid_search_box fn bounds x0 n) as [H1 [_ H3]].
  split; [| exact H3]. intros a Ha. apply H1. exact Ha.
Qed.

(** X19: the grid search only rescales: every point it evaluates and the
    point it returns have the length of the initial guess, and each
    coordinate is the one of the initial guess times a positive factor.  A
    coordinate that starts at [0] stays [0] and no coordinate changes its
    sign. *)
Theorem X19_grid_search_rescales (fn : list R -> pyfloat)
    (bounds : option (list (list (option R)))) (x0 : list R) (n : nat) :
  (forall a, In a (grid_evaluated fn bounds n (grid_init fn x0)) ->
             scaled x0 a)
  /\ scaled x0 (minimize_grid fn bounds x0 n)
  /\ forall i, nth_error x0 i = Some 0 ->
               nth_error (minimize_grid fn bounds x0 n) i = Some 0.
Proof.
  destruct (grid_search_box fn bounds x0 n) as [H1 [H2 _]].
  split; [intros a Ha; apply H1; exact Ha |]. split; [exact H2 |].
  intros i Hi. destruct H2 as [Hlen Hco].
  destruct (nth_error (minimize_grid fn bounds x0 n) i) as [y |] eqn:E.
  - destruct (Hco i 0 y Hi E) as [t [_ ->]]. f_equal. ring.
  - apply nth_error_None in E.
    assert (i < length x0)%nat by (apply nth_error_Some; congruence).
    lia.
Qed.

Lemma kept_or_within_refl (bounds : option (list (list (option R))))
    (x0 : list R) : kept_or_within bounds x0 x0.
Proof.
  intros bs i low high x y _ _ Hx Hy. left. congruence.
Qed.

Section HillCandidates.

Variable fn : list R -> pyfloat.
Variable bounds : option (list (list (option R))).
Variable iterations : Z.
Variable rnd : nat -> Z.
Variable x0 : list R.
Hypothesis x0_nonempty : x0 <> [].

Lemma hc_box_init : hc_box fn bounds x0 (hc_init fn x0).
Proof.
  split; [apply hc_inv_init |]. cbn [hc_init h_min_args h_todo].
  split; [apply scaled_refl |]. split; [apply kept_or_within_refl |].
  intros g a H. discriminate.
Qed.

Lemma hc_box_next (st : hc_state) :
  hc_box fn bounds x0 st ->
  exists o,
    hc_next fn bounds iterations rnd st = Ok o
    /\ forall st', o = Some st' -> hc_box fn bounds x0 st'.
Proof.
  intros [Hinv [Hsc [Hb Htodo]]].
  destruct (hc_inv_next fn bounds iterations rnd x0 x0_nonempty st Hinv)
    as [o [Ho Hinv']].
  exists o. split; [exact Ho |]. intros st' ->.
  split; [apply Hinv'; reflexivity |].
  revert Ho. unfold hc_next.
  destruct (h_todo st) as [[| args rest] |] eqn:Et.
  - intros H. injection H as <-. cbn [h_min_args h_todo].
    split; [exact Hsc |]. split; [exact Hb |].
    intros g a H. discriminate.
  - destruct (Htodo (args :: rest) args eq_refl (or_introl eq_refl))
      as [Hs Hw].
    destruct (pf_lt (fn args) (h_min_val st));
      intros H; injection H as <-; cbn [h_min_args h_todo].
    + split; [exact Hs |]. split; [exact Hw |].
      intros g a H Ha. injection H as <-.
      apply (Htodo (args :: rest)); [reflexivity | right; exact Ha].
    + split; [exact Hsc |]. split; [exact Hb |].
      intros g a H Ha. injection H as <-.
      apply (Htodo (args :: rest)); [reflexivity | right; exact Ha].
  - destruct (h_n_iter st <? iterations)%Z; [| discriminate].
    destruct (generate_grid_hc bounds rnd (h_draws st) (h_min_args st)
                hc_step grid_depth) as [g0 | e] eqn:Eg; [| discriminate].
    cbn [bind]. intros H. injection H as <-. cbn [h_min_args h_todo].
    split; [exact Hsc |]. split; [exact Hb |].
    intros g a H Ha. injection H as <-.
    destruct (generate_grid_hc_coord _ _ _ _ _ _ _ Eg) as [r [Hr Hall]].
    destruct (Hall a Ha) as [Hlen Hco]. split.
    + apply (scaled_candidate x0 (h_min_args st) a hc_step grid_depth).
      * unfold hc_step. lra.
      * exact Hsc.
      * exact Hlen.
      * intros i y Hy. destruct (Hco i y Hy) as [x [Hx Hin]].
        exists x. split; [exact Hx |].
        destruct (Z.of_nat i =? r)%Z.
        -- right. exact (filter_bounds_subset _ _ _ _ Hin).
        -- left. exact Hin.
    + intros bs i low high x y Hbs Hp Hx Hy.
      destruct (Hco i y Hy) as [z [Hz Hin]].
      destruct (Z.of_nat i =? r)%Z.
      * right. subst bounds.
        exact (filter_bounds_within bs _ i low high y Hp Hin).
      * subst y. exact (Hb bs i low high x z Hbs Hp Hx Hz).
Qed.

Lemma hc_box_run (n : nat) (st : hc_state) :
  hc_box fn bounds x0 st ->
  exists s,
    runM (hc_next fn bounds iterations rnd) n st = Ok s
    /\ hc_box fn bounds x0 (fst s).
Proof.
  revert st. induction n as [| n IH]; intros st H; cbn [runM].
  - eexists. split; [reflexivity | exact H].
  - destruct (hc_box_next st H) as [o [Ho Hbox]]. rewrite Ho. cbn [bind].
    destruct o as [st' |].
    + apply IH. apply Hbox. reflexivity.
    + eexists. split; [reflexivity | exact H].
Qed.

Lemma hc_box_evaluated (n : nat) (st : hc_state) (a : list R) :
  hc_box fn bounds x0 st ->
  In a (hc_evaluated fn bounds iterations rnd n st) ->
  scaled x0 a /\ kept_or_within bounds x0 a.
Proof.
  revert st. induction n as [| n IH]; intros st H Ha;
    cbn [hc_evaluated] in Ha; [contradiction |].
  destruct (hc_box_next st H) as [o [Ho Hbox]]. rewrite Ho in Ha.
  destruct o as [st' |]; [| contradiction].
  pose proof (Hbox st' eq_refl) as H'.
  destruct H as [_ [_ [_ Htodo]]].
  destruct (h_todo st) as [[| c rest] |] eqn:Et.
  - exact (IH st' H' Ha).
  - destruct Ha as [<- | Ha].
    + apply (Htodo (c :: rest)); [reflexivity | left; reflexivity].
    + exact (IH st' H' Ha).
  - exact (IH st' H' Ha).
Qed.

Lemma hill_climbing_box (n : nat) :
  exists y,
    minimize_hillclimbing fn bounds iterations rnd x0 n = Ok y
    /\ scaled x0 y /\ kept_or_within bounds x0 y
    /\ forall a,
         In a (hc_evaluated fn bounds iterations rnd n (hc_init fn x0)) ->
         scaled x0 a /\ kept_or_within bounds x0 a.
Proof.
  unfold minimize_hillclimbing.
  destruct (generate_grid_hc_ok bounds rnd x0 x0_nonempty 0 x0 hc_step
              grid_depth eq_refl) as [g [Hg _]].
  rewrite Hg. cbn [bind].
  destruct (hc_box_run n (hc_init fn x0) hc_box_init) as [s [Hs Hbox]].
  rewrite Hs. cbn [bind]. eexists. split; [reflexivity |].
  destruct Hbox as [_ [H1 [H2 _]]]. split; [exact H1 |].
  split; [exact H2 |].
  intros a. apply hc_box_evaluated. apply hc_box_init.
Qed.

End HillCandidates.

(** X20: for a non-empty initial guess the hill climbing returns, at any
    interrupt or at its end, a point of the length of the initial guess
    whose coordinates are those of the initial guess times a positive
    factor; every coordinate that has a pair in [bounds] is unchanged or
    inside its interval.  The same holds of every point it evaluates. *)
Theorem X20_hill_climbing_rescales_within_bounds (fn : list R -> pyfloat)
    (bounds : option (list (list (option R)))) (iterations : Z)
    (rnd : nat -> Z) (x0 : list R) (n : nat) :
  x0 <> [] ->
  exists y,
    minimize_hillclimbing fn bounds iterations rnd x0 n = Ok y
    /\ scaled x0 y /\ kept_or_within bounds x0 y
    /\ forall a,
         In a (hc_evaluated fn bounds iterations rnd n (hc_init fn x0)) ->
         scaled x0 a /\ kept_or_within bounds x0 a.
Proof.
  intros Hne. exact (hill_climbing_box fn bounds iterations rnd x0 Hne n).
Qed.

Lemma X20_hill_climbing_rescales_within_bounds_witness :
  exists y,
    minimize_hillclimbing sample_objective sample_bounds 1000
      (fun i => Z.of_nat i) [10; 0.05] 40 = Ok y
    /\ scaled [10; 0.05] y /\ kept_or_within sample_bounds [10; 0.05] y.
Proof.
  destruct (X20_hill_climbing_rescales_within_bounds sample_objective
              sample_bounds 1000 (fun i => Z.of_nat i) [10; 0.05] 40)
    as [y [H1 [H2 [H3 _]]]]; [discriminate |].
  exists y. split; [exact H1 |]. split; [exact H2 | exact H3].
Defined.

(** ** Grid sizes *)

Lemma length_product_cons {A : Type} (l : list A) (rest : list (list A)) :
  length (product (l :: rest)) = (length l * length (product rest))%nat.
Proof.
  cbn [product]. induction l as [| x l IH]; [reflexivity |].
  cbn [flat_map length]. rewrite length_app, length_map, IH. reflexivity.
Qed.

Lemma length_product_le {A : Type} (ls : list (list A)) (m : nat) :
  (forall l, In l ls -> (length l <= m)%nat) ->
  (length (product ls) <= m ^ length ls)%nat.
Proof.
  induction ls as [| l rest IH]; intros H.
  - cbn. lia.
  - rewrite length_product_cons. cbn [length Nat.pow].
    apply Nat.mul_le_mono.
    + apply H. left. reflexivity.
    + apply IH. intros l' Hl'. apply H. right. exact Hl'.
Qed.

Lemma length_product_eq {A : Type} (ls : list (list A)) (m : nat) :
  (forall l, In l ls -> length l = m) ->
  length (product ls) = (m ^ length ls)%nat.
Proof.
  induction ls as [| l rest IH]; intros H.
  - reflexivity.
  - rewrite length_product_cons. cbn [length Nat.pow].
    rewrite (H l (or_introl eq_refl)). f_equal.
    apply IH. intros l' Hl'. apply H. right. exact Hl'.
Qed.

Lemma filter_all_true {A : Type} (f : A -> bool) (l : list A) :
  (forall x, In x l -> f x = true) -> filter f l = l.
Proof.
  induction l as [| x l IH]; intros H; [reflexivity |].
  cbn [filter]. rewrite (H x (or_introl eq_refl)). f_equal.
  apply IH. intros y Hy. apply H. right. exact Hy.
Qed.

Lemma filter_length_le {A : Type} (f : A -> bool) (l : list A) :
  (length (filter f l) <= length l)%nat.
Proof.
  induction l as [| x l IH]; [apply Nat.le_refl |].
  cbn [filter]. destruct (f x); cbn [length]; lia.
Qed.

(** A variable has [2 * max_depth] grid values. *)
Lemma generate_grid_single_length (step : R) (max_depth : Z) (x : R) :
  length (generate_grid_single step max_depth x) = Z.to_nat (2 * max_depth).
Proof.
  unfold generate_grid_single. rewrite length_map.
  destruct (Z.le_gt_cases 0 max_depth) as [Hd | Hd].
  - rewrite (range_app (- max_depth) 0 (max_depth + 1)) by lia.
    rewrite (range_cons 0 (max_depth + 1)) by lia.
    rewrite filter_app. cbn [filter Z.eqb negb].
    rewrite !filter_all_true.
    + rewrite length_app, !range_length. lia.
    + intros d Hin. apply in_range in Hin.
      destruct (Z.eqb_spec d 0); [lia | reflexivity].
    + intros d Hin. apply in_range in Hin.
      destruct (Z.eqb_spec d 0); [lia | reflexivity].
  - rewrite range_empty by lia. cbn [filter length]. lia.
Qed.

Lemma filter_bounds_length_le (bounds : option (list (list (option R))))
    (g : list R) (i : Z) :
  (length (filter_bounds bounds g i) <= length g)%nat.
Proof.
  unfold filter_bounds. destruct bounds as [bs |]; [| apply Nat.le_refl].
  destruct (len bs <=? i)%Z; [apply Nat.le_refl |].
  destruct (nth_error bs (Z.to_nat i)) as [[| low [| high [| ? ?]]] |];
    try apply Nat.le_refl.
  apply filter_length_le.
Qed.

(** X21: the grid of the grid search around a point of [n] coordinates
    has at most [(2 * max_depth)^n] candidates, and exactly that many
    without bounds ([6^n] at the depth [3] the search uses). *)
Theorem X21_grid_size (bounds : option (list (list (option R))))
    (args : list R) (step : R) (max_depth : Z) :
  (length (generate_grid bounds args step max_depth)
   <= Z.to_nat (2 * max_depth) ^ length args)%nat
  /\ length (generate_grid None args step max_depth)
     = (Z.to_nat (2 * max_depth) ^ length args)%nat
  /\ length (generate_grid None args step grid_depth)
     = (6 ^ length args)%nat.
Proof.
  assert (Hlen : forall b : option (list (list (option R))),
             length (map (fun iv : Z * R =>
                            filter_bounds b
                              (generate_grid_single step max_depth (snd iv))
                              (fst iv)) (enumerate args))
             = length args).
  { intros b. rewrite length_map. apply enumerate_length. }
  assert (Heq : forall d,
             length (generate_grid None args step d)
             = (Z.to_nat (2 * d) ^ length args)%nat).
  { intros d. unfold generate_grid.
    rewrite (length_product_eq _ (Z.to_nat (2 * d))).
    - rewrite length_map, enumerate_length. reflexivity.
    - intros l Hl. apply in_map_iff in Hl. destruct Hl as [iv [<- _]].
      cbn [filter_bounds]. apply generate_grid_single_length. }
  split; [| split].
  - unfold generate_grid.
    eapply Nat.le_trans.
    + apply (length_product_le _ (Z.to_nat (2 * max_depth))).
      intros l Hl. apply in_map_iff in Hl. destruct Hl as [iv [<- _]].
      rewrite <- (generate_grid_single_length step max_depth (snd iv)).
      apply filter_bounds_length_le.
    + rewrite Hlen. apply Nat.le_refl.
  - apply Heq.
  - apply Heq.
Qed.

(** The grid of the hill climbing over the positions from [a] on: one
    candidate when the drawn position lies before them. *)
Lemma hc_grid_size_after (bounds : option (list (list (option R))))
    (step : R) (max_depth r : Z) (l : list R) (a : Z) :
  (r < a)%Z ->
  length (product (map (fun iv : Z * R =>
                          if (fst iv =? r)%Z
                          then filter_bounds bounds
                                 (generate_grid_single step max_depth (snd iv))
                                 (fst iv)
                          else [snd iv])
                       (combine (range a (a + len l)) l))) = 1%nat.
Proof.
  revert a. induction l as [| x l IH]; intros a Ha.
  - rewrite combine_nil. reflexivity.
  - rewrite enumerate_cons_from. cbn [map]. rewrite length_product_cons.
    cbn [fst snd]. destruct (Z.eqb_spec a r); [lia |].
    rewrite IH by lia. reflexivity.
Qed.

Lemma hc_grid_size (bounds : option (list (list (option R))))
    (step : R) (max_depth r : Z) (l : list R) (a : Z) :
  (a <= r < a + len l)%Z ->
  (length (product (map (fun iv : Z * R =>
                           if (fst iv =? r)%Z
                           then filter_bounds bounds
                                  (generate_grid_single step max_depth
                                                        (snd iv))
                                  (fst iv)
                           else [snd iv])
                        (combine (range a (a + len l)) l)))
   <= Z.to_nat (2 * max_depth))%nat.
Proof.
  revert a. induction l as [| x l IH]; intros a Ha.
  - unfold len in Ha. cbn [length] in Ha. lia.
  - rewrite enumerate_cons_from. cbn [map]. rewrite length_product_cons.
    cbn [fst snd]. destruct (Z.eqb_spec a r) as [-> | Hne].
    + rewrite hc_grid_size_after by lia. rewrite Nat.mul_1_r.
      rewrite <- (generate_grid_single_length step max_depth x).
      apply filter_bounds_length_le.
    + cbn [length]. rewrite Nat.mul_1_l. apply IH.
      unfold len in *. cbn [length] in Ha. lia.
Qed.

(** X22: a pass of the hill climbing moves along one coordinate: for a
    non-empty point the grid is built, it has at most [2 * max_depth]
    candidates, and every candidate agrees with the point outside the
    drawn coordinate; for an empty point [random.randrange(0)] raises
    [ValueError]. *)
Theorem X22_hill_climbing_grid (bounds : option (list (list (option R))))
    (rnd : nat -> Z) (draw : nat) (args : list R) (step : R)
    (max_depth : Z) :
  (args = [] ->
   generate_grid_hc bounds rnd draw args step max_depth = Raise ValueError)
  /\ (args <> [] ->
      exists r g,
        generate_grid_hc bounds rnd draw args step max_depth = Ok g
        /\ (0 <= r < len args)%Z
        /\ (length g <= Z.to_nat (2 * max_depth))%nat
        /\ forall a, In a g ->
             length a = length args
             /\ forall i, Z.of_nat i <> r ->
                          nth_error a i = nth_error args i).
Proof.
  split.
  - intros ->. reflexivity.
  - intros Hne.
    destruct (generate_grid_hc_ok bounds rnd args Hne draw args step
                max_depth eq_refl) as [g [Hg _]].
    destruct (generate_grid_hc_coord _ _ _ _ _ _ _ Hg) as [r [Hr Hall]].
    exists r, g. split; [exact Hg |]. split; [exact Hr |]. split.
    + revert Hg. unfold generate_grid_hc, randrange.
      destruct (Z.leb_spec (len args) 0) as [| Hpos]; [discriminate |].
      cbn [bind]. intros H. injection H as <-. unfold enumerate.
      apply (hc_grid_size bounds step max_depth _ args 0).
      rewrite Z.add_0_l. apply Z.mod_pos_bound. exact Hpos.
    + intros a Ha. destruct (Hall a Ha) as [Hlen Hco].
      split; [exact Hlen |]. intros i Hi.
      destruct (nth_error a i) as [y |] eqn:E.
      * destruct (Hco i y E) as [x [Hx Hin]].
        destruct (Z.eqb_spec (Z.of_nat i) r); [contradiction |].
        subst y. symmetry. exact Hx.
      * symmetry. apply nth_error_None. apply nth_error_None in E. lia.
Qed.

Lemma X22_hill_climbing_grid_witness :
  exists r g,
    generate_grid_hc sample_bounds (fun i => Z.of_nat i) 1 [10; 0.05] 1.1 3
    = Ok g
    /\ (0 <= r < len [10; 0.05]%R)%Z
    /\ (length g <= Z.to_nat (2 * 3))%nat
    /\ forall a, In a g ->
         length a = length [10; 0.05]
         /\ forall i, Z.of_nat i <> r ->
                      nth_error a i = nth_error [10; 0.05] i.
Proof.
  apply (X22_hill_climbing_grid sample_bounds (fun i => Z.of_nat i) 1
           [10; 0.05] 1.1 3).
  discriminate.
Defined.

(** ** Termination of the searches *)

Lemma generate_grid_hc_length (bounds : option (list (list (option R))))
    (rnd : nat -> Z) (draw : nat) (args : list R) (step : R)
    (max_depth : Z) (g : list (list R)) :
  generate_grid_hc bounds rnd draw args step max_depth = Ok g ->
  (length g <= Z.to_nat (2 * max_depth))%nat.
Proof.
  unfold generate_grid_hc, randrange.
  destruct (Z.leb_spec (len args) 0) as [| Hpos]; [discriminate |].
  cbn [bind]. intros H. injection H as <-. unfold enumerate.
  apply (hc_grid_size bounds step max_depth _ args 0).
  rewrite Z.add_0_l. apply Z.mod_pos_bound. exact Hpos.
Qed.

Section HillTermination.

Variable fn : list R -> pyfloat.
Variable bounds : option (list (list (option R))).
Variable iterations : Z.
Variable rnd : nat -> Z.
Variable x0 : list R.
Hypothesis x0_nonempty : x0 <> [].

(** The [for] loop of a pass runs through its candidates. *)
Lemma hc_eval_all (l : list (list R)) (st : hc_state) :
  hc_inv fn x0 st -> h_todo st = Some l ->
  exists st',
    runM (hc_next fn bounds iterations rnd) (length l) st = Ok (st', false)
    /\ h_todo st' = Some [] /\ h_n_iter st' = h_n_iter st
    /\ hc_inv fn x0 st'.
Proof.
  revert st. induction l as [| c rest IH]; intros st Hinv Ht.
  - exists st. cbn [length runM].
    split; [reflexivity |]. split; [exact Ht |].
    split; [reflexivity | exact Hinv].
  - cbn [length runM].
    destruct (hc_inv_next fn bounds iterations rnd x0 x0_nonempty st Hinv)
      as [o [Ho Hinv']].
    rewrite Ho. cbn [bind].
    assert (Hst : exists st1, o = Some st1 /\ h_todo st1 = Some rest
                              /\ h_n_iter st1 = h_n_iter st).
    { revert Ho. unfold hc_next. rewrite Ht.
      destruct (pf_lt (fn c) (h_min_val st)); intros H; injection H as <-;
        eexists; (split; [reflexivity |]); split; reflexivity. }
    destruct Hst as [st1 [-> [Ht1 Hn1]]].
    destruct (IH st1 (Hinv' st1 eq_refl) Ht1) as [st' [Hr [H1 [H2 H3]]]].
    exists st'. split; [exact Hr |]. split; [exact H1 |].
    split; [congruence | exact H3].
Qed.

(** One pass of the [while] loop: at most eight transitions. *)
Lemma hc_pass (st : hc_state) :
  hc_inv fn x0 st -> h_todo st = None -> (h_n_iter st < iterations)%Z ->
  exists m st',
    (m <= 8)%nat
    /\ runM (hc_next fn bounds iterations rnd) m st = Ok (st', false)
    /\ h_todo st' = None /\ h_n_iter st' = (h_n_iter st + 1)%Z
    /\ hc_inv fn x0 st'.
Proof.
  intros Hinv Ht Hn.
  destruct (hc_inv_next fn bounds iterations rnd x0 x0_nonempty st Hinv)
    as [o [Ho Hinv']].
  assert (Hst : exists st1 g, o = Some st1 /\ h_todo st1 = Some g
                              /\ (length g <= 6)%nat
                              /\ h_n_iter st1 = (h_n_iter st + 1)%Z).
  { revert Ho. unfold hc_next. rewrite Ht.
    destruct (Z.ltb_spec (h_n_iter st) iterations) as [_ | Hge]; [| lia].
    destruct (generate_grid_hc bounds rnd (h_draws st) (h_min_args st)
                hc_step grid_depth) as [g | e] eqn:Eg; [| discriminate].
    cbn [bind]. intros H. injection H as <-.
    eexists. exists g. split; [reflexivity |]. split; [reflexivity |].
    split; [| reflexivity].
    exact (generate_grid_hc_length _ _ _ _ _ _ _ Eg). }
  destruct Hst as [st1 [g [-> [Ht1 [Hg Hn1]]]]].
  destruct (hc_eval_all g st1 (Hinv' st1 eq_refl) Ht1)
    as [st2 [Hr2 [Ht2 [Hn2 Hinv2]]]].
  destruct (hc_inv_next fn bounds iterations rnd x0 x0_nonempty st2 Hinv2)
    as [o3 [Ho3 Hinv3]].
  assert (Hst3 : exists st3, o3 = Some st3 /\ h_todo st3 = None
                             /\ h_n_iter st3 = h_n_iter st2).
  { revert Ho3. unfold hc_next. rewrite Ht2. intros H. injection H as <-.
    eexists. split; [reflexivity |]. split; reflexivity. }
  destruct Hst3 as [st3 [-> [Ht3 Hn3]]].
  exists (S (length g + 1)), st3. split; [lia |]. split.
  - cbn [runM]. rewrite Ho. cbn [bind].
    rewrite (runM_app _ _ 1 st1 st2 Hr2). cbn [runM].
    rewrite Ho3. reflexivity.
  - split; [exact Ht3 |]. split; [lia |]. apply Hinv3. reflexivity.
Qed.

Lemma hc_terminates (k : nat) (st : hc_state) :
  hc_inv fn x0 st -> h_todo st = None -> (h_n_iter st <= iterations)%Z ->
  k = Z.to_nat (iterations - h_n_iter st) ->
  exists n st',
    (n <= 8 * k + 1)%nat
    /\ runM (hc_next fn bounds iterations rnd) n st = Ok (st', true)
    /\ h_n_iter st' = iterations.
Proof.
  revert st. induction k as [| k IH]; intros st Hinv Ht Hn Hk.
  - exists 1%nat, st. split; [lia |]. split.
    + cbn [runM]. unfold hc_next. rewrite Ht.
      destruct (Z.ltb_spec (h_n_iter st) iterations); [lia |].
      reflexivity.
    + lia.
  - destruct (hc_pass st Hinv Ht ltac:(lia))
      as [m [st1 [Hm [Hr [Ht1 [Hn1 Hinv1]]]]]].
    destruct (IH st1 Hinv1 Ht1 ltac:(lia) ltac:(lia))
      as [n [st' [Hle [Hr' Hn']]]].
    exists (m + n)%nat, st'. split; [lia |]. split.
    + rewrite (runM_app _ _ n st st1 Hr). exact Hr'.
    + exact Hn'.
Qed.

Lemma hill_climbing_terminates :
  (0 <= iterations)%Z ->
  exists n st,
    (n <= 8 * Z.to_nat iterations + 1)%nat
    /\ runM (hc_next fn bounds iterations rnd) n (hc_init fn x0)
       = Ok (st, true)
    /\ h_n_iter st = iterations
    /\ minimize_hillclimbing fn bounds iterations rnd x0 n
       = Ok (h_min_args st).
Proof.
  intros Hi.
  destruct (hc_terminates (Z.to_nat iterations) (hc_init fn x0)
              (hc_inv_init fn x0) eq_refl)
    as [n [st [Hle [Hr Hn]]]].
  - cbn [hc_init h_n_iter]. exact Hi.
  - cbn [hc_init h_n_iter]. f_equal. lia.
  - exists n, st. split; [exact Hle |]. split; [exact Hr |].
    split; [exact Hn |].
    unfold minimize_hillclimbing.
    destruct (generate_grid_hc_ok bounds rnd x0 x0_nonempty 0 x0 hc_step
                grid_depth eq_refl) as [g [Hg _]].
    rewrite Hg. cbn [bind]. rewrite Hr. reflexivity.
Qed.

End HillTermination.

(** X23: left alone, the hill climbing ends: for a non-empty initial guess
    and [iterations >= 0] its loop exits after exactly [iterations] passes,
    within [8 * iterations + 1] transitions (a pass enters, evaluates at
    most six candidates and closes), and the function returns the
    [min_args] of that moment. *)
Theorem X23_hill_climbing_terminates (fn : list R -> pyfloat)
    (bounds : option (list (list (option R)))) (iterations : Z)
    (rnd : nat -> Z) (x0 : list R) :
  x0 <> [] -> (0 <= iterations)%Z ->
  exists n st,
    (n <= 8 * Z.to_nat iterations + 1)%nat
    /\ runM (hc_next fn bounds iterations rnd) n (hc_init fn x0)
       = Ok (st, true)
    /\ h_n_iter st = iterations
    /\ minimize_hillclimbing fn bounds iterations rnd x0 n
       = Ok (h_min_args st).
Proof.
  intros Hne Hi.
  exact (hill_climbing_terminates fn bounds iterations rnd x0 Hne Hi).
Qed.

Lemma X23_hill_climbing_terminates_witness :
  exists n st,
    (n <= 8 * Z.to_nat 1000 + 1)%nat
    /\ runM (hc_next sample_objective sample_bounds 1000
               (fun i => Z.of_nat i)) n
            (hc_init sample_objective [10; 0.05])
       = Ok (st, true)
    /\ h_n_iter st = 1000%Z
    /\ minimize_hillclimbing sample_objective sample_bounds 1000
         (fun i => Z.of_nat i) [10; 0.05] n
       = Ok (h_min_args st).
Proof.
  apply (X23_hill_climbing_terminates sample_objective sample_bounds 1000
           (fun i => Z.of_nat i) [10; 0.05]).
  - discriminate.
  - lia.
Defined.


(** X24: when no point has a smaller objective value than the initial
    guess, the grid search ends by itself: every round leaves [diff] at
    [0.0] and shrinks [step] by the factor [0.75], the [while] test fails
    after exactly [17] rounds ([0.1 * 0.75^17 <= 0.001 < 0.1 * 0.75^16]),
    and the initial guess is returned. *)
Theorem X24_grid_search_stops_at_fixed_point (fn : list R -> pyfloat)
    (bounds : option (list (list (option R)))) (x0 : list R) :
  (forall a, pf_lt (fn a) (fn x0) = false) ->
  exists n st,
    run (grid_next fn bounds) n (grid_init fn x0) = (st, true)
    /\ g_n_iter st = 17%Z
    /\ g_step st = 1 + 0.1 * 0.75 ^ 17
    /\ g_min_args st = x0
    /\ minimize_grid fn bounds x0 n = x0.
Proof.
  intros H. destruct (grid_search_fixed_point fn bounds x0 H) as [n Hn].
  exists n, (grid_fixed_state fn x0 17). split; [exact Hn |].
  split; [reflexivity |]. split; [reflexivity |]. split; [reflexivity |].
  unfold minimize_grid. rewrite Hn. reflexivity.
Qed.

Lemma X24_grid_search_stops_at_fixed_point_witness :
  exists n st,
    run (grid_next (fun _ => Fin 0) sample_bounds) n
        (grid_init (fun _ => Fin 0) [10; 0.05]) = (st, true)
    /\ g_n_iter st = 17%Z
    /\ g_step st = 1 + 0.1 * 0.75 ^ 17
    /\ g_min_args st = [10; 0.05]
    /\ minimize_grid (fun _ => Fin 0) sample_bounds [10; 0.05] n
       = [10; 0.05].
Proof.
  apply (X24_grid_search_stops_at_fixed_point (fun _ => Fin 0)
           sample_bounds [10; 0.05]).
  intros a. cbn [pf_lt]. unfold Rltb.
  destruct (Rlt_dec 0 0); [lra | reflexivity].
Defined.

(** ** The initial guess *)

Lemma real_fpow_nonneg (x y w : R) :
  0 <= x -> 0 < y -> real_fpow x y = Ok w ->
  (x = 0 /\ w = 0) \/ (0 < x /\ 0 < w).
Proof.
  intros Hx Hy. unfold real_fpow.
  destruct (Req_dec_T x 0) as [-> | Hne].
  - destruct (Rlt_dec 0 y); [| lra]. intros H. injection H as <-.
    left. split; reflexivity.
  - destruct (Rlt_dec 0 x); [| lra]. intros H. injection H as <-.
    right. split; [assumption |]. unfold Rpower. apply exp_pos.
Qed.

(** X25: with the exact mathematical functions and [k >= 1], whatever the
    inversion routine returns, an initial guess [(c, e)] that
    [compute_coverage_apx] returns has [e <= 1], and [e = 1] only together
    with [c = 0]: the degenerate pair [(0.0, 1.0)] that [main] replaces is
    the only guess with error rate [1]. *)
Theorem X25_guess_error_rate_at_most_1
    (inverse : (R -> res R) -> R -> res R) (all_kmers : R)
    (unique_kmers observed_ones k r : Z) (c e : R) :
  (1 <= k)%Z ->
  compute_coverage_apx exact_libm inverse all_kmers unique_kmers
    observed_ones k r = Ok (c, e) ->
  e <= 1 /\ (e = 1 -> c = 0).
Proof.
  intros Hk H. unfold compute_coverage_apx in H.
  destruct (unique_kmers =? 0)%Z.
  - injection H as <- <-. split; [lra | reflexivity].
  - cbn [m_exp m_fpow exact_libm] in H.
    bind_inv H. bind_inv H. cbn [bind] in H.
    bind_inv H. cbn [bind] in H. bind_inv H. bind_inv H. bind_inv H.
    bind_inv H.
    assert (Hy : 0 < x4).
    { unfold fdiv in Hx4. destruct (Req_dec_T (IZR k) 0); [discriminate |].
      injection Hx4 as <-. apply IZR_le in Hk.
      unfold Rdiv. rewrite Rmult_1_l. apply Rinv_0_lt_compat. lra. }
    destruct (real_fpow_nonneg (Rmax 0 x3) x4 x5 (Rmax_l 0 x3) Hy Hx5)
      as [[Hp Hw] | [Hp Hw]].
    + destruct (Rlt_dec 0 (Rmax 0 x3)); [lra |].
      injection H as <- <-. split; [lra | reflexivity].
    + destruct (Rlt_dec 0 (Rmax 0 x3)).
      * bind_inv H. bind_inv H. injection H as <- <-.
        split; [lra | intros; lra].
      * injection H as <- <-. split; [lra | reflexivity].
Qed.

Lemma X25_guess_error_rate_at_most_1_witness :
  compute_coverage_apx exact_libm (fun _ y => Ok y) 0 0 5 20 100 = Ok (0, 1)
  /\ (1 : R) <= 1 /\ ((1 : R) = 1 -> (0 : R) = 0).
Proof.
  split; [reflexivity |].
  apply (X25_guess_error_rate_at_most_1 (fun _ y => Ok y) 0 0 5 20 100 0 1).
  - lia.
  - reflexivity.
Defined.

(** ** The log-likelihood with repeats *)

Lemma below_inf_add (x y : pyfloat) :
  below_inf x -> below_inf y -> below_inf (pf_add x y).
Proof.
  intros [-> | [a ->]] [-> | [b ->]]; cbn [pf_add].
  - left. reflexivity.
  - left. reflexivity.
  - left. reflexivity.
  - right. exists (a + b). reflexivity.
Qed.

Lemma below_inf_scale (h : Z) (x : pyfloat) :
  (0 < h)%Z -> below_inf x -> below_inf (pf_scale h x).
Proof.
  intros Hh [-> | [a ->]]; cbn [pf_scale].
  - destruct (Z.ltb_spec 0 h); [left; reflexivity | lia].
  - right. exists (IZR h * a). reflexivity.
Qed.

Lemma safe_log_exact (p : R) :
  exists lg, safe_log exact_libm p = Ok lg /\ below_inf lg.
Proof.
  unfold safe_log. destruct (Rle_dec p 0).
  - exists NInf. split; [reflexivity | left; reflexivity].
  - cbn [m_log exact_libm]. unfold real_log.
    destruct (Rlt_dec 0 p); [| lra].
    exists (Fin (ln p)). split; [reflexivity |].
    right. exists (ln p). reflexivity.
Qed.

(** X26: with the exact mathematical functions, [0 <= k < r] and a
    histogram of non-negative counts, [compute_loglikelihood_with_repeats]
    raises nothing, whatever [c], [err] and the weights [q1], [q2], [q]
    are, and its value is [-inf] or a number: the searches never meet an
    exception, a [nan] or a [+inf] log-likelihood. *)
Theorem X26_loglikelihood_with_repeats_total (hist : list Z) (r k : Z)
    (c err q1 q2 q : R) :
  (0 <= k < r)%Z ->
  (forall h, In h hist -> (0 <= h)%Z) ->
  exists ll,
    compute_loglikelihood_with_repeats exact_libm hist r k c err q1 q2 q
    = Ok ll
    /\ below_inf ll.
Proof.
  intros Hrk Hh. unfold compute_loglikelihood_with_repeats.
  destruct (out_of_domain c err).
  - exists NInf. split; [reflexivity | left; reflexivity].
  - unfold compute_probabilities_with_repeats.
    rewrite (exact_repeat_table r k c err Hrk). cbn [bind].
    apply foldM_invariant.
    + right. exists 0. reflexivity.
    + intros acc j Hj Hacc. apply in_range in Hj.
      destruct (py_index_in_range hist j ltac:(lia)) as [h E].
      rewrite E. cbn [bind].
      destruct (Z.eqb_spec h 0) as [| Hne].
      * exists acc. split; [reflexivity | exact Hacc].
      * destruct (exact_marginal r k c err q1 q2 q (len hist)
                    default_treshold j Hj) as [u [n [Hm _]]].
        rewrite Hm. cbn [bind].
        destruct (safe_log_exact
                    (py_sum (map (fun o => b_o q1 q2 q o
                                           * conv_row (p_j_exact r k c err)
                                               (Z.to_nat (o - 1)) j)
                                 (range 1 u)))) as [lg [El Hl]].
        rewrite El. cbn [bind]. eexists. split; [reflexivity |].
        apply below_inf_add; [exact Hacc |].
        apply below_inf_scale; [| exact Hl].
        pose proof (Hh h (py_index_In hist j h E)). lia.
Qed.

Lemma X26_loglikelihood_with_repeats_total_witness :
  exists ll,
    compute_loglikelihood_with_repeats exact_libm [0; 5; 7]%Z 100 20 10 0.05
      0.5 0.5 0.5 = Ok ll
    /\ below_inf ll.
Proof.
  apply (X26_loglikelihood_with_repeats_total [0; 5; 7]%Z 100 20 10 0.05
           0.5 0.5 0.5).
  - lia.
  - intros h [<- | [<- | [<- | []]]]; lia.
Defined.
